(** * Resumind (ai-resume-analyzer): a shallow embedding of the upload
      pipeline, the Puter store, the PDF converter, the routes and the
      components that hold logic of their own.

    Source files embedded here:
    - [app/lib/puter.ts]   (the Zustand store wrapping [window.puter]),
    - [app/lib/pdf2img.ts] ([loadPdfJs], [convertPdfToImage]),
    - [app/routes/upload.tsx] ([handleAnalyze], [handleSubmit],
      [handleFileSelect]),
    - [app/routes/home.tsx]   ([loadResumes], the guard),
    - [app/routes/resume.tsx] ([loadResume], the guard),
    - [app/routes/wipe.tsx]   ([loadFiles], [handleDelete], the guard),
    - [app/routes/auth.tsx]   (the redirect to [next]),
    - [app/components/FileUploader.tsx] ([onDrop]),
    - [app/components/Accordion.tsx] ([toggleItem], [isItemActive]),
    - [app/components/ScoreBadge.tsx], [Summary.tsx] ([Category]) and
      [Details.tsx] ([ScoreBadge]).

    Conventions.
    - A JavaScript string is a [string], one [ascii] for each code unit;
      the strings covered are those of code units up to U+00FF.  The
      strings that [JSON.parse] reads and [JSON.stringify] writes (the
      answer of the AI, the stored values, the strings in a JSON value)
      are [wstring]s, the full sequences of 16-bit code units.
    - A JavaScript number is a binary64 floating-point value.
    - An asynchronous function is a program in the free monad [prog]: it
      reads and updates a piece of mutable state, calls the outside world,
      and either returns or throws (a rejected promise).  Running a program
      against a handler for the outside world yields its result, the final
      state and the list of calls it made with their answers, in order.
    - [undefined] and [null] are [None] of an [option]; an object that is
      only passed around is kept by the fields the program reads. *)

From Stdlib Require Import String Ascii List Bool Arith ZArith Lia.
From Stdlib Require SpecFloat.
Import ListNotations.
Local Open Scope list_scope.
Local Open Scope string_scope.

Set Implicit Arguments.

(* ===================================================================== *)
(** ** JavaScript values shared by all modules                            *)
(* ===================================================================== *)

Module Js.

(** A string in full: the sequence of its UTF-16 code units. *)
Definition wstring : Type := list N.

(** A string of code units up to U+00FF as a [wstring]. *)
Fixpoint wide (s : string) : wstring :=
  match s with
  | EmptyString => []
  | String c rest => N_of_ascii c :: wide rest
  end.

(** The other way, for a string that holds no code unit above U+00FF. *)
Fixpoint narrow (s : wstring) : option string :=
  match s with
  | [] => Some EmptyString
  | c :: rest =>
      if (c <? 256)%N then option_map (String (ascii_of_N c)) (narrow rest) else None
  end.

(** [s] without the prefix [p], when it starts with [p]. *)
Fixpoint strip_prefix (p s : string) : option string :=
  match p, s with
  | EmptyString, _ => Some s
  | String a p', String b s' => if Ascii.eqb a b then strip_prefix p' s' else None
  | String _ _, EmptyString => None
  end.

(** A thrown value: an [Error] object (with its [name] and [message]) or
    any other value, kept by its string conversion. *)
Inductive exn : Type :=
| JsError (name message : string)
| JsThrown (text : string).

(** [err instanceof Error ? err.message : fallback] *)
Definition message_or (fallback : string) (err : exn) : string :=
  match err with
  | JsError _ m => m
  | JsThrown _ => fallback
  end.

(** String conversion of a thrown value, as a template literal performs it
    ([Error.prototype.toString] for an [Error]). *)
Definition to_string (err : exn) : string :=
  match err with
  | JsError n m =>
      match n, m with
      | EmptyString, _ => m
      | _, EmptyString => n
      | _, _ => n ++ ": " ++ m
      end
  | JsThrown t => t
  end.

(** The outcome of an awaited call: fulfilled or rejected. *)
Inductive result (X : Type) : Type :=
| Ok (x : X)
| Rejected (err : exn).
Arguments Ok {X} x.
Arguments Rejected {X} err.

Record Blob : Type := { blob_type : string; blob_bytes : string }.

(** A [File] is a [Blob] with a name. *)
Record File : Type := { file_name : string; file_type : string; file_bytes : string }.

(** [new File([blob], name, { type })] *)
Definition new_File (b : Blob) (name type : string) : File :=
  {| file_name := name; file_type := type; file_bytes := blob_bytes b |}.

(** Case-insensitive comparison of a code unit with an ASCII letter given
    in lower and upper case (the [i] flag of a regular expression). *)
Definition ci_eqb (c lower upper : ascii) : bool :=
  Ascii.eqb c lower || Ascii.eqb c upper.

(** [s] matches [/^\.pdf$/i]: the whole of [s] is a dot followed by the
    letters p, d, f in either case. *)
Definition is_pdf_ext (s : string) : bool :=
  match s with
  | String dot (String p (String d (String f EmptyString))) =>
      Ascii.eqb dot "." && ci_eqb p "p" "P" && ci_eqb d "d" "D" && ci_eqb f "f" "F"
  | _ => false
  end.

(** [name.replace(/\.pdf$/i, "")]: the leftmost position at which the rest
    of the string matches [\.pdf] up to the end of the input is cut off;
    a string with no such position is returned unchanged. *)
Fixpoint replace_pdf_ext (name : string) : string :=
  if is_pdf_ext name then EmptyString
  else match name with
       | EmptyString => EmptyString
       | String c rest => String c (replace_pdf_ext rest)
       end.

End Js.

(* ===================================================================== *)
(** ** Asynchronous programs                                              *)
(* ===================================================================== *)

Module Async.
Import Js.

Section Prog.
Variable S : Type.              (* the mutable state the program owns *)
Variable E : Type -> Type.      (* the calls it can make to the outside *)

Inductive prog (A : Type) : Type :=
| Ret (a : A)
| Throw (err : exn)
| Get (k : S -> prog A)
| Modify (f : S -> S) (k : prog A)
| Call (X : Type) (c : E X) (k : result X -> prog A).

Arguments Ret {A} a.
Arguments Throw {A} err.
Arguments Get {A} k.
Arguments Modify {A} f k.
Arguments Call {A X} c k.

Fixpoint bind {A B : Type} (p : prog A) (f : A -> prog B) : prog B :=
  match p with
  | Ret a => f a
  | Throw err => Throw err
  | Get k => Get (fun s => bind (k s) f)
  | Modify g k => Modify g (bind k f)
  | Call c k => Call c (fun r => bind (k r) f)
  end.

(** [try { p } catch (err) { h err }] *)
Fixpoint try_catch {A : Type} (p : prog A) (h : exn -> prog A) : prog A :=
  match p with
  | Ret a => Ret a
  | Throw err => h err
  | Get k => Get (fun s => try_catch (k s) h)
  | Modify g k => Modify g (try_catch k h)
  | Call c k => Call c (fun r => try_catch (k r) h)
  end.

(** A computed outcome as a program: a value is returned, an error is
    thrown. *)
Definition from_result {A : Type} (r : result A) : prog A :=
  match r with
  | Ok a => Ret a
  | Rejected err => Throw err
  end.

(** [await c]: a rejected call throws at the await. *)
Definition await {X : Type} (c : E X) : prog X := Call c from_result.

Definition get : prog S := Get (fun s => Ret s).
Definition modify (f : S -> S) : prog unit := Modify f (Ret tt).

(** A call, and a call together with its answer as a trace records it. *)
Inductive request : Type :=
| Request (X : Type) (c : E X).

Inductive event : Type :=
| Event (X : Type) (c : E X) (r : result X).

Definition rejected (q : request) (err : exn) : event :=
  match q with
  | Request c => Event c (Rejected err)
  end.

(** The outside world: every call is answered (fulfilled or rejected) from
    the world's current state [W], which the answer may change. *)
Definition handler (W : Type) : Type := forall X : Type, E X -> W -> result X * W.

(** The error and the next world, when the world rejects a call. *)
Definition rejection {W : Type} (h : handler W) (w : W) (q : request)
  : option (exn * W) :=
  match q with
  | Request c =>
      match h _ c w with
      | (Rejected err, w') => Some (err, w')
      | (Ok _, _) => None
      end
  end.

Record run_result (W A : Type) : Type := {
  returned : result A;
  final : S;
  world : W;
  trace : list event
}.

Fixpoint run {W A : Type} (h : handler W) (p : prog A) (s : S) (w : W)
  : run_result W A :=
  match p with
  | Ret a => {| returned := Ok a; final := s; world := w; trace := [] |}
  | Throw err => {| returned := Rejected err; final := s; world := w; trace := [] |}
  | Get k => run h (k s) s w
  | Modify f k => run h k (f s) w
  | Call c k =>
      let (r, w') := h _ c w in
      let out := run h (k r) s w' in
      {| returned := returned out; final := final out; world := world out;
         trace := Event c r :: trace out |}
  end.

End Prog.

Arguments Ret {S E A} a.
Arguments Throw {S E A} err.
Arguments Get {S E A} k.
Arguments Modify {S E A} f k.
Arguments Call {S E A X} c k.
Arguments Request {E X} c.
Arguments Event {E X} c r.
Arguments get {S E}.
Arguments modify {S E} f.
Arguments await {S E X} c.
Arguments from_result {S E A} r.

Declare Scope prog_scope.
Delimit Scope prog_scope with prog.
Notation "x <- p ;; q" := (bind p (fun x => q))
  (at level 61, p at next level, right associativity) : prog_scope.
Notation "p ;; q" := (bind p (fun _ => q))
  (at level 61, right associativity) : prog_scope.

End Async.

(* ===================================================================== *)
(** ** Numbers                                                            *)
(* ===================================================================== *)

(** A JavaScript number is an IEEE 754 binary64 value: [spec_float] of the
    Standard Library, a sign with a mantissa [m] and an exponent [e] for
    [m * 2 ^ e], the two zeros, the two infinities and NaN. *)

Module Number.
Import Js SpecFloat.
Local Open Scope Z_scope.
Local Open Scope list_scope.

Definition number : Type := spec_float.

(** The mantissa and exponent are those of a binary64 value: 53 bits with
    the exponent at least -1074, fewer bits only at exponent -1074. *)
Definition valid (x : number) : bool := valid_binary 53 1024 x.

(** Neither an infinity nor NaN. *)
Definition is_finite (x : number) : bool :=
  match x with
  | S754_zero _ | S754_finite _ _ _ => true
  | S754_infinity _ | S754_nan => false
  end.

Definition eqb (x y : number) : bool :=
  match x, y with
  | S754_zero a, S754_zero b => Bool.eqb a b
  | S754_infinity a, S754_infinity b => Bool.eqb a b
  | S754_nan, S754_nan => true
  | S754_finite a m e, S754_finite b m' e' => Bool.eqb a b && Pos.eqb m m' && Z.eqb e e'
  | _, _ => false
  end.

(** The binary64 value nearest to the fraction [p / q] ([0 <= p], [0 < q]),
    ties to the even mantissa.  In units of [2 ^ -1074], the least
    difference between two values, the fraction is [p * 2 ^ 1074 / q]; of
    its integer part all bits beyond the first 53 are cut off ([shift] of
    them), and what is cut off decides the direction.  A mantissa that is
    rounded up to [2 ^ 53] is [2 ^ 52] at the next exponent, and an
    exponent beyond 971 is an infinity. *)
Definition round_ratio (negative : bool) (p q : Z) : number :=
  let P := p * 2 ^ 1074 in
  let shift := Z.max (Z.log2 (P / q) - 52) 0 in
  let D := q * 2 ^ shift in
  let n := P / D in
  let r := P mod D in
  let n' := match 2 * r ?= D with
            | Lt => n
            | Eq => if Z.even n then n else n + 1
            | Gt => n + 1
            end in
  let (m, e) := if n' =? 2 ^ 53 then (2 ^ 52, shift - 1073) else (n', shift - 1074) in
  match m with
  | Zpos m' => if e <=? 971 then S754_finite negative m' e else S754_infinity negative
  | _ => S754_zero negative
  end.

(** The number value of the decimal [s * 10 ^ q]. *)
Definition of_decimal (negative : bool) (s q : Z) : number :=
  round_ratio negative (s * 10 ^ Z.max q 0) (10 ^ Z.max (- q) 0).

Definition of_Z (z : Z) : number := of_decimal (z <? 0) (Z.abs z) 0.

(** [lo <= x <= hi] for integers [lo] and [hi]; false of NaN. *)
Definition between (lo hi : Z) (x : number) : bool :=
  match x with
  | S754_zero _ => (lo <=? 0) && (0 <=? hi)
  | S754_finite s m e =>
      let num := (if s then Z.neg m else Z.pos m) * 2 ^ Z.max e 0 in
      let den := 2 ^ Z.max (- e) 0 in
      (lo * den <=? num) && (num <=? hi * den)
  | S754_infinity _ | S754_nan => false
  end.

(** *** Digits *)

(** The decimal digits of a natural number, the first one first. *)
Fixpoint digits_onto (fuel : nat) (n : Z) (acc : list Z) : list Z :=
  match fuel with
  | O => acc
  | S fuel' => if n <? 10 then n :: acc else digits_onto fuel' (n / 10) (n mod 10 :: acc)
  end.

Definition digits (n : Z) : list Z := digits_onto (S (Z.to_nat (Z.log2 n))) n [].

(** The [n] with [10 ^ (n - 1) <= num / den < 10 ^ n], for a positive
    fraction. *)
Definition dec_exp (num den : Z) : Z :=
  if den <=? num then Z.of_nat (length (digits (num / den)))
  else 1 - Z.of_nat (length (digits ((den - 1) / num))).

(** [Number::toString], the choice of digits: the least number [k] of
    digits such that some decimal [s * 10 ^ q] of [k] digits has the number
    value [x]; among those of [k] digits the one nearest to [x], the even
    one of two equally near.  The candidates are the two decimals of [k]
    digits on either side of [x].  The search ends at the latest with the
    exact decimal expansion of [x], which the count [steps] leads to. *)
Fixpoint search (x : number) (num den n0 : Z) (steps : nat) (k : Z) : Z * Z :=
  let scale := k - n0 in
  let t := num * 10 ^ Z.max scale 0 in
  let d := den * 10 ^ Z.max (- scale) 0 in
  let s := t / d in
  let r := t mod d in
  match steps with
  | O => (s, - scale)
  | S steps' =>
      match eqb (of_decimal false s (- scale)) x,
            eqb (of_decimal false (s + 1) (- scale)) x with
      | true, true =>
          match 2 * r ?= d with
          | Lt => (s, - scale)
          | Eq => (if Z.even s then s else s + 1, - scale)
          | Gt => (s + 1, - scale)
          end
      | true, false => (s, - scale)
      | false, true => (s + 1, - scale)
      | false, false => search x num den n0 steps' (k + 1)
      end
  end.

(** A decimal without the zeros its digits end in. *)
Fixpoint strip (fuel : nat) (s q : Z) : Z * Z :=
  match fuel with
  | O => (s, q)
  | S fuel' => if (s mod 10 =? 0) && (0 <? s) then strip fuel' (s / 10) (q + 1) else (s, q)
  end.

(** The digits of the positive value [m * 2 ^ e]: [(s, q)] for the decimal
    [s * 10 ^ q], [s] not ending in a zero. *)
Definition shortest (m : positive) (e : Z) : Z * Z :=
  let num := Zpos m * 2 ^ Z.max e 0 in
  let den := 2 ^ Z.max (- e) 0 in
  let n0 := dec_exp num den in
  let (s, q) := search (S754_finite false m e) num den n0
                       (Z.to_nat (Z.max 1 (n0 + Z.max (- e) 0) - 1)) 1 in
  strip (Z.to_nat (Z.log2 s)) s q.

(** *** Numerals *)

(** The code unit of a digit. *)
Definition digit_unit (d : Z) : N := Z.to_N (48 + d).

Definition numeral (ds : list Z) : wstring := map digit_unit ds.

Definition zeros (n : Z) : list Z := repeat 0 (Z.to_nat n).

(** [Number::toString], the notation: [ds] are the [k] digits and [n] puts
    the decimal point after the [n]-th of them. *)
Definition notation (ds : list Z) (n : Z) : wstring :=
  let k := Z.of_nat (length ds) in
  if (k <=? n) && (n <=? 21) then numeral (ds ++ zeros (n - k))
  else if (0 <? n) && (n <=? 21) then
    numeral (firstn (Z.to_nat n) ds) ++ wide "." ++ numeral (skipn (Z.to_nat n) ds)
  else if (-6 <? n) && (n <=? 0) then wide "0." ++ numeral (zeros (- n) ++ ds)
  else
    let exponent :=
      wide (if n - 1 <? 0 then "e-" else "e+") ++ numeral (digits (Z.abs (n - 1))) in
    match ds with
    | [] => exponent
    | [d] => digit_unit d :: exponent
    | d :: more => digit_unit d :: wide "." ++ numeral more ++ exponent
    end.

(** [Number::toString(x)] *)
Definition to_string (x : number) : wstring :=
  match x with
  | S754_nan => wide "NaN"
  | S754_infinity s => wide (if s then "-Infinity" else "Infinity")
  | S754_zero _ => wide "0"
  | S754_finite s m e =>
      let (d, q) := shortest m e in
      let ds := digits d in
      (if s then wide "-" else []) ++ notation ds (q + Z.of_nat (length ds))
  end.

(** *** Reading a numeral *)

Definition is_digit (c : N) : bool := (48 <=? c)%N && (c <=? 57)%N.

(** The digits a text starts with, by their values, and the rest. *)
Fixpoint span_digits (s : wstring) : list Z * wstring :=
  match s with
  | [] => ([], [])
  | c :: rest =>
      if is_digit c
      then let (ds, r) := span_digits rest in ((Z.of_N c - 48) :: ds, r)
      else ([], s)
  end.

Definition value (ds : list Z) : Z := fold_left (fun a d => 10 * a + d) ds 0.

(** The integer part of a numeral: one zero, or digits that start with
    another digit than zero. *)
Definition read_int (s : wstring) : option (list Z * wstring) :=
  match s with
  | [] => None
  | c :: rest =>
      if (c =? 48)%N then Some ([0], rest)
      else if is_digit c then Some (span_digits s)
      else None
  end.

(** The fraction: nothing, or a point and at least one digit. *)
Definition read_fraction (s : wstring) : option (list Z * wstring) :=
  match s with
  | c :: rest =>
      if (c =? 46)%N then
        match span_digits rest with
        | ([], _) => None
        | (ds, r) => Some (ds, r)
        end
      else Some ([], s)
  | [] => Some ([], s)
  end.

(** The exponent: nothing, or [e] or [E], a sign or none, and at least one
    digit. *)
Definition read_exponent (s : wstring) : option (Z * wstring) :=
  match s with
  | c :: rest =>
      if (c =? 101)%N || (c =? 69)%N then
        let (negative, ds) :=
          match rest with
          | sign :: rest' =>
              if (sign =? 45)%N then (true, rest')
              else if (sign =? 43)%N then (false, rest')
              else (false, rest)
          | [] => (false, rest)
          end in
        match span_digits ds with
        | ([], _) => None
        | (ds, r) => Some (if negative then - value ds else value ds, r)
        end
      else Some (0, s)
  | [] => Some (0, s)
  end.

(** A numeral after its sign: the integer part, the fraction and the
    exponent make the decimal whose number value it is. *)
Definition read_unsigned (negative : bool) (s : wstring) : option (number * wstring) :=
  match read_int s with
  | None => None
  | Some (ints, s1) =>
      match read_fraction s1 with
      | None => None
      | Some (fracs, s2) =>
          match read_exponent s2 with
          | None => None
          | Some (ex, s3) =>
              Some (of_decimal negative (value (ints ++ fracs))
                               (ex - Z.of_nat (length fracs)), s3)
          end
      end
  end.

(** A JSON numeral at the start of a text: its number value and the rest
    of the text. *)
Definition read (s : wstring) : option (number * wstring) :=
  match s with
  | c :: rest => if (c =? 45)%N then read_unsigned true rest else read_unsigned false s
  | [] => None
  end.

(** A decimal digit, by its value. *)
Definition digit (d : Z) : Prop := 0 <= d <= 9.

(** What may follow the digits of a numeral. *)
Definition no_digit (rest : wstring) : Prop :=
  match rest with
  | [] => True
  | c :: _ => is_digit c = false
  end.

(** What may follow a numeral. *)
Definition ends_numeral (rest : wstring) : Prop :=
  match rest with
  | [] => True
  | c :: _ => is_digit c = false /\ c <> 46%N /\ c <> 101%N /\ c <> 69%N
  end.

End Number.

(* ===================================================================== *)
(** ** JSON: [JSON.stringify] and [JSON.parse]                            *)
(* ===================================================================== *)

(** The two built-in functions the program stores and reads records with,
    over the values they are defined on: [null], the booleans, the numbers
    (binary64), the strings (sequences of 16-bit code units), arrays, and
    objects.  An object is the list of its members in the order in which
    JavaScript enumerates them: the keys that are array indices first, in
    ascending order, then the other keys in the order of their creation. *)

Module Json.
Import Js Number.
Local Open Scope N_scope.
Local Open Scope list_scope.

#[warnings="-register-all"]
Inductive json : Type :=
| JNull
| JBool (b : bool)
| JNum (x : number)
| JStr (s : wstring)
| JArr (items : list json)
| JObj (members : list (wstring * json)).

Definition dquote : N := 34.
Definition backslash : N := 92.

(** *** Printing *)

Definition hex_digit (n : N) : N := if n <? 10 then 48 + n else 87 + n.

(** [\uXXXX], in lower-case hexadecimal digits. *)
Definition unicode_escape (c : N) : wstring :=
  [ backslash; 117; hex_digit (c / 4096); hex_digit ((c / 256) mod 16);
    hex_digit ((c / 16) mod 16); hex_digit (c mod 16) ].

(** The first and the second code unit of a surrogate pair. *)
Definition is_high (c : N) : bool := (55296 <=? c) && (c <=? 56319).
Definition is_low (c : N) : bool := (56320 <=? c) && (c <=? 57343).

(** One code unit that is not the first of a pair, inside a string
    literal: the two-character escapes, a [\u] escape for the other control
    characters and for a surrogate on its own, the unit itself otherwise. *)
Definition escape_unit (c : N) : wstring :=
  if c =? 8 then wide "\b"
  else if c =? 9 then wide "\t"
  else if c =? 10 then wide "\n"
  else if c =? 12 then wide "\f"
  else if c =? 13 then wide "\r"
  else if c =? 34 then [backslash; dquote]
  else if c =? 92 then [backslash; backslash]
  else if (c <? 32) || is_high c || is_low c then unicode_escape c
  else [c].

(** The code points of the string in turn: a surrogate pair is kept as it
    is. *)
Fixpoint escape (s : wstring) : wstring :=
  match s with
  | [] => []
  | c :: rest =>
      match rest with
      | d :: rest' =>
          if is_high c && is_low d then c :: d :: escape rest'
          else escape_unit c ++ escape rest
      | [] => escape_unit c
      end
  end.

(** [QuoteJSONString] *)
Definition quote (s : wstring) : wstring := dquote :: escape s ++ [dquote].

(** [l] with [sep] between its elements. *)
Fixpoint join (sep : wstring) (l : list wstring) : wstring :=
  match l with
  | [] => []
  | [x] => x
  | x :: l' => x ++ sep ++ join sep l'
  end.

(** A number that is not finite is printed as [null]. *)
Definition number_text (x : number) : wstring :=
  if is_finite x then Number.to_string x else wide "null".

(** [JSON.stringify(v)], without indentation. *)
Fixpoint stringify (v : json) : wstring :=
  match v with
  | JNull => wide "null"
  | JBool true => wide "true"
  | JBool false => wide "false"
  | JNum x => number_text x
  | JStr s => quote s
  | JArr items => wide "[" ++ join (wide ",") (map stringify items) ++ wide "]"
  | JObj members =>
      wide "{" ++ join (wide ",")
                    (map (fun m => quote (fst m) ++ wide ":" ++ stringify (snd m)) members)
               ++ wide "}"
  end.

(** *** Parsing *)

Definition is_ws (c : N) : bool := (c =? 32) || (c =? 9) || (c =? 10) || (c =? 13).

Fixpoint skip_ws (s : wstring) : wstring :=
  match s with
  | [] => []
  | c :: rest => if is_ws c then skip_ws rest else s
  end.

Definition hex_value (c : N) : option N :=
  if (48 <=? c) && (c <=? 57) then Some (c - 48)
  else if (97 <=? c) && (c <=? 102) then Some (c - 87)
  else if (65 <=? c) && (c <=? 70) then Some (c - 55)
  else None.

(** The code unit named by the four hexadecimal digits of a [\u] escape. *)
Definition unicode_unit (h1 h2 h3 h4 : N) : option N :=
  match hex_value h1, hex_value h2, hex_value h3, hex_value h4 with
  | Some a, Some b, Some c, Some d => Some (((a * 16 + b) * 16 + c) * 16 + d)
  | _, _, _, _ => None
  end.

Definition cons_unit (c : N) (r : option (wstring * wstring)) : option (wstring * wstring) :=
  option_map (fun sr => (c :: fst sr, snd sr)) r.

(** The characters of a string literal after its opening quote, up to and
    including the closing quote. *)
Fixpoint parse_chars (s : wstring) : option (wstring * wstring) :=
  match s with
  | [] => None
  | c :: rest =>
      if c =? dquote then Some ([], rest)
      else if c =? backslash then
        match rest with
        | e :: rest' =>
            if e =? dquote then cons_unit dquote (parse_chars rest')
            else if e =? backslash then cons_unit backslash (parse_chars rest')
            else if e =? 47 then cons_unit 47 (parse_chars rest')
            else if e =? 98 then cons_unit 8 (parse_chars rest')
            else if e =? 102 then cons_unit 12 (parse_chars rest')
            else if e =? 110 then cons_unit 10 (parse_chars rest')
            else if e =? 114 then cons_unit 13 (parse_chars rest')
            else if e =? 116 then cons_unit 9 (parse_chars rest')
            else if e =? 117 then
              match rest' with
              | h1 :: h2 :: h3 :: h4 :: rest'' =>
                  match unicode_unit h1 h2 h3 h4 with
                  | Some u => cons_unit u (parse_chars rest'')
                  | None => None
                  end
              | _ => None
              end
            else None
        | [] => None
        end
      else if c <? 32 then None
      else cons_unit c (parse_chars rest)
  end.

Fixpoint strip_prefix (p s : wstring) : option wstring :=
  match p, s with
  | [], _ => Some s
  | a :: p', b :: s' => if a =? b then strip_prefix p' s' else None
  | _ :: _, [] => None
  end.

Fixpoint key_eqb (a b : wstring) : bool :=
  match a, b with
  | [], [] => true
  | x :: a', y :: b' => (x =? y) && key_eqb a' b'
  | _, _ => false
  end.

(** The array index a key stands for: the key is the decimal numeral,
    without a leading zero, of an integer up to [2 ^ 32 - 2]. *)
Definition array_index (k : wstring) : option N :=
  match Number.read_int k with
  | Some (ds, []) =>
      let i := Z.to_N (Number.value ds) in
      if i <=? 4294967294 then Some i else None
  | _ => None
  end.

Fixpoint has_key (k : wstring) (o : list (wstring * json)) : bool :=
  match o with
  | [] => false
  | (k', _) :: o' => key_eqb k k' || has_key k o'
  end.

(** An existing key keeps its place and takes the new value. *)
Fixpoint replace (k : wstring) (v : json) (o : list (wstring * json))
  : list (wstring * json) :=
  match o with
  | [] => []
  | (k', v') :: o' => if key_eqb k k' then (k, v) :: o' else (k', v') :: replace k v o'
  end.

(** A new array index goes before the first key that is a greater index
    or no index. *)
Fixpoint insert_index (i : N) (k : wstring) (v : json) (o : list (wstring * json))
  : list (wstring * json) :=
  match o with
  | [] => [(k, v)]
  | (k', v') :: o' =>
      match array_index k' with
      | Some j => if j <=? i then (k', v') :: insert_index i k v o' else (k, v) :: o
      | None => (k, v) :: o
      end
  end.

(** Defining a property on an object. *)
Definition set_member (k : wstring) (v : json) (o : list (wstring * json))
  : list (wstring * json) :=
  if has_key k o then replace k v o
  else match array_index k with
       | Some i => insert_index i k v o
       | None => o ++ [(k, v)]
       end.

(** The object that the members of a text make, defined one after the
    other. *)
Definition object_of (members : list (wstring * json)) : list (wstring * json) :=
  fold_left (fun o m => set_member (fst m) (snd m) o) members [].

Fixpoint parse_value (fuel : nat) (s : wstring) {struct fuel} : option (json * wstring) :=
  match fuel with
  | O => None
  | S fuel' =>
      match skip_ws s with
      | [] => None
      | c :: rest =>
          if c =? 123 then
            match skip_ws rest with
            | c' :: rest' =>
                if c' =? 125 then Some (JObj [], rest')
                else option_map (fun mr => (JObj (object_of (fst mr)), snd mr))
                                (parse_members fuel' rest)
            | [] => None
            end
          else if c =? 91 then
            match skip_ws rest with
            | c' :: rest' =>
                if c' =? 93 then Some (JArr [], rest')
                else option_map (fun er => (JArr (fst er), snd er))
                                (parse_elements fuel' rest)
            | [] => None
            end
          else if c =? dquote then
            option_map (fun sr => (JStr (fst sr), snd sr)) (parse_chars rest)
          else if c =? 110 then
            option_map (fun r => (JNull, r)) (strip_prefix (wide "ull") rest)
          else if c =? 116 then
            option_map (fun r => (JBool true, r)) (strip_prefix (wide "rue") rest)
          else if c =? 102 then
            option_map (fun r => (JBool false, r)) (strip_prefix (wide "alse") rest)
          else
            option_map (fun xr => (JNum (fst xr), snd xr)) (Number.read (c :: rest))
      end
  end

with parse_elements (fuel : nat) (s : wstring) {struct fuel} : option (list json * wstring) :=
  match fuel with
  | O => None
  | S fuel' =>
      match parse_value fuel' s with
      | Some (v, rest) =>
          match skip_ws rest with
          | c :: rest' =>
              if c =? 44 then
                option_map (fun er => (v :: fst er, snd er)) (parse_elements fuel' rest')
              else if c =? 93 then Some ([v], rest')
              else None
          | [] => None
          end
      | None => None
      end
  end

with parse_members (fuel : nat) (s : wstring) {struct fuel}
  : option (list (wstring * json) * wstring) :=
  match fuel with
  | O => None
  | S fuel' =>
      match skip_ws s with
      | q :: s1 =>
          if q =? dquote then
            match parse_chars s1 with
            | Some (k, s2) =>
                match skip_ws s2 with
                | colon :: s3 =>
                    if colon =? 58 then
                      match parse_value fuel' s3 with
                      | Some (v, rest) =>
                          match skip_ws rest with
                          | c :: rest' =>
                              if c =? 44 then
                                option_map (fun mr => ((k, v) :: fst mr, snd mr))
                                           (parse_members fuel' rest')
                              else if c =? 125 then Some ([(k, v)], rest')
                              else None
                          | [] => None
                          end
                      | None => None
                      end
                    else None
                | [] => None
                end
            | None => None
            end
          else None
      | [] => None
      end
  end.

(** [JSON.parse(text)]: [None] stands for the [SyntaxError] it throws. *)
Definition parse (text : wstring) : option json :=
  match parse_value (S (length text)) text with
  | Some (v, rest) =>
      match skip_ws rest with
      | [] => Some v
      | _ :: _ => None
      end
  | None => None
  end.

(** Property access [o.key] on a parsed value ([None] for [undefined]). *)
Fixpoint lookup (key : wstring) (members : list (wstring * json)) : option json :=
  match members with
  | [] => None
  | (k, v) :: rest => if key_eqb key k then Some v else lookup key rest
  end.

Definition field (key : string) (v : json) : option json :=
  match v with
  | JObj members => lookup (wide key) members
  | _ => None
  end.

(** *** Values that print and read back *)

(** [k] may come before [k'] among the keys of an object. *)
Definition precedes (k k' : wstring) : bool :=
  match array_index k, array_index k' with
  | Some i, Some j => i <=? j
  | Some _, None => true
  | None, Some _ => false
  | None, None => true
  end.

(** [k'] is another key than [k] and may come before it. *)
Definition before (k k' : wstring) : bool := negb (key_eqb k' k) && precedes k' k.

(** The keys of a JavaScript object: no key twice, the array indices
    first and in ascending order. *)
Fixpoint ordered_keys (keys : list wstring) : bool :=
  match keys with
  | [] => true
  | k :: rest =>
      forallb (fun k' => negb (key_eqb k k') && precedes k k') rest && ordered_keys rest
  end.

(** Every number in [v] satisfies [pn] and the keys of every object in
    [v] satisfy [pk]. *)
Fixpoint every (pn : number -> bool) (pk : list wstring -> bool) (v : json) : bool :=
  match v with
  | JNum x => pn x
  | JArr items => forallb (every pn pk) items
  | JObj members => pk (map fst members) && forallb (fun m => every pn pk (snd m)) members
  | _ => true
  end.

(** [v] is a JavaScript value: its numbers are binary64 values and its
    objects have their keys in order. *)
Definition is_value (v : json) : bool := every Number.valid ordered_keys v.

(** A number that is printed as itself: finite, and not the negative
    zero. *)
Definition prints (x : number) : bool :=
  is_finite x && negb (Number.eqb x (SpecFloat.S754_zero true)).

(** Every number in [v] is printed as itself. *)
Definition all_print (v : json) : bool := every prints (fun _ => true) v.

(** The number of steps [parse_value] needs for the text of a value. *)
Fixpoint size (v : json) : nat :=
  match v with
  | JArr items => S (list_sum (map (fun x => S (size x)) items))
  | JObj members => S (list_sum (map (fun m => S (size (snd m))) members))
  | _ => 1
  end.

Definition items_size (items : list json) : nat :=
  list_sum (map (fun x => S (size x)) items).

Definition members_size (members : list (wstring * json)) : nat :=
  list_sum (map (fun m => S (size (snd m))) members).

(** What may follow a value inside a text: nothing, or the character that
    separates or closes. *)
Definition closes (rest : wstring) : bool :=
  match rest with
  | [] => true
  | c :: _ => (c =? 44) || (c =? 93) || (c =? 125)
  end.

(** The text of one member of an object. *)
Definition member_text (m : wstring * json) : wstring :=
  quote (fst m) ++ wide ":" ++ stringify (snd m).

(** [v] is read back from its text, whatever closes it, given the steps. *)
Definition reads_back (v : json) : Prop :=
  is_value v = true -> all_print v = true ->
  forall fuel rest, (size v <= fuel)%nat -> closes rest = true ->
  parse_value fuel (stringify v ++ rest) = Some (v, rest).

End Json.

(* ===================================================================== *)
(** ** The Puter store ([app/lib/puter.ts])                               *)
(* ===================================================================== *)

Module Puter.
Import Js Async.
Local Open Scope prog_scope.

(** *** Values exchanged with [window.puter] *)

Record PuterUser : Type := { uuid : string; username : string }.

Record FSItem : Type := { fs_id : string; fs_name : string; fs_path : string }.

(** [string | File | Blob] *)
Inductive FileData : Type :=
| DataString (s : string)
| DataFile (f : File)
| DataBlob (b : Blob).

(** [File[] | Blob[]] *)
Inductive Uploads : Type :=
| UploadFiles (files : list File)
| UploadBlobs (blobs : list Blob).

Inductive ContentPart : Type :=
| FilePart (puter_path : string)
| TextPart (text : string).

Inductive MessageContent : Type :=
| ContentString (s : string)
| ContentParts (parts : list ContentPart).

Record ChatMessage : Type := { role : string; content : MessageContent }.

(** [string | ChatMessage[]] *)
Inductive Prompt : Type :=
| PromptString (s : string)
| PromptMessages (messages : list ChatMessage).

Record PuterChatOptions : Type := { model : option string }.

(** [string | PuterChatOptions], the second argument of [ai.chat]. *)
Inductive ImageArg : Type :=
| ImageURL (url : string)
| ChatOptions (options : PuterChatOptions).

(** One element of an answer's [message.content] array; [text] may be
    missing. *)
Record ResponsePart : Type := { part_type : string; part_text : option wstring }.

(** [message.content] of an [AIResponse]: a string or an array. *)
Inductive ResponseContent : Type :=
| AnswerString (s : wstring)
| AnswerParts (parts : list ResponsePart).

Record AIResponse : Type := { message_content : ResponseContent }.

Record KVItem : Type := { kv_key : string; kv_value : wstring }.

(** [string[] | KVItem[]] *)
Inductive KVList : Type :=
| KVKeys (keys : list string)
| KVItems (items : list KVItem).

(** *** The store's state *)

(** The [getUser] closure kept in [auth]: it reads the store, or it is the
    constant function installed together with a user. *)
Inductive GetUser : Type :=
| GetUserFromStore
| GetUserConst (u : option PuterUser).

(** [auth.signIn], [signOut], [refreshUser] and [checkAuthStatus] are
    copied unchanged by every update ([get().auth.signIn], ...); only the
    fields that vary are kept. *)
Record Auth : Type := {
  user : option PuterUser;
  isAuthenticated : bool;
  getUser : GetUser
}.

Record PuterStore : Type := {
  isLoading : bool;
  error : option string;
  puterReady : bool;
  auth : Auth
}.

(** The state [create] returns. *)
Definition initial_store : PuterStore :=
  {| isLoading := true;
     error := None;
     puterReady := false;
     auth := {| user := None; isAuthenticated := false; getUser := GetUserFromStore |} |}.

(** *** Calls made to the runtime *)

Inductive puter_call : Type -> Type :=
| window_puter : puter_call bool
    (* typeof window !== "undefined" && window.puter: is the runtime there? *)
| puter_auth_getUser : puter_call PuterUser
| puter_auth_isSignedIn : puter_call bool
| puter_auth_signIn : puter_call unit
| puter_auth_signOut : puter_call unit
| puter_fs_write (path : string) (data : FileData) : puter_call (option File)
| puter_fs_read (path : string) : puter_call Blob
| puter_fs_upload (files : Uploads) : puter_call FSItem
| puter_fs_delete (path : string) : puter_call unit
| puter_fs_readdir (path : string) : puter_call (option (list FSItem))
| puter_ai_chat (prompt : Prompt) (imageURL : option ImageArg)
                (testMode : option bool) (options : option PuterChatOptions)
    : puter_call (option AIResponse)
| puter_ai_img2txt (image : FileData) (testMode : option bool) : puter_call string
| puter_kv_get (key : string) : puter_call (option wstring)
| puter_kv_set (key : string) (value : wstring) : puter_call bool
| puter_kv_delete (key : string) : puter_call bool
| puter_kv_list (pattern : string) (returnValues : bool) : puter_call KVList
| puter_kv_flush : puter_call bool.

Definition M : Type -> Type := prog PuterStore puter_call.

(** Does a recorded call reach the backend?  Looking for the runtime
    object does not. *)
Definition is_backend_call (e : event puter_call) : bool :=
  match e with
  | Event window_puter _ => false
  | Event _ _ => true
  end.

(** [getPuter()] *)
Definition getPuter : M bool := await window_puter.

(** The state update of [setError(msg)]. *)
Definition with_error (msg : string) (s : PuterStore) : PuterStore :=
  {| isLoading := false;
     error := Some msg;
     puterReady := puterReady s;
     auth := {| user := None; isAuthenticated := false; getUser := getUser (auth s) |} |}.

Definition setError (msg : string) : M unit := modify (with_error msg).

(** [set({ isLoading: true, error: null })] *)
Definition start_loading (s : PuterStore) : PuterStore :=
  {| isLoading := true; error := None; puterReady := puterReady s; auth := auth s |}.

(** [set({ auth: { user, isAuthenticated: true, ..., getUser: () => user },
           isLoading: false })] *)
Definition signed_in (u : PuterUser) (s : PuterStore) : PuterStore :=
  {| isLoading := false;
     error := error s;
     puterReady := puterReady s;
     auth := {| user := Some u; isAuthenticated := true; getUser := GetUserConst (Some u) |} |}.

(** [set({ auth: { user: null, isAuthenticated: false, ...,
                   getUser: () => null }, isLoading: false })] *)
Definition signed_out (s : PuterStore) : PuterStore :=
  {| isLoading := false;
     error := error s;
     puterReady := puterReady s;
     auth := {| user := None; isAuthenticated := false; getUser := GetUserConst None |} |}.

(** [set({ puterReady: true })] *)
Definition ready (s : PuterStore) : PuterStore :=
  {| isLoading := isLoading s; error := error s; puterReady := true; auth := auth s |}.

Definition checkAuthStatus : M bool :=
  puter <- getPuter ;;
  if negb puter then
    setError "Puter.js not available" ;; Ret false
  else
    modify start_loading ;;
    try_catch
      (isSignedIn <- await puter_auth_isSignedIn ;;
       if (isSignedIn : bool) then
         u <- await puter_auth_getUser ;;
         modify (signed_in u) ;; Ret true
       else
         modify signed_out ;; Ret false)
      (fun err =>
         setError (message_or "Failed to check auth status" err) ;; Ret false).

Definition signIn : M unit :=
  puter <- getPuter ;;
  if negb puter then
    setError "Puter.js not available"
  else
    modify start_loading ;;
    try_catch
      (await puter_auth_signIn ;;
       _ <- checkAuthStatus ;; Ret tt)
      (fun err => setError (message_or "Sign in failed" err)).

Definition signOut : M unit :=
  puter <- getPuter ;;
  if negb puter then
    setError "Puter.js not available"
  else
    modify start_loading ;;
    try_catch
      (await puter_auth_signOut ;;
       modify signed_out)
      (fun err => setError (message_or "Sign out failed" err)).

Definition refreshUser : M unit :=
  puter <- getPuter ;;
  if negb puter then
    setError "Puter.js not available"
  else
    modify start_loading ;;
    try_catch
      (u <- await puter_auth_getUser ;;
       modify (signed_in u))
      (fun err => setError (message_or "Failed to refresh user" err)).

(** [init()], the part that runs at once: with the runtime present the
    store becomes ready and the auth check starts; otherwise the poll and
    the timeout are armed ([false] is returned for "timers armed"). *)
Definition init : M bool :=
  puter <- getPuter ;;
  if (puter : bool) then
    modify ready ;; _ <- checkAuthStatus ;; Ret true
  else Ret false.

(** The callback [init] gives to [setInterval] (every 100 ms); [true] when
    it clears the interval. *)
Definition init_poll : M bool :=
  puter <- getPuter ;;
  if (puter : bool) then
    modify ready ;; _ <- checkAuthStatus ;; Ret true
  else Ret false.

(** The callback [init] gives to [setTimeout] (after 10 s); it clears the
    interval first. *)
Definition init_timeout : M unit :=
  puter <- getPuter ;;
  if negb puter then setError "Puter.js failed to load within 10 seconds"
  else Ret tt.

(** [clearError()] *)
Definition clearError : M unit :=
  modify (fun s => {| isLoading := isLoading s; error := None;
                      puterReady := puterReady s; auth := auth s |}).

(** *** Filesystem helpers *)

Definition write (path : string) (data : FileData) : M (option File) :=
  puter <- getPuter ;;
  if negb puter then
    setError "Puter.js not available" ;; Ret None
  else await (puter_fs_write path data).

Definition readDir (path : string) : M (option (list FSItem)) :=
  puter <- getPuter ;;
  if negb puter then
    setError "Puter.js not available" ;; Ret None
  else await (puter_fs_readdir path).

Definition readFile (path : string) : M (option Blob) :=
  puter <- getPuter ;;
  if negb puter then
    setError "Puter.js not available" ;; Ret None
  else b <- await (puter_fs_read path) ;; Ret (Some b).

Definition upload (files : Uploads) : M (option FSItem) :=
  puter <- getPuter ;;
  if negb puter then
    setError "Puter.js not available" ;; Ret None
  else item <- await (puter_fs_upload files) ;; Ret (Some item).

(** [Promise<void>]: the value is [undefined] on either path. *)
Definition deleteFile (path : string) : M unit :=
  puter <- getPuter ;;
  if negb puter then
    setError "Puter.js not available"
  else await (puter_fs_delete path).

(** *** AI helpers *)

Definition chat (prompt : Prompt) (imageURL : option ImageArg)
    (testMode : option bool) (options : option PuterChatOptions)
  : M (option AIResponse) :=
  puter <- getPuter ;;
  if negb puter then
    setError "Puter.js not available" ;; Ret None
  else await (puter_ai_chat prompt imageURL testMode options).

Definition feedback (path message : string) : M (option AIResponse) :=
  puter <- getPuter ;;
  if negb puter then
    setError "Puter.js not available" ;; Ret None
  else
    await (puter_ai_chat
             (PromptMessages
                [ {| role := "user";
                     content := ContentParts [FilePart path; TextPart message] |} ])
             (Some (ChatOptions {| model := Some "claude-3-7-sonnet" |}))
             None None).

Definition img2txt (image : FileData) (testMode : option bool) : M (option string) :=
  puter <- getPuter ;;
  if negb puter then
    setError "Puter.js not available" ;; Ret None
  else t <- await (puter_ai_img2txt image testMode) ;; Ret (Some t).

(** *** Key-value helpers *)

(** [string | null | undefined]: the outer [None] is [undefined]. *)
Definition getKV (key : string) : M (option (option wstring)) :=
  puter <- getPuter ;;
  if negb puter then
    setError "Puter.js not available" ;; Ret None
  else v <- await (puter_kv_get key) ;; Ret (Some v).

Definition setKV (key : string) (value : wstring) : M (option bool) :=
  puter <- getPuter ;;
  if negb puter then
    setError "Puter.js not available" ;; Ret None
  else b <- await (puter_kv_set key value) ;; Ret (Some b).

Definition deleteKV (key : string) : M (option bool) :=
  puter <- getPuter ;;
  if negb puter then
    setError "Puter.js not available" ;; Ret None
  else b <- await (puter_kv_delete key) ;; Ret (Some b).

Definition listKV (pattern : string) (returnValues : option bool) : M (option KVList) :=
  puter <- getPuter ;;
  if negb puter then
    setError "Puter.js not available" ;; Ret None
  else
    let returnValues := match returnValues with Some b => b | None => false end in
    l <- await (puter_kv_list pattern returnValues) ;; Ret (Some l).

Definition flushKV : M (option bool) :=
  puter <- getPuter ;;
  if negb puter then
    setError "Puter.js not available" ;; Ret None
  else b <- await puter_kv_flush ;; Ret (Some b).

(** *** The operations the store exposes under [fs], [ai] and [kv] *)

Inductive facade_op : Type -> Type :=
| Fs_write (path : string) (data : FileData) : facade_op (option File)
| Fs_read (path : string) : facade_op (option Blob)
| Fs_upload (files : Uploads) : facade_op (option FSItem)
| Fs_delete (path : string) : facade_op unit
| Fs_readDir (path : string) : facade_op (option (list FSItem))
| Ai_chat (prompt : Prompt) (imageURL : option ImageArg)
          (testMode : option bool) (options : option PuterChatOptions)
    : facade_op (option AIResponse)
| Ai_feedback (path message : string) : facade_op (option AIResponse)
| Ai_img2txt (image : FileData) (testMode : option bool) : facade_op (option string)
| Kv_get (key : string) : facade_op (option (option wstring))
| Kv_set (key : string) (value : wstring) : facade_op (option bool)
| Kv_delete (key : string) : facade_op (option bool)
| Kv_list (pattern : string) (returnValues : option bool) : facade_op (option KVList)
| Kv_flush : facade_op (option bool).

(** The object [create] returns maps each exposed name to its helper. *)
Definition perform {X : Type} (op : facade_op X) : M X :=
  match op with
  | Fs_write path data => write path data
  | Fs_read path => readFile path
  | Fs_upload files => upload files
  | Fs_delete path => deleteFile path
  | Fs_readDir path => readDir path
  | Ai_chat prompt imageURL testMode options => chat prompt imageURL testMode options
  | Ai_feedback path message => feedback path message
  | Ai_img2txt image testMode => img2txt image testMode
  | Kv_get key => getKV key
  | Kv_set key value => setKV key value
  | Kv_delete key => deleteKV key
  | Kv_list pattern returnValues => listKV pattern returnValues
  | Kv_flush => flushKV
  end.

(** [undefined] at the type of each operation's result. *)
Definition undefined {X : Type} (op : facade_op X) : X :=
  match op with
  | Fs_write _ _ => None
  | Fs_read _ => None
  | Fs_upload _ => None
  | Fs_delete _ => tt
  | Fs_readDir _ => None
  | Ai_chat _ _ _ _ => None
  | Ai_feedback _ _ => None
  | Ai_img2txt _ _ => None
  | Kv_get _ => None
  | Kv_set _ _ => None
  | Kv_delete _ => None
  | Kv_list _ _ => None
  | Kv_flush => None
  end.

(** The one call to the runtime each operation makes when the runtime is
    there. *)
Definition backend_call {X : Type} (op : facade_op X) : request puter_call :=
  match op with
  | Fs_write path data => Request (puter_fs_write path data)
  | Fs_read path => Request (puter_fs_read path)
  | Fs_upload files => Request (puter_fs_upload files)
  | Fs_delete path => Request (puter_fs_delete path)
  | Fs_readDir path => Request (puter_fs_readdir path)
  | Ai_chat prompt imageURL testMode options =>
      Request (puter_ai_chat prompt imageURL testMode options)
  | Ai_feedback path message =>
      Request (puter_ai_chat
               (PromptMessages
                  [ {| role := "user";
                       content := ContentParts [FilePart path; TextPart message] |} ])
               (Some (ChatOptions {| model := Some "claude-3-7-sonnet" |}))
               None None)
  | Ai_img2txt image testMode => Request (puter_ai_img2txt image testMode)
  | Kv_get key => Request (puter_kv_get key)
  | Kv_set key value => Request (puter_kv_set key value)
  | Kv_delete key => Request (puter_kv_delete key)
  | Kv_list pattern returnValues =>
      Request (puter_kv_list pattern
               match returnValues with Some b => b | None => false end)
  | Kv_flush => Request puter_kv_flush
  end.

End Puter.

(* ===================================================================== *)
(** ** The PDF converter ([app/lib/pdf2img.ts])                           *)
(* ===================================================================== *)

Module Pdf2Img.
Import Js Async.
Local Open Scope prog_scope.

Record PdfConversionResult : Type := {
  imageUrl : string;
  file : option File;
  error : option string
}.

(** *** Objects of PDF.js and of the page, kept by identity *)

(** The PDF.js module object; [workerSrc] is its
    [GlobalWorkerOptions.workerSrc]. *)
Record PdfJs : Type := { module_id : nat; workerSrc : option string }.

Inductive Promise : Type := PromiseId (n : nat).
Inductive PdfDocument : Type := DocumentId (n : nat).
Inductive PdfPage : Type := PageId (n : nat).
Inductive Canvas : Type := CanvasId (n : nat).
Inductive Context2d : Type := ContextId (n : nat).
Record Viewport : Type := { width : Z; height : Z }.

(** What [URL.createObjectURL] mints: a URL of the [blob:] scheme, unique
    by the part after the scheme. *)
Record BlobUrl : Type := { blob_url_id : string }.
Definition blob_url (u : BlobUrl) : string := "blob:" ++ blob_url_id u.

Inductive pdf_call : Type -> Type :=
| import_pdfjs : pdf_call Promise
    (* import("pdfjs-dist/build/pdf.mjs"): starts the load *)
| settle (p : Promise) : pdf_call PdfJs
    (* awaiting a load promise *)
| file_arrayBuffer (f : File) : pdf_call string
| getDocument (lib : PdfJs) (data : string) : pdf_call PdfDocument
| getPage (pdf : PdfDocument) (pageNumber : nat) : pdf_call PdfPage
| getViewport (page : PdfPage) (scale : nat) : pdf_call Viewport
| createCanvas : pdf_call Canvas
| getContext2d (canvas : Canvas) : pdf_call (option Context2d)
| canvas_resize (canvas : Canvas) (w h : Z) : pdf_call unit
| context_smoothing (context : Context2d) (quality : string) : pdf_call unit
| page_render (page : PdfPage) (context : option Context2d) (viewport : Viewport)
    : pdf_call unit
| canvas_toBlob (canvas : Canvas) (type : string) (quality : nat) : pdf_call (option Blob)
| URL_createObjectURL (b : Blob) : pdf_call BlobUrl.

(** *** The module's variables *)

Record State : Type := {
  pdfjsLib : option PdfJs;
  isLoading : bool;
  loadPromise : option Promise
}.

Definition initial_state : State :=
  {| pdfjsLib := None; isLoading := false; loadPromise := None |}.

(** The two tests at the head of [loadPdfJs]. *)
Inductive decision : Type :=
| UseCached (lib : PdfJs)       (* if (pdfjsLib) return pdfjsLib *)
| UseShared (p : Promise)       (* if (loadPromise) return loadPromise *)
| StartImport.

Definition decide (st : State) : decision :=
  match pdfjsLib st with
  | Some lib => UseCached lib
  | None =>
      match loadPromise st with
      | Some p => UseShared p
      | None => StartImport
      end
  end.

(** [isLoading = true; loadPromise = import(...).then(...)] *)
Definition begin_import (p : Promise) (st : State) : State :=
  {| pdfjsLib := pdfjsLib st; isLoading := true; loadPromise := Some p |}.

(** The module object after the [then] callback has set its worker. *)
Definition with_worker (lib : PdfJs) : PdfJs :=
  {| module_id := module_id lib; workerSrc := Some "/pdf.worker.min.mjs" |}.

(** The [then] callback of the load promise. *)
Definition on_import (lib : PdfJs) (st : State) : State :=
  {| pdfjsLib := Some (with_worker lib); isLoading := false; loadPromise := loadPromise st |}.

(** [await loadPdfJs()].  The load promise is the [then]-chained one, so
    by the time it is fulfilled its callback has run. *)
Definition loadPdfJs : prog State pdf_call PdfJs :=
  st <- get ;;
  match decide st with
  | UseCached lib => Ret lib
  | UseShared p =>
      lib <- await (settle p) ;;
      modify (on_import lib) ;; Ret (with_worker lib)
  | StartImport =>
      p <- await import_pdfjs ;;
      modify (begin_import p) ;;
      lib <- await (settle p) ;;
      modify (on_import lib) ;; Ret (with_worker lib)
  end.

(** [convertPdfToImage(file)].  The promise built around [canvas.toBlob] is
    returned without an [await], so what happens from [toBlob] on is not
    covered by the [try]. *)
Definition convertPdfToImage (f : File) : prog State pdf_call PdfConversionResult :=
  rendered <-
    try_catch
      (lib <- loadPdfJs ;;
       arrayBuffer <- await (file_arrayBuffer f) ;;
       pdf <- await (getDocument lib arrayBuffer) ;;
       page <- await (getPage pdf 1) ;;
       viewport <- await (getViewport page 4) ;;
       canvas <- await createCanvas ;;
       context <- await (getContext2d canvas) ;;
       await (canvas_resize canvas (width viewport) (height viewport)) ;;
       match context with
       | Some ctx => await (context_smoothing ctx "high")
       | None => Ret tt
       end ;;
       await (page_render page context viewport) ;;
       Ret (inl canvas))
      (fun err =>
         Ret (inr {| imageUrl := "";
                     file := None;
                     error := Some ("Failed to convert PDF: " ++ to_string err) |})) ;;
  match rendered with
  | inr failed => Ret failed
  | inl canvas =>
      blob <- await (canvas_toBlob canvas "image/png" 1) ;;
      match blob with
      | Some blob =>
          let originalName := replace_pdf_ext (file_name f) in
          let imageFile := new_File blob (originalName ++ ".png") "image/png" in
          url <- await (URL_createObjectURL blob) ;;
          Ret {| imageUrl := blob_url url; file := Some imageFile; error := None |}
      | None =>
          Ret {| imageUrl := ""; file := None; error := Some "Failed to create image blob" |}
      end
  end.

(** *** Interleaved calls

    [convert()] calls may be issued while a load is in flight.  Between two
    awaits the code runs without interruption, so an execution is a sequence
    of atomic actions: a call entering [loadPdfJs], or the load promise
    being settled by the module loader. *)

Inductive action : Type :=
| CallConvert                     (* a convert() call reaches loadPdfJs *)
| ImportFulfils (lib : PdfJs)     (* the import resolves; the callback runs *)
| ImportRejects.

(** What a call to [loadPdfJs] hands back: the cached module, or a load
    promise. *)
Inductive handed : Type :=
| HandedModule (lib : PdfJs)
| HandedPromise (p : Promise).

Record Process : Type := {
  vars : State;
  imports : nat;                  (* how many times import(...) was evaluated *)
  in_flight : bool;               (* an import has started and not settled *)
  answers : list handed           (* what each call was handed, latest first *)
}.

Definition initial_process : Process :=
  {| vars := initial_state; imports := 0; in_flight := false; answers := [] |}.

Definition step (a : action) (p : Process) : Process :=
  match a with
  | CallConvert =>
      match decide (vars p) with
      | UseCached lib =>
          {| vars := vars p; imports := imports p; in_flight := in_flight p;
             answers := HandedModule lib :: answers p |}
      | UseShared q =>
          {| vars := vars p; imports := imports p; in_flight := in_flight p;
             answers := HandedPromise q :: answers p |}
      | StartImport =>
          let q := PromiseId (imports p) in
          {| vars := begin_import q (vars p);
             imports := S (imports p);
             in_flight := true;
             answers := HandedPromise q :: answers p |}
      end
  | ImportFulfils lib =>
      if in_flight p
      then {| vars := on_import lib (vars p); imports := imports p;
              in_flight := false; answers := answers p |}
      else p
  | ImportRejects =>
      if in_flight p
      then {| vars := vars p; imports := imports p;
              in_flight := false; answers := answers p |}
      else p
  end.

Definition exec (actions : list action) (p : Process) : Process :=
  fold_left (fun q a => step a q) actions p.

(** What a call may be handed when there is a single load: the first load
    promise, or the module the store's variable holds. *)
Definition from_single_load (p : Process) (a : handed) : Prop :=
  a = HandedPromise (PromiseId 0) \/
  exists lib, a = HandedModule lib /\ pdfjsLib (vars p) = Some lib.

(** The state of affairs every reachable process is in. *)
Definition single_load (p : Process) : Prop :=
  imports p <= 1 /\
  (imports p = 0 ->
   vars p = initial_state /\ in_flight p = false /\ answers p = []) /\
  (imports p = 1 -> loadPromise (vars p) = Some (PromiseId 0)) /\
  (in_flight p = true -> pdfjsLib (vars p) = None) /\
  Forall (from_single_load p) (answers p).

End Pdf2Img.

(* ===================================================================== *)
(** ** Stored records                                                     *)
(* ===================================================================== *)

Module Types.
Import Js Json.

(** The object [handleAnalyze] builds and stores; [feedback] is the empty
    string at first and the parsed answer of the AI afterwards. *)
Record Resume : Type := {
  id : wstring;
  resumePath : wstring;
  imagePath : wstring;
  companyName : wstring;
  jobTitle : wstring;
  jobDescription : wstring;
  feedback : json
}.

Definition with_feedback (fb : json) (r : Resume) : Resume :=
  {| id := id r; resumePath := resumePath r; imagePath := imagePath r;
     companyName := companyName r; jobTitle := jobTitle r;
     jobDescription := jobDescription r; feedback := fb |}.

(** The JavaScript object, members in the order of the object literal. *)
Definition to_json (r : Resume) : json :=
  JObj [ (wide "id", JStr (id r));
         (wide "resumePath", JStr (resumePath r));
         (wide "imagePath", JStr (imagePath r));
         (wide "companyName", JStr (companyName r));
         (wide "jobTitle", JStr (jobTitle r));
         (wide "jobDescription", JStr (jobDescription r));
         (wide "feedback", feedback r) ].

Definition string_field (key : string) (v : json) : option wstring :=
  match field key v with
  | Some (JStr s) => Some s
  | _ => None
  end.

(** Reading a parsed value as a [Resume], field by field. *)
Definition of_json (v : json) : option Resume :=
  match string_field "id" v, string_field "resumePath" v, string_field "imagePath" v,
        string_field "companyName" v, string_field "jobTitle" v,
        string_field "jobDescription" v, field "feedback" v with
  | Some i, Some rp, Some ip, Some cn, Some jt, Some jd, Some fb =>
      Some {| id := i; resumePath := rp; imagePath := ip; companyName := cn;
              jobTitle := jt; jobDescription := jd; feedback := fb |}
  | _, _, _, _, _, _, _ => None
  end.

(** The storage form of a record, and reading it back. *)
Definition serialize (r : Resume) : wstring := stringify (to_json r).

Definition deserialize (value : wstring) : option Resume :=
  match Json.parse value with
  | Some v => of_json v
  | None => None
  end.

(** Modelled from the spec: the declaration of the [Feedback] type is not
    among the sources; this is the record shape the spec gives for the
    populated [feedback] field, with the tip fields it marks optional. *)
Record Tip : Type := {
  tip_type : wstring;
  tip : option wstring;
  explanation : option wstring
}.

Record Category : Type := { score : Number.number; tips : list Tip }.

Record Feedback : Type := {
  overallScore : Number.number;
  ATS : Category;
  toneAndStyle : Category;
  content : Category;
  structure : Category;
  skills : Category
}.

Definition optional_member (key : string) (o : option wstring) : list (wstring * json) :=
  match o with
  | Some s => [(wide key, JStr s)]
  | None => []
  end.

Definition tip_json (t : Tip) : json :=
  JObj ([(wide "type", JStr (tip_type t))]
          ++ optional_member "tip" (tip t)
          ++ optional_member "explanation" (explanation t))%list.

Definition category_json (c : Category) : json :=
  JObj [ (wide "score", JNum (score c)); (wide "tips", JArr (map tip_json (tips c))) ].

Definition feedback_json (f : Feedback) : json :=
  JObj [ (wide "overallScore", JNum (overallScore f));
         (wide "ATS", category_json (ATS f));
         (wide "toneAndStyle", category_json (toneAndStyle f));
         (wide "content", category_json (content f));
         (wide "structure", category_json (structure f));
         (wide "skills", category_json (skills f)) ].

(** The number under [key], when there is one. *)
Definition number_field (key : string) (v : json) : option Number.number :=
  match field key v with
  | Some (JNum x) => Some x
  | _ => None
  end.

(** [fb.<category>.score] *)
Definition category_score (category : string) (fb : json) : option Number.number :=
  match field category fb with
  | Some c => number_field "score" c
  | None => None
  end.

(** The overall score and the five category scores of a payload, those
    that are there. *)
Definition scores (fb : json) : list (option Number.number) :=
  [ number_field "overallScore" fb;
    category_score "ATS" fb;
    category_score "toneAndStyle" fb;
    category_score "content" fb;
    category_score "structure" fb;
    category_score "skills" fb ].

Definition in_range (s : option Number.number) : Prop :=
  exists x, s = Some x /\ Number.between 0 100 x = true.

(** Every score of the payload is a number between 0 and 100. *)
Definition scores_in_range (fb : json) : Prop := Forall in_range (scores fb).

End Types.

(* ===================================================================== *)
(** ** The key-value service                                              *)
(* ===================================================================== *)

Module PuterKv.
Import Js Puter.

(** Modelled from the spec: the key-value service behind [window.puter.kv]
    is remote and none of its code is among the sources.  This is the
    behaviour the spec assumes of it: [set] stores a value under a key,
    replacing an earlier value, and [list(pattern, true)] returns the
    entries whose key matches a pattern ending in a wildcard, that is,
    whose key starts with the pattern's prefix. *)
Definition store : Type := list (string * wstring).

Fixpoint set (key : string) (value : wstring) (st : store) : store :=
  match st with
  | [] => [(key, value)]
  | (k, v) :: rest =>
      if String.eqb key k then (key, value) :: rest else (k, v) :: set key value rest
  end.

Fixpoint glob (pattern key : string) : bool :=
  match pattern, key with
  | String "*" EmptyString, _ => true
  | String p pattern', String k key' => Ascii.eqb p k && glob pattern' key'
  | EmptyString, EmptyString => true
  | _, _ => false
  end.

Definition list (pattern : string) (st : store) : list KVItem :=
  map (fun kv => {| kv_key := fst kv; kv_value := snd kv |})
      (filter (fun kv => glob pattern (fst kv)) st).

End PuterKv.

(* ===================================================================== *)
(** ** The routes                                                         *)
(* ===================================================================== *)

Module App.
Import Js Async.

(** What a route component calls: the operations of the Puter store it
    takes from [usePuterStore()], the converter, and the browser. *)
Inductive app_call : Type -> Type :=
| facade (X : Type) (op : Puter.facade_op X) : app_call X
| convert (f : File) : app_call Pdf2Img.PdfConversionResult
| generateUUID : app_call string
| navigate (to : string) : app_call unit.
Arguments facade {X} op.

Definition is_facade_call (e : event app_call) : bool :=
  match e with
  | Event (facade _) _ => true
  | Event _ _ => false
  end.

Definition is_convert_call (e : event app_call) : bool :=
  match e with
  | Event (convert _) _ => true
  | Event _ _ => false
  end.

(** The key and the value of a [kv.set] call. *)
Definition kv_write (e : event app_call) : option (string * wstring) :=
  match e with
  | Event (facade (Puter.Kv_set key value)) _ => Some (key, value)
  | Event _ _ => None
  end.

Fixpoint kv_writes (t : list (event app_call)) : list (string * wstring) :=
  match t with
  | [] => []
  | e :: t' =>
      match kv_write e with
      | Some w => w :: kv_writes t'
      | None => kv_writes t'
      end
  end.

(** [JSON.parse(text)] as the program sees it: a value, or a thrown
    [SyntaxError]. *)
Definition JSON_parse (text : wstring) : result Json.json :=
  match Json.parse text with
  | Some v => Ok v
  | None => Rejected (JsError "SyntaxError" "Unexpected token in JSON")
  end.

End App.

(** *** [app/routes/upload.tsx] *)

Module Upload.
Import Js Async Json Puter Pdf2Img Types App.
Local Open Scope prog_scope.

Record State : Type := {
  isProcessing : bool;
  statusText : string;
  selected : option File          (* the [file] state variable *)
}.

Definition setIsProcessing (b : bool) (s : State) : State :=
  {| isProcessing := b; statusText := statusText s; selected := selected s |}.

Definition setStatusText (t : string) (s : State) : State :=
  {| isProcessing := isProcessing s; statusText := t; selected := selected s |}.

Definition setFile (f : option File) (s : State) : State :=
  {| isProcessing := isProcessing s; statusText := statusText s; selected := f |}.

(** [typeof content === "string" ? content : content[0].text], as the
    argument [JSON.parse] converts to a string: reading [text] off a
    missing first element throws; a missing [text] is [undefined]. *)
Definition feedbackText (answer : AIResponse) : result wstring :=
  match message_content answer with
  | AnswerString s => Ok s
  | AnswerParts [] =>
      Rejected (JsError "TypeError" "Cannot read properties of undefined (reading 'text')")
  | AnswerParts (part :: _) =>
      match part_text part with
      | Some t => Ok t
      | None => Ok (wide "undefined")
      end
  end.

Section Pipeline.

(** [prepareInstructions({ jobTitle, jobDescription })], from the
    constants file, which is not among the sources. *)
Variable prepareInstructions : string -> string -> string.

Definition handleAnalyze (companyName jobTitle jobDescription : string) (file : File)
  : prog State app_call unit :=
  modify (setIsProcessing true) ;;
  (* 1. Upload original PDF *)
  modify (setStatusText "Uploading the file...") ;;
  uploadedFile <- await (facade (Fs_upload (UploadFiles [file]))) ;;
  match uploadedFile with
  | None => modify (setStatusText "Error: Failed to upload file")
  | Some uploadedFile =>
  (* 2. Convert to image *)
  modify (setStatusText "Converting to image...") ;;
  imageFile <- await (convert file) ;;
  match Pdf2Img.file imageFile with
  | None => modify (setStatusText "Error: Failed to convert PDF to image")
  | Some image =>
  (* 3. Upload the PNG preview *)
  modify (setStatusText "Uploading the image...") ;;
  uploadedImage <- await (facade (Fs_upload (UploadFiles [image]))) ;;
  match uploadedImage with
  | None => modify (setStatusText "Error: Failed to upload image")
  | Some uploadedImage =>
  (* 4. Create a basic Resume record in KV (no feedback yet) *)
  modify (setStatusText "Preparing data...") ;;
  uuid <- await generateUUID ;;
  let data :=
    {| id := wide uuid;
       resumePath := wide (fs_path uploadedFile);
       imagePath := wide (fs_path uploadedImage);
       companyName := wide companyName;
       jobTitle := wide jobTitle;
       jobDescription := wide jobDescription;
       feedback := JStr [] |} in
  _ <- await (facade (Kv_set ("resume:" ++ uuid) (stringify (to_json data)))) ;;
  (* 5. Run AI feedback on the uploaded resume *)
  modify (setStatusText "Analyzing...") ;;
  answer <- await (facade (Ai_feedback (fs_path uploadedFile)
                                       (prepareInstructions jobTitle jobDescription))) ;;
  match answer with
  | None => modify (setStatusText "Error: Failed to analyze resume")
  | Some answer =>
  (* 6. Parse AI JSON feedback (string or array-based content) *)
  text <- from_result (feedbackText answer) ;;
  parsed <- from_result (JSON_parse text) ;;
  let data := with_feedback parsed data in
  _ <- await (facade (Kv_set ("resume:" ++ uuid) (stringify (to_json data)))) ;;
  (* 7. Redirect to the resume details page *)
  modify (setStatusText "Analysis complete, redirecting...") ;;
  await (navigate ("/resume/" ++ uuid))
  end end end end.

(** [handleSubmit], after the form has been read: nothing happens without
    a selected file. *)
Definition handleSubmit (companyName jobTitle jobDescription : string)
  : prog State app_call unit :=
  s <- get ;;
  match selected s with
  | None => Ret tt
  | Some file => handleAnalyze companyName jobTitle jobDescription file
  end.

End Pipeline.

End Upload.

(** *** [app/routes/home.tsx] *)

Module Home.
Import Js Async Json Puter App.
Local Open Scope prog_scope.

Record State : Type := {
  resumes : list json;
  loadingResumes : bool
}.

Definition setResumes (l : list json) (s : State) : State :=
  {| resumes := l; loadingResumes := loadingResumes s |}.

Definition setLoadingResumes (b : bool) (s : State) : State :=
  {| resumes := resumes s; loadingResumes := b |}.

(** [items.map((resume) => JSON.parse(resume.value))]: the first value
    that does not parse throws. *)
Fixpoint parse_values (values : list wstring) : option (list json) :=
  match values with
  | [] => Some []
  | v :: rest =>
      match Json.parse v, parse_values rest with
      | Some j, Some js => Some (j :: js)
      | _, _ => None
      end
  end.

(** The [value] property of each element of the listing, read as a
    [KVItem]; a bare key has none. *)
Definition values_of (l : KVList) : list wstring :=
  match l with
  | KVItems items => map kv_value items
  | KVKeys keys => map (fun _ => wide "undefined") keys
  end.

(** The keys [loadResumes] asks for. *)
Definition listing_pattern : string := "resume:*".

Definition loadResumes : prog State app_call unit :=
  modify (setLoadingResumes true) ;;
  listing <- await (facade (Kv_list listing_pattern (Some true))) ;;
  match listing with
  | None => modify (setResumes []) ;; modify (setLoadingResumes false)
  | Some l =>
      match parse_values (values_of l) with
      | Some parsedResumes =>
          modify (setResumes parsedResumes) ;; modify (setLoadingResumes false)
      | None => Throw (JsError "SyntaxError" "Unexpected token in JSON")
      end
  end.

End Home.

(* ===================================================================== *)
(** ** The application over a runtime                                     *)
(* ===================================================================== *)

Module Stack.
Import Js Async Puter Pdf2Img App.

(** Everything outside a route component: the Puter store, the variables
    of the converter module, and the runtime [B] under both. *)
Record World (B : Type) : Type := {
  puter_store : PuterStore;
  converter : Pdf2Img.State;
  location : option string;       (* where [navigate] last went *)
  runtime : B
}.

Section Handler.
Variable B : Type.
Variable on_puter : handler puter_call B.
Variable on_pdf : handler pdf_call B.
Variable randomUUID : B -> string * B.

(** A route's calls, answered by the code of the store and the converter
    run against the runtime. *)
Definition app_handler : handler app_call (World B) :=
  fun X c w =>
    match c in app_call X return result X * World B with
    | facade op =>
        let out := run on_puter (perform op) (puter_store w) (runtime w) in
        (returned out,
         {| puter_store := final out; converter := converter w;
            location := location w; runtime := world out |})
    | convert f =>
        let out := run on_pdf (convertPdfToImage f) (converter w) (runtime w) in
        (returned out,
         {| puter_store := puter_store w; converter := final out;
            location := location w; runtime := world out |})
    | generateUUID =>
        let (u, b) := randomUUID (runtime w) in
        (Ok u,
         {| puter_store := puter_store w; converter := converter w;
            location := location w; runtime := b |})
    | navigate to =>
        (Ok tt,
         {| puter_store := puter_store w; converter := converter w;
            location := Some to; runtime := runtime w |})
    end.

End Handler.

End Stack.

(** *** A runtime to run the application against *)

Module Runtime.
Import Js Async Puter Pdf2Img.

(** A small stand-in for the browser and the Puter service: whether the
    Puter script is loaded, whether the service is failing, who is signed
    in, the stored keys, what the AI answers, and the identifiers still to
    be handed out. *)
Record Browser : Type := {
  puter_loaded : bool;
  service_down : bool;
  account : option PuterUser;
  kv : PuterKv.store;
  ai_answer : ResponseContent;
  uuids : list string
}.

Definition with_kv (st : PuterKv.store) (b : Browser) : Browser :=
  {| puter_loaded := puter_loaded b; service_down := service_down b;
     account := account b; kv := st; ai_answer := ai_answer b; uuids := uuids b |}.

Definition with_account (a : option PuterUser) (b : Browser) : Browser :=
  {| puter_loaded := puter_loaded b; service_down := service_down b;
     account := a; kv := kv b; ai_answer := ai_answer b; uuids := uuids b |}.

Definition network_error : exn := JsError "Error" "Network error".

Definition first_name (files : Uploads) : string :=
  match files with
  | UploadFiles (f :: _) => file_name f
  | _ => "blob"
  end.

Definition lookup_kv (key : string) (st : PuterKv.store) : option wstring :=
  option_map snd (find (fun kv => String.eqb key (fst kv)) st).

Definition on_puter : handler puter_call Browser :=
  fun X c b =>
    match c in puter_call X return result X * Browser with
    | window_puter => (Ok (puter_loaded b), b)
    | puter_auth_getUser =>
        match service_down b, account b with
        | false, Some u => (Ok u, b)
        | false, None => (Rejected (JsError "Error" "Not signed in"), b)
        | true, _ => (Rejected network_error, b)
        end
    | puter_auth_isSignedIn =>
        if service_down b then (Rejected network_error, b)
        else (Ok (match account b with Some _ => true | None => false end), b)
    | puter_auth_signIn =>
        if service_down b then (Rejected network_error, b) else (Ok tt, b)
    | puter_auth_signOut =>
        if service_down b then (Rejected network_error, b)
        else (Ok tt, with_account None b)
    | puter_fs_write path data =>
        if service_down b then (Rejected network_error, b)
        else (Ok (Some {| file_name := path; file_type := ""; file_bytes := "" |}), b)
    | puter_fs_read path =>
        if service_down b then (Rejected network_error, b)
        else (Ok {| blob_type := ""; blob_bytes := "" |}, b)
    | puter_fs_upload files =>
        if service_down b then (Rejected network_error, b)
        else (Ok {| fs_id := first_name files;
                    fs_name := first_name files;
                    fs_path := "/uploads/" ++ first_name files |}, b)
    | puter_fs_delete path =>
        if service_down b then (Rejected network_error, b) else (Ok tt, b)
    | puter_fs_readdir path =>
        if service_down b then (Rejected network_error, b) else (Ok (Some []), b)
    | puter_ai_chat _ _ _ _ =>
        if service_down b then (Rejected network_error, b)
        else (Ok (Some {| message_content := ai_answer b |}), b)
    | puter_ai_img2txt _ _ =>
        if service_down b then (Rejected network_error, b) else (Ok "", b)
    | puter_kv_get key =>
        if service_down b then (Rejected network_error, b)
        else (Ok (lookup_kv key (kv b)), b)
    | puter_kv_set key value =>
        if service_down b then (Rejected network_error, b)
        else (Ok true, with_kv (PuterKv.set key value (kv b)) b)
    | puter_kv_delete key =>
        if service_down b then (Rejected network_error, b)
        else (Ok true,
              with_kv (filter (fun kv => negb (String.eqb key (fst kv))) (kv b)) b)
    | puter_kv_list pattern returnValues =>
        if service_down b then (Rejected network_error, b)
        else if returnValues
        then (Ok (KVItems (PuterKv.list pattern (kv b))), b)
        else (Ok (KVKeys (map kv_key (PuterKv.list pattern (kv b)))), b)
    | puter_kv_flush =>
        if service_down b then (Rejected network_error, b)
        else (Ok true, with_kv [] b)
    end.

(** PDF.js and the canvas: a file whose bytes start with [%PDF] renders. *)
Definition on_pdf : handler pdf_call Browser :=
  fun X c b =>
    match c in pdf_call X return result X * Browser with
    | import_pdfjs => (Ok (PromiseId 0), b)
    | settle _ => (Ok {| module_id := 0; workerSrc := None |}, b)
    | file_arrayBuffer f => (Ok (file_bytes f), b)
    | getDocument _ data =>
        if String.prefix "%PDF" data then (Ok (DocumentId 0), b)
        else (Rejected (JsError "InvalidPDFException" "Invalid PDF structure."), b)
    | getPage _ n => (Ok (PageId n), b)
    | getViewport _ scale =>
        (Ok {| width := 612 * Z.of_nat scale; height := 792 * Z.of_nat scale |}, b)
    | createCanvas => (Ok (CanvasId 0), b)
    | getContext2d _ => (Ok (Some (ContextId 0)), b)
    | canvas_resize _ _ _ => (Ok tt, b)
    | context_smoothing _ _ => (Ok tt, b)
    | page_render _ _ _ => (Ok tt, b)
    | canvas_toBlob _ type _ => (Ok (Some {| blob_type := type; blob_bytes := "PNG" |}), b)
    | URL_createObjectURL _ =>
        (Ok {| blob_url_id := "http://localhost:5173/0b9d3c6e" |}, b)
    end.

Definition randomUUID (b : Browser) : string * Browser :=
  match uuids b with
  | u :: rest =>
      (u, {| puter_loaded := puter_loaded b; service_down := service_down b;
             account := account b; kv := kv b; ai_answer := ai_answer b;
             uuids := rest |})
  | [] => ("00000000-0000-4000-8000-000000000000", b)
  end.

Definition app : handler App.app_call (Stack.World Browser) :=
  Stack.app_handler on_puter on_pdf randomUUID.

(** A stand-in for [prepareInstructions] of the constants file. *)
Definition prepareInstructions (jobTitle jobDescription : string) : string :=
  "Rate this resume for the job " ++ jobTitle ++ ": " ++ jobDescription.

End Runtime.

(** *** A session *)

Module Session.
Import Js Async Json Puter Types Runtime.

Definition alice : PuterUser :=
  {| uuid := "7b0c1f0e-5d1c-4c1b-9a59-3f2a8c1d2e4f"; username := "alice" |}.

Definition cv : File :=
  {| file_name := "resume.pdf"; file_type := "application/pdf";
     file_bytes := "%PDF-1.7 two pages" |}.

(** A PDF saved without an extension. *)
Definition scan : File :=
  {| file_name := "scan"; file_type := "application/pdf";
     file_bytes := "%PDF-1.4 one page" |}.

Definition category (n : Z) : Category :=
  {| score := Number.of_Z n;
     tips := [ {| tip_type := wide "good"; tip := Some (wide "Clear layout");
                  explanation := Some (wide "Sections are easy to scan.") |};
               {| tip_type := wide "improve"; tip := Some (wide "Quantify results");
                  explanation := None |} ] |}.

(** A critique as the instructions ask for it. *)
Definition critique : Feedback :=
  {| overallScore := Number.of_Z 72; ATS := category 80; toneAndStyle := category 65;
     content := category 70; structure := category 75; skills := category 68 |}.

(** A critique whose scores leave the scale. *)
Definition wild_critique : Feedback :=
  {| overallScore := Number.of_Z 150; ATS := category (-5); toneAndStyle := category 65;
     content := category 70; structure := category 75; skills := category 68 |}.

(** The Puter script is loaded, [alice] holds a session, nothing is stored
    yet, and the AI answers with the text of [answer]. *)
Definition browser (answer : Feedback) : Browser :=
  {| puter_loaded := true;
     service_down := false;
     account := Some alice;
     kv := [];
     ai_answer := AnswerString (stringify (feedback_json answer));
     uuids := ["3e9f6a52-0c4b-4e0e-8d57-1b2a9c7d4f10"] |}.

(** The same with the Puter script missing. *)
Definition browser_without_puter : Browser :=
  {| puter_loaded := false;
     service_down := false;
     account := Some alice;
     kv := [];
     ai_answer := AnswerString [];
     uuids := [] |}.

(** The same with the service rejecting every request. *)
Definition browser_offline : Browser :=
  {| puter_loaded := true;
     service_down := true;
     account := Some alice;
     kv := [];
     ai_answer := AnswerString [];
     uuids := [] |}.

(** The application as it starts over a browser. *)
Definition start (b : Browser) : Stack.World Browser :=
  {| Stack.puter_store := initial_store;
     Stack.converter := Pdf2Img.initial_state;
     Stack.location := None;
     Stack.runtime := b |}.

(** The upload form with [cv] selected. *)
Definition form : Upload.State :=
  {| Upload.isProcessing := false; Upload.statusText := ""; Upload.selected := Some cv |}.

(** A record as the pipeline leaves it, critique included. *)
Definition record : Resume :=
  {| id := wide "3e9f6a52-0c4b-4e0e-8d57-1b2a9c7d4f10";
     resumePath := wide "/uploads/resume.pdf";
     imagePath := wide "/uploads/resume.png";
     companyName := wide "ACME";
     jobTitle := wide "Engineer";
     jobDescription := wide "Build things";
     feedback := feedback_json critique |}.

(** The store once [alice] has been recognised. *)
Definition store_of_alice : PuterStore := signed_in alice initial_store.

(** Scenario 2 of the spec: job title "Engineer", job description
    "Build things", a valid PDF. *)
Definition analysis (b : Browser)
  : run_result Upload.State App.app_call (Stack.World Browser) unit :=
  run app
      (Upload.handleAnalyze prepareInstructions "ACME" "Engineer" "Build things" cv)
      form (start b).

End Session.

(* ===================================================================== *)
(** ** Reading traces and state updates                                   *)
(* ===================================================================== *)

Module Traces.
Import Js Async.

Section Traces.
Variable S : Type.
Variable E : Type -> Type.

(** The call of a recorded event, without its answer. *)
Definition request_of (e : event E) : request E :=
  match e with
  | Event c _ => Request c
  end.

(** Was the recorded call fulfilled? *)
Definition fulfilled (e : event E) : bool :=
  match e with
  | Event _ (Ok _) => true
  | Event _ (Rejected _) => false
  end.

(** Every state update the program can perform keeps the property [P]. *)
Fixpoint keeps {A : Type} (P : S -> Prop) (p : prog S E A) : Prop :=
  match p with
  | Ret _ => True
  | Throw _ => True
  | Get k => forall s, keeps P (k s)
  | Modify f k => (forall s, P s -> P (f s)) /\ keeps P k
  | Call _ k => forall r, keeps P (k r)
  end.

End Traces.

Arguments request_of {E} e.
Arguments fulfilled {E} e.

End Traces.

(* ===================================================================== *)
(** ** The store as its users see it ([app/lib/puter.ts])                 *)
(* ===================================================================== *)

Module Store.
Import Js Async Puter.
Local Open Scope prog_scope.

(** [auth.getUser()] called on a store: the closure it holds either reads
    the store or returns the user it was installed with. *)
Definition call_getUser (s : PuterStore) : option PuterUser :=
  match getUser (auth s) with
  | GetUserFromStore => user (auth s)
  | GetUserConst u => u
  end.

(** Everything that runs code of the store: what the object [create]
    returns exposes, and the two timer callbacks [init] arms. *)
Inductive operation : Type :=
| Auth_signIn
| Auth_signOut
| Auth_refreshUser
| Auth_checkAuthStatus
| Init
| Init_poll
| Init_timeout
| ClearError
| Facade (X : Type) (op : facade_op X).
Arguments Facade {X} op.

Definition program (o : operation) : M unit :=
  match o with
  | Auth_signIn => signIn
  | Auth_signOut => signOut
  | Auth_refreshUser => refreshUser
  | Auth_checkAuthStatus => _ <- checkAuthStatus ;; Ret tt
  | Init => _ <- init ;; Ret tt
  | Init_poll => _ <- init_poll ;; Ret tt
  | Init_timeout => init_timeout
  | ClearError => clearError
  | Facade op => _ <- perform op ;; Ret tt
  end.

(** The operations under [fs], [ai] and [kv]. *)
Definition is_facade_operation (o : operation) : bool :=
  match o with
  | Facade _ => true
  | _ => false
  end.

(** The operations that write [puterReady]. *)
Definition is_init_operation (o : operation) : bool :=
  match o with
  | Init | Init_poll => true
  | _ => false
  end.

(** Operations run one after the other, each to its end, against the same
    runtime. *)
Fixpoint perform_all {W : Type} (h : handler puter_call W) (ops : list operation)
    (s : PuterStore) (w : W) : PuterStore * W :=
  match ops with
  | [] => (s, w)
  | o :: rest =>
      let out := run h (program o) s w in
      perform_all h rest (final out) (world out)
  end.

(** The authenticated flag says whether there is a user, and while it is
    set [auth.getUser()] returns that user. *)
Definition auth_consistent (s : PuterStore) : Prop :=
  (isAuthenticated (auth s) = true <-> user (auth s) <> None) /\
  (isAuthenticated (auth s) = true -> call_getUser s = user (auth s)).

(** The look for the runtime object never throws: [getPuter] only tests
    [typeof window] and [window.puter]. *)
Definition lookup_answers {W : Type} (h : handler puter_call W) : Prop :=
  forall w : W, exists (present : bool) (w' : W),
    h bool window_puter w = (Ok present, w').

Definition is_getUser_call (e : event puter_call) : bool :=
  match e with
  | Event puter_auth_getUser _ => true
  | Event _ _ => false
  end.

Definition is_isSignedIn_call (e : event puter_call) : bool :=
  match e with
  | Event puter_auth_isSignedIn _ => true
  | Event _ _ => false
  end.

End Store.

(** *** [init] and its timers *)

Module Boot.
Import Js Async Puter.

(** The interval (every 100 ms) and the timeout (after 10 s) that [init]
    arms when the runtime is not there yet; [true] while armed. *)
Record Timers : Type := { interval : bool; timeout : bool }.

Inductive timer_event : Type :=
| IntervalFires
| TimeoutFires.

Record Page (W : Type) : Type := {
  store : PuterStore;
  timers : Timers;
  outside : W;
  calls : list (event puter_call)      (* every call made so far, in order *)
}.

(** [init()] called on a store. *)
Definition boot {W : Type} (h : handler puter_call W) (s : PuterStore) (w : W) : Page W :=
  let out := run h init s w in
  {| store := final out;
     timers := match returned out with
               | Ok false => {| interval := true; timeout := true |}
               | _ => {| interval := false; timeout := false |}
               end;
     outside := world out;
     calls := trace out |}.

(** A timer coming due.  The interval callback clears the interval when it
    finds the runtime; the timeout callback clears the interval first and
    runs once. *)
Definition fire {W : Type} (h : handler puter_call W) (p : Page W) (t : timer_event)
  : Page W :=
  match t with
  | IntervalFires =>
      if interval (timers p) then
        let out := run h init_poll (store p) (outside p) in
        {| store := final out;
           timers := {| interval := match returned out with
                                    | Ok true => false
                                    | _ => true
                                    end;
                        timeout := timeout (timers p) |};
           outside := world out;
           calls := (calls p ++ trace out)%list |}
      else p
  | TimeoutFires =>
      if timeout (timers p) then
        let out := run h init_timeout (store p) (outside p) in
        {| store := final out;
           timers := {| interval := false; timeout := false |};
           outside := world out;
           calls := (calls p ++ trace out)%list |}
      else p
  end.

Definition after {W : Type} (h : handler puter_call W) (events : list timer_event)
    (p : Page W) : Page W :=
  fold_left (fire h) events p.

(** While the poll is armed no auth check has been started (none has
    asked the runtime whether the user is signed in), the store is as
    ready as [init] found it and the timeout is still to come; and at
    most one auth check is ever started. *)
Definition polling {W : Type} (s : PuterStore) (p : Page W) : Prop :=
  List.length (filter Store.is_isSignedIn_call (calls p)) <= 1 /\
  (interval (timers p) = true ->
   filter Store.is_isSignedIn_call (calls p) = [] /\
   puterReady (store p) = puterReady s /\
   timeout (timers p) = true).

End Boot.

(* ===================================================================== *)
(** ** Reading a converter run ([app/lib/pdf2img.ts])                     *)
(* ===================================================================== *)

Module Converter.
Import Js Async Pdf2Img.

Definition is_import (e : event pdf_call) : bool :=
  match e with
  | Event import_pdfjs _ => true
  | Event _ _ => false
  end.

(** Awaiting the load promise. *)
Definition is_settle (e : event pdf_call) : bool :=
  match e with
  | Event (settle _) _ => true
  | Event _ _ => false
  end.

Definition is_toBlob (e : event pdf_call) : bool :=
  match e with
  | Event (canvas_toBlob _ _ _) _ => true
  | Event _ _ => false
  end.

(** The module object a document was opened with. *)
Definition opened_with (e : event pdf_call) : option PdfJs :=
  match e with
  | Event (getDocument lib _) _ => Some lib
  | Event _ _ => None
  end.

(** [lib.GlobalWorkerOptions.workerSrc] is the worker file of the public
    assets. *)
Definition worker_set (lib : PdfJs) : Prop :=
  workerSrc lib = Some "/pdf.worker.min.mjs".

(** The cached module, when there is one, has its worker set. *)
Definition configured (st : State) : Prop :=
  forall lib, pdfjsLib st = Some lib -> worker_set lib.

(** The result returned when a step inside the [try] fails with [err]. *)
Definition failure (err : exn) : PdfConversionResult :=
  {| imageUrl := ""; file := None;
     error := Some ("Failed to convert PDF: " ++ to_string err) |}.

End Converter.

(* ===================================================================== *)
(** ** The other routes and components                                    *)
(* ===================================================================== *)

(** *** [app/components/FileUploader.tsx] and the upload form *)

Module UploadForm.
Import Js Async App Upload.
Local Open Scope prog_scope.

(** [handleFileSelect], the callback the upload route gives the uploader. *)
Definition handleFileSelect (file : option File) : prog State app_call unit :=
  modify (setFile file).

(** [onDrop]: [acceptedFile[0] || null] goes to the callback. *)
Definition onDrop (acceptedFile : list File) : prog State app_call unit :=
  handleFileSelect (hd_error acceptedFile).

(** The button that removes the selected file. *)
Definition onRemove : prog State app_call unit :=
  handleFileSelect None.

(** What the uploader can do to the selection, and a session of such
    events handled in order. *)
Inductive uploader_event : Type :=
| Dropped (acceptedFile : list File)
| Removed.

Definition on_event (e : uploader_event) : prog State app_call unit :=
  match e with
  | Dropped acceptedFile => onDrop acceptedFile
  | Removed => onRemove
  end.

Fixpoint uploads (events : list uploader_event) : prog State app_call unit :=
  match events with
  | [] => Ret tt
  | e :: rest => on_event e ;; uploads rest
  end.

(** The file an event leaves selected. *)
Definition chosen (e : uploader_event) : option File :=
  match e with
  | Dropped acceptedFile => hd_error acceptedFile
  | Removed => None
  end.

Definition is_navigation (e : event app_call) : bool :=
  match e with
  | Event (navigate _) _ => true
  | Event _ _ => false
  end.

(** What [ai.feedback] answered, for each time it was called. *)
Definition ai_answer (e : event app_call) : option (result (option Puter.AIResponse)) :=
  match e with
  | Event c r =>
      match c in app_call X return result X -> option (result (option Puter.AIResponse)) with
      | facade op =>
          match op in Puter.facade_op X
                return result X -> option (result (option Puter.AIResponse)) with
          | Puter.Ai_feedback _ _ => fun r => Some r
          | _ => fun _ => None
          end
      | _ => fun _ => None
      end r
  end.

Fixpoint ai_answers (t : list (event app_call))
  : list (result (option Puter.AIResponse)) :=
  match t with
  | [] => []
  | e :: t' =>
      match ai_answer e with
      | Some r => r :: ai_answers t'
      | None => ai_answers t'
      end
  end.

(** The identifiers [generateUUID] handed out. *)
Fixpoint uuids (t : list (event app_call)) : list string :=
  match t with
  | [] => []
  | Event generateUUID (Ok u) :: t' => u :: uuids t'
  | _ :: t' => uuids t'
  end.

End UploadForm.

(** *** [app/routes/wipe.tsx] *)

Module Wipe.
Import Js Async Puter App.
Local Open Scope prog_scope.

Record State : Type := { files : list FSItem }.

Definition setFiles (l : list FSItem) (s : State) : State := {| files := l |}.

(** [loadFiles]: [setFiles(files || [])] *)
Definition loadFiles : prog State app_call unit :=
  listed <- await (facade (Fs_readDir "./")) ;;
  modify (setFiles match listed with
                   | Some l => l
                   | None => []
                   end).

(** [for (const file of files) await fs.delete(file.path)] *)
Fixpoint delete_each (l : list FSItem) : prog State app_call unit :=
  match l with
  | [] => Ret tt
  | file :: rest => await (facade (Fs_delete (fs_path file))) ;; delete_each rest
  end.

Definition handleDelete : prog State app_call unit :=
  s <- get ;;
  delete_each (files s) ;;
  _ <- await (facade Kv_flush) ;;
  loadFiles.

(** What the page renders: [<div>Loading...</div>], [<p>Error: {error}</p>]
    or the user's name above the names of the listed files (with
    "No files found in ./" in their place when there are none). *)
Inductive view : Type :=
| Loading
| ErrorView (message : string)
| Listing (username : option string) (names : list string).

(** The body of [WipeApp] after its hooks: [if (isLoading) ...; if (error)
    ...; return ...].  The empty string is falsy. *)
Definition render (store : PuterStore) (s : State) : view :=
  if isLoading store then Loading
  else match error store with
       | Some (String _ _ as message) => ErrorView message
       | _ => Listing (option_map username (user (auth store)))
                      (map fs_name (files s))
       end.

(** The calls a wipe of [l] is made of, in order. *)
Definition wipe_requests (l : list FSItem) : list (request app_call) :=
  (map (fun file => Request (facade (Fs_delete (fs_path file)))) l
     ++ [Request (facade Kv_flush); Request (facade (Fs_readDir "./"))])%list.

End Wipe.

(** *** [app/routes/resume.tsx] *)

Module Review.
Import Js Async Json.
Local Open Scope prog_scope.

Record State : Type := {
  imageUrl : string;
  resumeUrl : string;
  feedback : option json          (* [null] until it is set *)
}.

Definition initial_state : State :=
  {| imageUrl := ""; resumeUrl := ""; feedback := None |}.

Definition setImageUrl (u : string) (s : State) : State :=
  {| imageUrl := u; resumeUrl := resumeUrl s; feedback := feedback s |}.

Definition setResumeUrl (u : string) (s : State) : State :=
  {| imageUrl := imageUrl s; resumeUrl := u; feedback := feedback s |}.

Definition setFeedback (fb : option json) (s : State) : State :=
  {| imageUrl := imageUrl s; resumeUrl := resumeUrl s; feedback := fb |}.

(** What [loadResume] calls.  The path given to [fs.read] is whatever the
    parsed record holds under the name, a string or not. *)
Inductive review_call : Type -> Type :=
| kv_get (key : string) : review_call (option (option wstring))
| fs_read (path : option json) : review_call (option Blob)
| URL_createObjectURL (b : Blob) : review_call Pdf2Img.BlobUrl.

(** [data.name] for one of the names read here ([resumePath], [imagePath],
    [feedback]), which no string, number, boolean or array has: reading
    off [null] throws, and what is not there is [undefined]. *)
Definition property (name : string) (data : json) : result (option json) :=
  match data with
  | JNull =>
      Rejected (JsError "TypeError"
                  ("Cannot read properties of null (reading '" ++ name ++ "')"))
  | _ => Ok (field name data)
  end.

(** [new Blob([b], { type })] *)
Definition new_Blob (b : Blob) (type : string) : Blob :=
  {| blob_type := type; blob_bytes := blob_bytes b |}.

(** [loadResume] once the stored text is in hand. *)
Definition showRecord (text : wstring) : prog State review_call unit :=
  data <- from_result (App.JSON_parse text) ;;
  (* Load PDF file and create a URL for opening in a new tab *)
  resumePath <- from_result (property "resumePath" data) ;;
  resumeBlob <- await (fs_read resumePath) ;;
  match resumeBlob with
  | None => Ret tt
  | Some resumeBlob =>
      let pdfBlob := new_Blob resumeBlob "application/pdf" in
      url <- await (URL_createObjectURL pdfBlob) ;;
      modify (setResumeUrl (Pdf2Img.blob_url url)) ;;
      (* Load preview image *)
      imagePath <- from_result (property "imagePath" data) ;;
      imageBlob <- await (fs_read imagePath) ;;
      match imageBlob with
      | None => Ret tt
      | Some imageBlob =>
          url <- await (URL_createObjectURL imageBlob) ;;
          modify (setImageUrl (Pdf2Img.blob_url url)) ;;
          fb <- from_result (property "feedback" data) ;;
          modify (setFeedback fb)
      end
  end.

(** [if (!resume) return]: [undefined], [null] and the empty string. *)
Definition loadResume (id : string) : prog State review_call unit :=
  resume <- await (kv_get ("resume:" ++ id)) ;;
  match resume with
  | None => Ret tt
  | Some None => Ret tt
  | Some (Some []) => Ret tt
  | Some (Some ((_ :: _) as text)) => showRecord text
  end.

Definition is_url_call (e : event review_call) : bool :=
  match e with
  | Event (URL_createObjectURL _) _ => true
  | Event _ _ => false
  end.

End Review.

(** *** The redirects: the guards of the routes and [app/routes/auth.tsx] *)

Module AuthRoute.
Import Js Puter.

(** The first occurrence of [sep] in [s]: what is before it and what is
    after it. *)
Fixpoint cut (sep s : string) : option (string * string) :=
  match strip_prefix sep s with
  | Some rest => Some (EmptyString, rest)
  | None =>
      match s with
      | EmptyString => None
      | String c s' => option_map (fun p => (String c (fst p), snd p)) (cut sep s')
      end
  end.

(** [s.split(sep)[1]] for a separator that is not empty: what lies between
    the first occurrence of [sep] and the next one (or the end);
    [undefined] when [sep] does not occur. *)
Definition split_1 (sep s : string) : option string :=
  match cut sep s with
  | None => None
  | Some (_, rest) =>
      Some match cut sep rest with
           | Some (segment, _) => segment
           | None => rest
           end
  end.

(** [location.search.split("next=")[1]] *)
Definition next (search : string) : option string := split_1 "next=" search.

(** The effect of the auth page: [if (auth.isAuthenticated) navigate(next)];
    the inner [None] is [navigate(undefined)]. *)
Definition auth_redirect (search : string) (s : PuterStore) : option (option string) :=
  if isAuthenticated (auth s) then Some (next search) else None.

(** The guards of the home, review and wipe pages: where they send a
    visitor, if anywhere. *)
Definition home_guard (s : PuterStore) : option string :=
  if negb (isAuthenticated (auth s)) then Some "/auth?next=/" else None.

Definition resume_guard (id : string) (s : PuterStore) : option string :=
  if negb (isLoading s) && negb (isAuthenticated (auth s))
  then Some ("/auth?next=/resume/" ++ id)
  else None.

Definition wipe_guard (s : PuterStore) : option string :=
  if negb (isLoading s) && negb (isAuthenticated (auth s))
  then Some "/auth?next=/wipe"
  else None.

(** [sep] occurs in [s]. *)
Definition occurs (sep s : string) : Prop :=
  exists a b : string, s = a ++ sep ++ b.

(** [s.substring(0, s.indexOf(sep))] when [sep] occurs in [s], else [s]. *)
Definition before (sep s : string) : string :=
  match cut sep s with
  | Some (head, _) => head
  | None => s
  end.

(** The characters a URL never escapes and never reads as a delimiter:
    letters, digits, "-", ".", "_" and "~". *)
Definition unreserved (c : ascii) : bool :=
  let n := nat_of_ascii c in
  (Nat.leb 65 n && Nat.leb n 90) || (Nat.leb 97 n && Nat.leb n 122)
  || (Nat.leb 48 n && Nat.leb n 57)
  || Nat.eqb n 45 || Nat.eqb n 46 || Nat.eqb n 95 || Nat.eqb n 126.

Fixpoint all_unreserved (s : string) : bool :=
  match s with
  | EmptyString => true
  | String c rest => unreserved c && all_unreserved rest
  end.

(** [location.search] once [navigate(to)] has been followed.  The router
    splits the target as its [parsePath] does: the hash is what starts at
    the first "#", the search what starts at the first "?" of the rest, and
    the path is what remains; a target without "?" has the empty search.
    (The browser's URL then escapes some characters of the search, among
    them the space and the quotes; it leaves "/", "=" and the unreserved
    characters as they are, and the theorems about this function are
    stated for targets made of those.) *)
Definition location_search (to : string) : string :=
  match cut "?" (before "#" to) with
  | Some (_, rest) => "?" ++ rest
  | None => ""
  end.

End AuthRoute.

(** *** [app/components/Accordion.tsx] *)

Module Accordion.

(** [activeItems.includes(id)] *)
Definition includes (id : string) (items : list string) : bool :=
  existsb (String.eqb id) items.

(** [useState(defaultOpen ? [defaultOpen] : [])]: the empty string is
    falsy. *)
Definition initial (defaultOpen : option string) : list string :=
  match defaultOpen with
  | None => []
  | Some EmptyString => []
  | Some d => [d]
  end.

(** The state update of [toggleItem(id)]. *)
Definition toggleItem (allowMultiple : bool) (id : string) (prev : list string)
  : list string :=
  if allowMultiple then
    if includes id prev
    then filter (fun item => negb (String.eqb item id)) prev
    else (prev ++ [id])%list
  else
    if includes id prev then [] else [id].

Definition isItemActive (activeItems : list string) (id : string) : bool :=
  includes id activeItems.

(** The state after the headers [ids] have been clicked, in order. *)
Definition clicks (allowMultiple : bool) (ids : list string) (start : list string)
  : list string :=
  fold_left (fun items id => toggleItem allowMultiple id items) ids start.

End Accordion.

(** *** The score badges: [ScoreBadge.tsx], [Summary.tsx], [Details.tsx] *)

Module Scores.

(** [ScoreBadge] of [app/components/ScoreBadge.tsx]: the classes and the
    label, for a whole-number score. *)
Record Badge : Type := { badgeColor : string; badgeText : string }.

Definition ScoreBadge (score : Z) : Badge :=
  if (score >? 70)%Z then
    {| badgeColor := "bg-badge-green text-green-600"; badgeText := "Strong" |}
  else if (score >? 49)%Z then
    {| badgeColor := "bg-badge-yellow text-yellow-600"; badgeText := "Good Start" |}
  else
    {| badgeColor := "bg-badge-red text-red-600"; badgeText := "Needs Work" |}.

(** [textColor] of [Category] in [Summary.tsx]. *)
Definition textColor (score : Z) : string :=
  if (score >? 70)%Z then "text-green-600"
  else if (score >? 49)%Z then "text-yellow-600"
  else "text-red-600".

(** [ScoreBadge] of [Details.tsx]: the class chosen for the pill, the
    icon, and the class chosen for the text. *)
Record Pill : Type := { background : string; icon : string; text : string }.

Definition DetailsBadge (score : Z) : Pill :=
  {| background := if (score >? 69)%Z then "bg-badge-green"
                   else if (score >? 39)%Z then "bg-badge-yellow"
                   else "bg-badge-red";
     icon := if (score >? 69)%Z then "/icons/check.svg" else "/icons/warning.svg";
     text := if (score >? 69)%Z then "text-badge-green-text"
             else if (score >? 39)%Z then "text-badge-yellow-text"
             else "text-badge-red-text" |}.

(** The three bands a badge can show. *)
Inductive band : Type := Green | Yellow | Red.

Definition band_of_class (class : string) : option band :=
  if String.prefix "bg-badge-green" class then Some Green
  else if String.prefix "bg-badge-yellow" class then Some Yellow
  else if String.prefix "bg-badge-red" class then Some Red
  else None.

End Scores.

(** *** The review page over the stand-in runtime *)

Module ReviewRuntime.
Import Js Async Json Puter Runtime.

(** [kv.get] and [fs.read] go through the Puter store; a path that is not
    a string is refused by the service. *)
Definition review : handler Review.review_call (Stack.World Browser) :=
  fun X c w =>
    match c in Review.review_call X return result X * Stack.World Browser with
    | Review.kv_get key => app (App.facade (Kv_get key)) w
    | Review.fs_read (Some (JStr path)) =>
        match narrow path with
        | Some p => app (App.facade (Fs_read p)) w
        | None => (Rejected (JsError "Error" "No such file"), w)
        end
    | Review.fs_read _ => (Rejected (JsError "TypeError" "path must be a string"), w)
    | Review.URL_createObjectURL b =>
        (Ok {| Pdf2Img.blob_url_id :=
                 "http://localhost:5173/" ++ blob_type b |}, w)
    end.

End ReviewRuntime.

(** *** More sessions *)

Module Scenarios.
Import Js Async Json Puter Types Runtime.

(** A file that is not a PDF, whatever its name says. *)
Definition notes : File :=
  {| file_name := "notes.pdf"; file_type := "application/pdf";
     file_bytes := "plain text" |}.

(** The browser of the session with an AI that answers in prose. *)
Definition browser_chatty : Browser :=
  {| puter_loaded := true;
     service_down := false;
     account := Some Session.alice;
     kv := [];
     ai_answer := AnswerString (wide "Sorry, I cannot rate this resume.");
     uuids := ["3e9f6a52-0c4b-4e0e-8d57-1b2a9c7d4f10"] |}.

(** The application over a runtime whose AI call resolves to nothing. *)
Definition silent_ai : handler App.app_call (Stack.World Browser) :=
  fun X c w =>
    match c in App.app_call X
          return result X * Stack.World Browser -> result X * Stack.World Browser with
    | App.facade op =>
        match op in facade_op X
              return result X * Stack.World Browser -> result X * Stack.World Browser with
        | Ai_feedback _ _ => fun _ => (Ok None, w)
        | _ => fun answered => answered
        end
    | _ => fun answered => answered
    end (app c w).

(** A store in which one value is not JSON. *)
Definition browser_corrupt : Browser :=
  {| puter_loaded := true;
     service_down := false;
     account := Some Session.alice;
     kv := [ ("resume:1", serialize Session.record); ("resume:2", wide "{not json") ];
     ai_answer := AnswerString [];
     uuids := [] |}.

(** An answer whose overall score is beyond the greatest number: the
    text [{"overallScore":1e999}], and what it parses to. *)
Definition overflow_answer : wstring :=
  (wide "{" ++ Json.quote (wide "overallScore") ++ wide ":1e999}")%list.

Definition overflow_feedback : json :=
  JObj [(wide "overallScore", JNum (SpecFloat.S754_infinity false))].

(** An answer whose overall score is the negative zero: the text
    [{"overallScore":-0}], and what it parses to. *)
Definition minus_zero_answer : wstring :=
  (wide "{" ++ Json.quote (wide "overallScore") ++ wide ":-0}")%list.

Definition minus_zero_feedback : json :=
  JObj [(wide "overallScore", JNum (SpecFloat.S754_zero true))].

(** The record of the session before the AI has answered. *)
Definition pending : Resume := with_feedback (JStr []) Session.record.


End Scenarios.

(* ===================================================================== *)
(** * Properties                                                          *)
(* ===================================================================== *)

Unset Implicit Arguments.

(** ** Strings *)

Lemma append_nil_r (s : string) : s ++ "" = s.
Proof. induction s as [|c s IH]; simpl; [reflexivity | now rewrite IH]. Qed.

Lemma append_assoc (a b c : string) : (a ++ b) ++ c = a ++ (b ++ c).
Proof. induction a as [|x a IH]; simpl; [reflexivity | now rewrite IH]. Qed.

Lemma length_append (a b : string) :
  String.length (a ++ b) = String.length a + String.length b.
Proof. induction a as [|x a IH]; simpl; [reflexivity | now rewrite IH]. Qed.

(** ** The [.pdf] extension *)

Lemma replace_pdf_ext_unfold (name : string) :
  Js.replace_pdf_ext name =
  if Js.is_pdf_ext name then ""
  else match name with
       | EmptyString => ""
       | String c rest => String c (Js.replace_pdf_ext rest)
       end.
Proof. destruct name; reflexivity. Qed.

Lemma is_pdf_ext_length (s : string) :
  Js.is_pdf_ext s = true -> String.length s = 4.
Proof.
  destruct s as [|a [|b [|c [|d [|e s]]]]]; simpl; try discriminate; reflexivity.
Qed.

Lemma is_pdf_ext_long (c : ascii) (base ext : string) :
  Js.is_pdf_ext ext = true -> Js.is_pdf_ext (String c (base ++ ext)) = false.
Proof.
  intros H. destruct (Js.is_pdf_ext (String c (base ++ ext))) eqn:E; [|reflexivity].
  apply is_pdf_ext_length in E. apply is_pdf_ext_length in H.
  simpl in E. rewrite length_append in E. lia.
Qed.

(** Cutting the extension off [base ++ ext] leaves [base], whatever [base]
    ends in. *)
Lemma replace_pdf_ext_app (base ext : string) :
  Js.is_pdf_ext ext = true -> Js.replace_pdf_ext (base ++ ext) = base.
Proof.
  intros H. induction base as [|c base IH].
  - simpl. rewrite replace_pdf_ext_unfold, H. reflexivity.
  - change (String c base ++ ext) with (String c (base ++ ext)).
    rewrite replace_pdf_ext_unfold, (is_pdf_ext_long c base ext H).
    now rewrite IH.
Qed.

(** A name with no such ending is left alone. *)
Lemma replace_pdf_ext_none (name : string) :
  (forall base ext, name = base ++ ext -> Js.is_pdf_ext ext = false) ->
  Js.replace_pdf_ext name = name.
Proof.
  induction name as [|c name IH]; intros H.
  - reflexivity.
  - rewrite replace_pdf_ext_unfold.
    rewrite (H "" (String c name) eq_refl).
    rewrite IH; [reflexivity|].
    intros base ext E. apply (H (String c base) ext). simpl. now rewrite E.
Qed.


(** ** Numbers: reading back what [Number::toString] prints *)

Section Numbers.
Import Js SpecFloat Number.
Local Open Scope Z_scope.
Local Open Scope list_scope.

Lemma digits2_log2 (m : positive) : Zpos (digits2_pos m) = Z.log2 (Zpos m) + 1.
Proof.
  induction m as [m IH|m IH|]; cbn [digits2_pos].
  - rewrite Pos2Z.inj_succ, IH. 
    change (Z.pos m~1) with (2 * Z.pos m + 1). rewrite Z.log2_succ_double by lia. lia.
  - rewrite Pos2Z.inj_succ, IH.
    change (Z.pos m~0) with (2 * Z.pos m). rewrite Z.log2_double by lia. lia.
  - reflexivity.
Qed.

(** What [valid] says of a mantissa and an exponent. *)
Lemma valid_finite (s : bool) (m : positive) (e : Z) :
  valid (S754_finite s m e) = true <->
  -1074 <= e <= 971 /\ Zpos m < 2 ^ 53 /\ (e = -1074 \/ 2 ^ 52 <= Zpos m).
Proof.
  unfold valid, valid_binary, bounded, canonical_mantissa, fexp, emin.
  rewrite andb_true_iff, Z.eqb_eq, Z.leb_le, digits2_log2.
  pose proof (Z.log2_spec (Zpos m) ltac:(lia)) as [L1 L2].
  pose proof (Z.log2_nonneg (Zpos m)) as L0.
  split.
  - intros [C B]. split; [lia|].
    assert (Z.log2 (Z.pos m) <= 52) as L by lia.
    split.
    + apply Z.lt_le_trans with (1 := L2). apply Z.pow_le_mono_r; lia.
    + destruct (Z.eq_dec e (-1074)) as [|N]; [now left|right].
      assert (Z.log2 (Z.pos m) = 52) as E by lia. rewrite E in L1. exact L1.
  - intros (B & U & C). split; [|lia].
    assert (Z.log2 (Z.pos m) < 53) as L.
    { apply Z.log2_lt_pow2; lia. }
    destruct C as [->|C]; [lia|].
    assert (52 <= Z.log2 (Z.pos m)) by (apply Z.log2_le_pow2; lia). lia.
Qed.

(** A number that is a binary64 value is its own nearest value. *)
Lemma round_exact (s : bool) (m : positive) (e : Z) (p q : Z) :
  valid (S754_finite s m e) = true -> 0 < q ->
  p * 2 ^ Z.max (- e) 0 = q * (Zpos m * 2 ^ Z.max e 0) ->
  round_ratio s p q = S754_finite s m e.
Proof.
  intros V Hq R. apply valid_finite in V. destruct V as (B & U & C).
  assert (p * 2 ^ 1074 = q * (Zpos m * 2 ^ (e + 1074))) as EP.
  { apply Z.mul_reg_r with (p := 2 ^ Z.max (- e) 0); [apply Z.pow_nonzero; lia|].
    replace (p * 2 ^ 1074 * 2 ^ Z.max (- e) 0) with (p * 2 ^ Z.max (- e) 0 * 2 ^ 1074) by ring.
    rewrite R.
    replace (q * (Z.pos m * 2 ^ (e + 1074)) * 2 ^ Z.max (- e) 0)
      with (q * (Z.pos m * (2 ^ (e + 1074) * 2 ^ Z.max (- e) 0))) by ring.
    replace (q * (Z.pos m * 2 ^ Z.max e 0) * 2 ^ 1074)
      with (q * (Z.pos m * (2 ^ Z.max e 0 * 2 ^ 1074))) by ring.
    rewrite <- !Z.pow_add_r by lia. do 3 f_equal. lia. }
  unfold round_ratio. rewrite EP.
  set (X := Zpos m * 2 ^ (e + 1074)).
  assert (q * X / q = X) as -> by (rewrite Z.mul_comm; apply Z.div_mul; lia).
  assert (Z.max (Z.log2 X - 52) 0 = e + 1074) as ->.
  { unfold X. rewrite Z.log2_mul_pow2 by lia.
    assert (Z.log2 (Z.pos m) < 53) as L by (apply Z.log2_lt_pow2; lia).
    destruct C as [->|C]; [pose proof (Z.log2_nonneg (Zpos m)); lia|].
    assert (52 <= Z.log2 (Z.pos m)) by (apply Z.log2_le_pow2; lia). lia. }
  assert (0 < 2 ^ (e + 1074)) as Hpow by (apply Z.pow_pos_nonneg; lia).
  replace (q * X) with (Zpos m * (q * 2 ^ (e + 1074))) by (unfold X; ring).
  rewrite Z.div_mul by nia. rewrite Z.mod_mul by nia.
  assert ((2 * 0 ?= q * 2 ^ (e + 1074)) = Lt) as -> by (apply Z.compare_lt_iff; nia).
  assert ((Z.pos m =? 2 ^ 53) = false) as -> by (apply Z.eqb_neq; lia).
  replace (e + 1074 - 1074) with e by lia.
  assert ((e <=? 971) = true) as -> by (apply Z.leb_le; lia).
  reflexivity.
Qed.

(** The nearest value of a fraction is that of the fraction, whatever its
    numerator and denominator. *)
Lemma round_ratio_scale (s : bool) (c p q : Z) :
  0 < c -> 0 < q -> round_ratio s (c * p) (c * q) = round_ratio s p q.
Proof.
  intros Hc Hq. unfold round_ratio.
  replace (c * p * 2 ^ 1074) with (c * (p * 2 ^ 1074)) by ring.
  set (P := p * 2 ^ 1074).
  rewrite Z.div_mul_cancel_l by lia.
  set (shift := Z.max (Z.log2 (P / q) - 52) 0).
  assert (0 < 2 ^ shift) as Hpow by (apply Z.pow_pos_nonneg; lia).
  replace (c * q * 2 ^ shift) with (c * (q * 2 ^ shift)) by ring.
  rewrite Z.div_mul_cancel_l by nia.
  rewrite Z.mul_mod_distr_l by nia.
  replace (2 * (c * (P mod (q * 2 ^ shift)))) with (c * (2 * (P mod (q * 2 ^ shift)))) by ring.
  rewrite <- Zmult_compare_compat_l by lia. reflexivity.
Qed.


Lemma eqb_eq (x y : number) : eqb x y = true -> x = y.
Proof.
  destruct x as [a|a| |a m e], y as [b|b| |b m' e']; cbn; try discriminate.
  - intros H. apply Bool.eqb_prop in H. now subst.
  - intros H. apply Bool.eqb_prop in H. now subst.
  - reflexivity.
  - rewrite !andb_true_iff, Pos.eqb_eq, Z.eqb_eq. intros [[H ->] ->].
    apply Bool.eqb_prop in H. now subst.
Qed.

Lemma pow10_pos (n : Z) : 0 < 10 ^ Z.max n 0.
Proof. apply Z.pow_pos_nonneg; lia. Qed.

(** Zeros at the end of the digits are as good as a greater exponent. *)
Lemma of_decimal_shift (negative : bool) (s q a : Z) :
  0 <= a -> of_decimal negative (s * 10 ^ a) (q - a) = of_decimal negative s q.
Proof.
  intros Ha. unfold of_decimal.
  assert (0 < 10 ^ a) as Hpa by (apply Z.pow_pos_nonneg; lia).
  destruct (Z.le_gt_cases 0 (q - a)) as [H|H].
  - replace (Z.max (- (q - a)) 0) with 0 by lia. replace (Z.max (- q) 0) with 0 by lia.
    f_equal. replace (Z.max (q - a) 0) with (q - a) by lia.
    replace (Z.max q 0) with (a + (q - a)) by lia.
    rewrite (Z.pow_add_r 10 a) by lia. ring.
  - destruct (Z.le_gt_cases 0 q) as [Hq|Hq].
    + replace (Z.max (q - a) 0) with 0 by lia. replace (Z.max (- q) 0) with 0 by lia.
      replace (Z.max (- (q - a)) 0) with (a - q) by lia. replace (Z.max q 0) with q by lia.
      rewrite Z.pow_0_r, Z.mul_1_r.
      assert (0 < 10 ^ (a - q)) as Hc by (apply Z.pow_pos_nonneg; lia).
      rewrite <- (round_ratio_scale negative (10 ^ (a - q)) (s * 10 ^ q) 1) by lia.
      f_equal; [|ring].
      replace (10 ^ a) with (10 ^ (a - q) * 10 ^ q); [ring|].
      rewrite <- Z.pow_add_r by lia. f_equal. lia.
    + replace (Z.max (q - a) 0) with 0 by lia. replace (Z.max q 0) with 0 by lia.
      replace (Z.max (- (q - a)) 0) with (a + - q) by lia.
      replace (Z.max (- q) 0) with (- q) by lia.
      rewrite Z.pow_0_r, !Z.mul_1_r, Z.pow_add_r by lia.
      rewrite (Z.mul_comm s). apply round_ratio_scale; [lia|].
      apply Z.pow_pos_nonneg; lia.
Qed.

Lemma of_decimal_zero (negative : bool) (q : Z) : of_decimal negative 0 q = S754_zero negative.
Proof.
  unfold of_decimal, round_ratio. rewrite !Z.mul_0_l.
  pose proof (pow10_pos (- q)) as H.
  rewrite Z.div_0_l by lia. cbn [Z.log2 Z.sub Z.opp Z.add Z.max Z.compare].
  change (Z.max (0 - 52) 0) with 0. rewrite Z.pow_0_r, Z.mul_1_r.
  rewrite Z.div_0_l, Z.mod_0_l by lia.
  assert ((2 * 0 ?= 10 ^ Z.max (- q) 0) = Lt) as -> by (apply Z.compare_lt_iff; lia).
  reflexivity.
Qed.

Section Shortest.
Variables (m : positive) (e : Z).
Hypothesis V : valid (S754_finite false m e) = true.

Let num := Zpos m * 2 ^ Z.max e 0.
Let den := 2 ^ Z.max (- e) 0.

(** The decimal expansion of the number, once it has enough digits, is
    read as the number. *)
Lemma exact_expansion (scale : Z) :
  Z.max (- e) 0 <= scale ->
  of_decimal false (num * 10 ^ Z.max scale 0 / (den * 10 ^ Z.max (- scale) 0)) (- scale)
  = S754_finite false m e.
Proof.
  intros H. set (a := Z.max (- e) 0) in *.
  replace (Z.max scale 0) with scale by lia. replace (Z.max (- scale) 0) with 0 by lia.
  rewrite Z.pow_0_r, Z.mul_1_r.
  assert (10 ^ scale = 5 ^ scale * 2 ^ (scale - a) * den) as E10.
  { unfold den. fold a. change 10 with (5 * 2). rewrite Z.pow_mul_l.
    rewrite <- Z.mul_assoc, <- Z.pow_add_r by lia. do 2 f_equal. lia. }
  assert (0 < den) as Hden by (apply Z.pow_pos_nonneg; lia).
  rewrite E10. rewrite !Z.mul_assoc, Z.div_mul by lia.
  unfold of_decimal. replace (Z.max (- scale) 0) with 0 by lia.
  replace (Z.max (- - scale) 0) with scale by lia. rewrite Z.pow_0_r, Z.mul_1_r.
  apply round_exact; [exact V | apply Z.pow_pos_nonneg; lia |].
  change (2 ^ Z.max (- e) 0) with den. rewrite E10.
  generalize (5 ^ scale) (2 ^ (scale - a)). clear. intros x y. unfold num. ring.
Qed.

Lemma search_reads (n0 : Z) (steps : nat) (k : Z) :
  Z.max (- e) 0 <= k + Z.of_nat steps - n0 ->
  let (s, q) := search (S754_finite false m e) num den n0 steps k in
  of_decimal false s q = S754_finite false m e /\ 0 <= s.
Proof.
  assert (forall scale, 0 <= num * 10 ^ Z.max scale 0 / (den * 10 ^ Z.max (- scale) 0)) as P.
  { intros scale. pose proof (pow10_pos scale). pose proof (pow10_pos (- scale)).
    assert (0 < den) by (apply Z.pow_pos_nonneg; lia).
    assert (0 < 2 ^ Z.max e 0) by (apply Z.pow_pos_nonneg; lia).
    apply Z.div_pos; unfold num; nia. }
  revert k. induction steps as [|steps IH]; intros k H.
  - cbn [search]. split; [apply exact_expansion; lia | apply P].
  - cbn [search].
    set (scale := k - n0).
    specialize (P scale).
    set (s := num * 10 ^ Z.max scale 0 / (den * 10 ^ Z.max (- scale) 0)) in *.
    destruct (eqb (of_decimal false s (- scale)) (S754_finite false m e)) eqn:Lo;
      destruct (eqb (of_decimal false (s + 1) (- scale)) (S754_finite false m e)) eqn:Hi.
    + apply eqb_eq in Lo, Hi.
      destruct (2 * _ ?= _); [destruct (Z.even s)| |]; (split; [assumption | lia]).
    + split; [now apply eqb_eq | lia].
    + split; [now apply eqb_eq | lia].
    + apply IH. lia.
Qed.

Lemma strip_reads (negative : bool) (fuel : nat) (s q : Z) :
  let (s', q') := strip fuel s q in
  of_decimal negative s' q' = of_decimal negative s q /\ (0 < s -> 0 < s').
Proof.
  revert s q. induction fuel as [|fuel IH]; intros s q; cbn [strip]; [tauto|].
  destruct ((s mod 10 =? 0) && (0 <? s)) eqn:D; [|tauto].
  apply andb_true_iff in D. destruct D as [D P]. apply Z.eqb_eq in D. apply Z.ltb_lt in P.
  specialize (IH (s / 10) (q + 1)). destruct (strip fuel (s / 10) (q + 1)) as [s' q'].
  destruct IH as [IH1 IH2].
  assert (s = s / 10 * 10 ^ 1) as E.
  { rewrite Z.pow_1_r. pose proof (Z.div_mod s 10 ltac:(lia)). lia. }
  split.
  - rewrite IH1. rewrite E at 2. replace q with (q + 1 - 1) at 2 by lia.
    symmetry. apply of_decimal_shift. lia.
  - intros _. apply IH2. rewrite Z.pow_1_r in E. lia.
Qed.

(** The digits chosen for a number are read as that number. *)
Lemma shortest_reads :
  let (s, q) := shortest m e in
  of_decimal false s q = S754_finite false m e /\ 0 < s.
Proof.
  unfold shortest. fold num. fold den.
  set (n0 := dec_exp num den).
  set (steps := Z.to_nat (Z.max 1 (n0 + Z.max (- e) 0) - 1)).
  pose proof (search_reads n0 steps 1) as S.
  destruct (search (S754_finite false m e) num den n0 steps 1) as [s q].
  destruct S as [R P]; [lia|].
  assert (0 < s) as P'.
  { destruct (Z.eq_dec s 0) as [->|]; [|lia]. rewrite of_decimal_zero in R. discriminate R. }
  pose proof (strip_reads false (Z.to_nat (Z.log2 s)) s q) as T.
  destruct (strip (Z.to_nat (Z.log2 s)) s q) as [s' q'].
  destruct T as [T1 T2]. split; [now rewrite T1 | now apply T2].
Qed.

End Shortest.

(** *** Numerals *)

Lemma value_onto (ds : list Z) (a : Z) :
  fold_left (fun a d => 10 * a + d) ds a = a * 10 ^ Z.of_nat (length ds) + value ds.
Proof.
  unfold value. revert a. induction ds as [|d ds IH]; intros a.
  - cbn. lia.
  - cbn [fold_left length]. rewrite IH, (IH (10 * 0 + d)).
    rewrite Nat2Z.inj_succ, Z.pow_succ_r by lia. ring.
Qed.

Lemma value_cons (d : Z) (ds : list Z) :
  value (d :: ds) = d * 10 ^ Z.of_nat (length ds) + value ds.
Proof. unfold value at 1. cbn [fold_left]. rewrite value_onto. reflexivity. Qed.

Lemma value_app (a b : list Z) :
  value (a ++ b) = value a * 10 ^ Z.of_nat (length b) + value b.
Proof.
  unfold value at 1. rewrite fold_left_app. fold (value a). apply value_onto.
Qed.

Lemma value_zeros (n : Z) : value (zeros n) = 0.
Proof.
  unfold zeros. induction (Z.to_nat n) as [|k IH]; [reflexivity|].
  cbn [repeat]. rewrite value_cons, IH. lia.
Qed.

Lemma length_zeros (n : Z) : 0 <= n -> Z.of_nat (length (zeros n)) = n.
Proof. intros H. unfold zeros. rewrite repeat_length. lia. Qed.

Lemma digit_zeros (n : Z) : Forall digit (zeros n).
Proof.
  unfold zeros. induction (Z.to_nat n); cbn; constructor; [unfold digit; lia | assumption].
Qed.

Lemma digits_onto_spec (fuel : nat) (n : Z) (acc : list Z) :
  0 <= n < 2 ^ Z.of_nat fuel -> (1 <= fuel)%nat ->
  exists d ds, digits_onto fuel n acc = (d :: ds) ++ acc /\ value (d :: ds) = n /\
               Forall digit (d :: ds) /\ (0 < n -> 0 < d).
Proof.
  revert n acc. induction fuel as [|fuel IH]; intros n acc H F1; [lia|].
  cbn [digits_onto]. destruct (n <? 10) eqn:Lt10.
  { apply Z.ltb_lt in Lt10. exists n, [].
    split; [reflexivity|]. split; [cbn; lia|].
    split; [|tauto]. constructor; [unfold digit; lia | constructor]. }
  apply Z.ltb_ge in Lt10.
  rewrite Nat2Z.inj_succ, Z.pow_succ_r in H by lia.
  pose proof (Z.div_mod n 10 ltac:(lia)) as DM.
  pose proof (Z.mod_pos_bound n 10 ltac:(lia)) as MB.
  assert (1 <= fuel)%nat as F2.
  { destruct fuel; [cbn in H; lia | lia]. }
  destruct (IH (n / 10) (n mod 10 :: acc)) as (d & ds & E & Val & F & P); [lia | exact F2 |].
  exists d, (ds ++ [n mod 10]).
  change (d :: ds ++ [n mod 10]) with ((d :: ds) ++ [n mod 10]).
  split; [rewrite E, <- List.app_assoc; reflexivity|].
  split; [rewrite value_app, Val; cbn; lia|].
  split; [|intros _; apply P; lia].
  apply Forall_app. split; [exact F|]. constructor; [unfold digit; lia | constructor].
Qed.

(** The digits of a natural number: at least one, of the number's value,
    and the first is not a zero unless the number is. *)
Lemma digits_spec (n : Z) :
  0 <= n ->
  exists d ds, digits n = d :: ds /\ value (d :: ds) = n /\
               Forall digit (d :: ds) /\ (0 < n -> 0 < d).
Proof.
  intros H. unfold digits.
  destruct (digits_onto_spec (S (Z.to_nat (Z.log2 n))) n []) as (d & ds & E & R).
  - split; [exact H|]. rewrite Nat2Z.inj_succ, Z2Nat.id by apply Z.log2_nonneg.
    destruct (Z.eq_dec n 0) as [->|]; [cbn; lia|].
    apply Z.log2_spec. lia.
  - lia.
  - exists d, ds. rewrite E, List.app_nil_r. auto.
Qed.

Lemma span_numeral (ds : list Z) (rest : wstring) :
  Forall digit ds -> no_digit rest -> span_digits (numeral ds ++ rest) = (ds, rest).
Proof.
  intros F N. induction F as [|d ds D F IH].
  - cbn. destruct rest as [|c rest]; [reflexivity|]. cbn in N |- *. now rewrite N.
  - cbn [numeral map app span_digits]. fold (numeral ds). rewrite IH.
    unfold digit in D. unfold is_digit, digit_unit.
    replace ((48 <=? Z.to_N (48 + d))%N && (Z.to_N (48 + d) <=? 57)%N) with true.
    + f_equal. f_equal. lia.
    + symmetry. apply andb_true_iff. split; apply N.leb_le; lia.
Qed.

Lemma digit_unit_is_digit (d : Z) : digit d -> is_digit (digit_unit d) = true.
Proof.
  unfold digit, is_digit, digit_unit. intros D.
  apply andb_true_iff. split; apply N.leb_le; lia.
Qed.

Lemma no_digit_point (rest : wstring) : no_digit (46%N :: rest).
Proof. reflexivity. Qed.

Lemma ends_no_digit (rest : wstring) : ends_numeral rest -> no_digit rest.
Proof. destruct rest; [tauto|]. cbn. tauto. Qed.

Lemma read_int_numeral (d : Z) (ds : list Z) (rest : wstring) :
  Forall digit (d :: ds) -> 0 < d -> no_digit rest ->
  read_int (numeral (d :: ds) ++ rest) = Some (d :: ds, rest).
Proof.
  intros F P N. unfold read_int.
  rewrite (span_numeral _ _ F N).
  cbn [numeral map app]. inversion F as [|? ? D _]; subst.
  rewrite (digit_unit_is_digit _ D).
  replace (digit_unit d =? 48)%N with false; [reflexivity|].
  symmetry. apply N.eqb_neq. unfold digit_unit, digit in *. lia.
Qed.

Lemma read_fraction_numeral (fs : list Z) (rest : wstring) :
  Forall digit fs -> fs <> [] -> no_digit rest ->
  read_fraction (46%N :: numeral fs ++ rest) = Some (fs, rest).
Proof.
  intros F NE N. cbn [read_fraction N.eqb Pos.eqb]. rewrite (span_numeral _ _ F N).
  destruct fs; [congruence | reflexivity].
Qed.

Lemma read_fraction_none (rest : wstring) :
  ends_numeral rest \/ (exists r, rest = 101%N :: r) -> read_fraction rest = Some ([], rest).
Proof.
  intros [H|(r & ->)]; [|reflexivity].
  destruct rest as [|c rest]; [reflexivity|]. cbn in H |- *.
  destruct H as (_ & H & _). apply N.eqb_neq in H. now rewrite H.
Qed.

Lemma read_exponent_none (rest : wstring) :
  ends_numeral rest -> read_exponent rest = Some (0, rest).
Proof.
  destruct rest as [|c rest]; [reflexivity|]. cbn. intros (_ & _ & H1 & H2).
  apply N.eqb_neq in H1, H2. now rewrite H1, H2.
Qed.

Lemma read_exponent_numeral (n : Z) (rest : wstring) :
  no_digit rest ->
  read_exponent (wide (if n <? 0 then "e-" else "e+") ++ numeral (digits (Z.abs n)) ++ rest)
  = Some (n, rest).
Proof.
  intros N. destruct (digits_spec (Z.abs n) ltac:(lia)) as (d & ds & E & Val & F & _).
  rewrite E.
  destruct (n <? 0) eqn:S;
    [change (wide "e-") with [101%N; 45%N] | change (wide "e+") with [101%N; 43%N]];
    cbn [app read_exponent N.eqb Pos.eqb orb];
    rewrite (span_numeral _ _ F N), Val.
  - apply Z.ltb_lt in S. do 2 f_equal. lia.
  - apply Z.ltb_ge in S. do 2 f_equal. lia.
Qed.


Lemma numeral_app (a b : list Z) : numeral (a ++ b) = numeral a ++ numeral b.
Proof. apply map_app. Qed.

Lemma ends_numeral_e (r : wstring) : no_digit (101%N :: r).
Proof. reflexivity. Qed.

(** A numeral in the notation of [Number::toString] is read as the
    decimal it was printed from. *)
Lemma read_notation (negative : bool) (d q : Z) (rest : wstring) :
  0 < d -> ends_numeral rest ->
  read_unsigned negative (notation (digits d) (q + Z.of_nat (length (digits d))) ++ rest)
  = Some (of_decimal negative d q, rest).
Proof.
  intros P E. destruct (digits_spec d ltac:(lia)) as (d0 & ds & -> & Val & F & P0).
  specialize (P0 P). pose proof (ends_no_digit _ E) as N.
  set (k := Z.of_nat (length (d0 :: ds))). set (n := q + k).
  assert (1 <= k) as K by (unfold k; cbn [length]; lia).
  unfold notation. fold k.
  destruct ((k <=? n) && (n <=? 21)) eqn:C1.
  { (* digits, then zeros *)
    apply andb_true_iff in C1. destruct C1 as [C1 _]. apply Z.leb_le in C1.
    unfold read_unsigned.
    change ((d0 :: ds) ++ zeros (n - k)) with (d0 :: (ds ++ zeros (n - k))).
    rewrite read_int_numeral; [| |exact P0|exact N].
    2:{ change (d0 :: ds ++ zeros (n - k)) with ((d0 :: ds) ++ zeros (n - k)).
        apply Forall_app. split; [exact F | apply digit_zeros]. }
    rewrite read_fraction_none by now left. rewrite read_exponent_none by exact E.
    f_equal. f_equal. rewrite List.app_nil_r.
    change (d0 :: ds ++ zeros (n - k)) with ((d0 :: ds) ++ zeros (n - k)).
    rewrite value_app, value_zeros, Val, length_zeros by lia.
    cbn [length Z.of_nat Z.sub]. rewrite Z.add_0_r.
    replace (0 - 0) with (q - (n - k)) by lia. apply of_decimal_shift. lia. }
  destruct ((0 <? n) && (n <=? 21)) eqn:C2.
  { (* a point inside the digits *)
    apply andb_true_iff in C2. destruct C2 as [C2 C2']. apply Z.ltb_lt in C2.
    rewrite C2', andb_true_r in C1. apply Z.leb_gt in C1. clear C2'.
    pose proof (firstn_skipn (Z.to_nat n) (d0 :: ds)) as FS.
    pose proof (length_skipn (Z.to_nat n) (d0 :: ds)) as LS.
    destruct (Z.to_nat n) as [|n'] eqn:EN; [lia|].
    cbn [firstn] in FS |- *.
    set (a := firstn n' ds) in *. set (b := skipn (S n') (d0 :: ds)) in *.
    assert (Forall digit ((d0 :: a) ++ b)) as F' by (rewrite FS; exact F).
    apply Forall_app in F'. destruct F' as [Fa Fb].
    assert (b <> []) as NB.
    { intros B. rewrite B in LS. unfold k in C1. cbn [length] in LS, C1. lia. }
    unfold read_unsigned. change (wide ".") with [46%N].
    rewrite <- !List.app_assoc. cbn [app].
    change (digit_unit d0 :: numeral a ++ 46%N :: numeral b ++ rest)
      with (numeral (d0 :: a) ++ 46%N :: numeral b ++ rest).
    rewrite read_int_numeral; [|exact Fa|exact P0|apply no_digit_point].
    rewrite read_fraction_numeral; [|exact Fb|exact NB|exact N].
    rewrite read_exponent_none by exact E.
    f_equal. f_equal. rewrite FS, Val.
    f_equal. unfold n, k in *. lia. }
  destruct ((-6 <? n) && (n <=? 0)) eqn:C3.
  { (* zeros after the point *)
    apply andb_true_iff in C3. destruct C3 as [C3 C3']. apply Z.ltb_lt in C3.
    apply Z.leb_le in C3'.
    unfold read_unsigned. change (wide "0.") with [48%N; 46%N].
    rewrite <- !List.app_assoc. cbn [app read_int N.eqb Pos.eqb].
    rewrite read_fraction_numeral; [| | |exact N].
    2:{ apply Forall_app. split; [apply digit_zeros | exact F]. }
    2:{ intros B. apply app_eq_nil in B. destruct B as [_ B]. discriminate B. }
    rewrite read_exponent_none by exact E.
    f_equal. f_equal. cbn [app]. rewrite value_cons, value_app, value_zeros, Val.
    rewrite length_app, Nat2Z.inj_add, length_zeros by lia.
    fold k. replace (0 - (- n + k)) with q by (unfold n; lia).
    rewrite !Z.mul_0_l. reflexivity. }
  (* with an exponent *)
  assert (no_digit
            ((wide (if n - 1 <? 0 then "e-" else "e+") ++ numeral (digits (Z.abs (n - 1))))
               ++ rest)) as NX.
  { destruct (n - 1 <? 0); reflexivity. }
  assert (exists r,
            (wide (if n - 1 <? 0 then "e-" else "e+") ++ numeral (digits (Z.abs (n - 1))))
              ++ rest = 101%N :: r) as (r & EX).
  { destruct (n - 1 <? 0); eexists; reflexivity. }
  unfold read_unsigned. destruct ds as [|d1 ds].
  - cbn [app].
    change (digit_unit d0 :: ?x) with (numeral [d0] ++ x).
    rewrite read_int_numeral; [|exact F|exact P0|exact NX].
    rewrite read_fraction_none by (right; now exists r).
    rewrite <- List.app_assoc. rewrite read_exponent_numeral by exact N.
    f_equal. f_equal. rewrite List.app_nil_r, Val. f_equal. unfold n, k. cbn [length]. lia.
  - change (wide ".") with [46%N]. cbn [app]. rewrite <- !List.app_assoc.
    change (digit_unit d0 :: 46%N :: ?x) with (numeral [d0] ++ 46%N :: x).
    rewrite read_int_numeral; [| |exact P0|apply no_digit_point].
    2:{ inversion F; subst. constructor; [assumption | constructor]. }
    rewrite <- List.app_assoc in NX.
    rewrite read_fraction_numeral; [| |discriminate|exact NX].
    2:{ now inversion F. }
    rewrite read_exponent_numeral by exact N.
    f_equal. f_equal. cbn [app]. rewrite Val. f_equal. unfold n, k. cbn [length]. lia.
Qed.

(** The sign of the nearest value is the sign asked for. *)
Lemma of_decimal_sign (negative : bool) (s q : Z) (m : positive) (e : Z) :
  of_decimal false s q = S754_finite false m e ->
  of_decimal negative s q = S754_finite negative m e.
Proof.
  unfold of_decimal, round_ratio.
  destruct (if _ =? 2 ^ 53 then _ else _) as [m' e'].
  destruct m' as [|m'|m']; try discriminate.
  destruct (e' <=? 971); [|discriminate]. intros H. injection H as -> ->. reflexivity.
Qed.

Lemma read_of_unsigned (s : wstring) (r : number * wstring) :
  read_unsigned false s = Some r -> read s = Some r.
Proof.
  destruct s as [|c s]; [discriminate|]. unfold read.
  destruct (c =? 45)%N eqn:C; [|tauto].
  apply N.eqb_eq in C. subst c. discriminate.
Qed.

(** Reading what [Number::toString] prints gives the number back: for a
    finite number other than the negative zero, which is printed as [0]. *)
Lemma read_to_string (x : number) (rest : wstring) :
  valid x = true -> is_finite x = true -> x <> S754_zero true -> ends_numeral rest ->
  read (to_string x ++ rest) = Some (x, rest).
Proof.
  intros V F Z E. destruct x as [s|s| |s m e]; try discriminate F.
  - destruct s; [congruence|].
    apply read_of_unsigned. change (to_string (S754_zero false)) with [48%N].
    unfold read_unsigned. cbn [app read_int N.eqb Pos.eqb].
    rewrite read_fraction_none by now left. rewrite read_exponent_none by exact E.
    cbn [app value fold_left length Z.of_nat Z.sub Z.mul Z.add Z.opp].
    now rewrite of_decimal_zero.
  - cbn [to_string].
    pose proof (shortest_reads m e V) as R.
    destruct (shortest m e) as [d q]. destruct R as [R P].
    destruct s.
    + change (wide "-") with [45%N]. cbn [app read N.eqb Pos.eqb].
      rewrite read_notation by assumption. now rewrite (of_decimal_sign true _ _ _ _ R).
    + apply read_of_unsigned. cbn [app].
      rewrite read_notation by assumption. now rewrite R.
Qed.


(** The nearest value is a binary64 value. *)
Lemma round_ratio_valid (negative : bool) (p q : Z) :
  0 <= p -> 0 < q -> valid (round_ratio negative p q) = true.
Proof.
  intros Hp Hq. unfold round_ratio.
  set (P := p * 2 ^ 1074).
  assert (0 <= P) as HP by (unfold P; apply Z.mul_nonneg_nonneg; [lia | apply Z.pow_nonneg; lia]).
  set (T := P / q). assert (0 <= T) as HT by (apply Z.div_pos; lia).
  set (shift := Z.max (Z.log2 T - 52) 0).
  assert (0 < 2 ^ shift) as Hs by (apply Z.pow_pos_nonneg; lia).
  assert (P / (q * 2 ^ shift) = T / 2 ^ shift) as ->
      by (unfold T; rewrite Z.div_div; [reflexivity | lia | lia]).
  set (n := T / 2 ^ shift).
  assert (0 <= n < 2 ^ 53 /\ (shift = 0 \/ 2 ^ 52 <= n)) as (Bn & Cn).
  { unfold n. destruct (Z.eq_dec T 0) as [E0|N0].
    - rewrite E0, Z.div_0_l by lia. split; [lia|]. left. unfold shift. rewrite E0. reflexivity.
    - pose proof (Z.log2_spec T ltac:(lia)) as [L1 L2].
      destruct (Z.le_gt_cases (Z.log2 T) 52) as [L|L].
      + assert (shift = 0) as -> by (unfold shift; lia).
        rewrite Z.pow_0_r, Z.div_1_r. split; [|now left]. split; [lia|].
        apply Z.lt_le_trans with (1 := L2). apply Z.pow_le_mono_r; lia.
      + assert (shift = Z.log2 T - 52) as E by (unfold shift; lia).
        assert (2 ^ Z.log2 T = 2 ^ 52 * 2 ^ shift) as E1
            by (rewrite <- Z.pow_add_r by lia; f_equal; lia).
        assert (2 ^ Z.succ (Z.log2 T) = 2 ^ 53 * 2 ^ shift) as E2
            by (rewrite <- Z.pow_add_r by lia; f_equal; lia).
        rewrite E1 in L1. rewrite E2 in L2.
        split; [split|right].
        * apply Z.div_pos; lia.
        * apply Z.div_lt_upper_bound; lia.
        * apply Z.div_le_lower_bound; lia. }
  set (n' := match 2 * (P mod (q * 2 ^ shift)) ?= q * 2 ^ shift with
             | Eq => if Z.even n then n else n + 1
             | Lt => n
             | Gt => n + 1
             end).
  assert (n' = n \/ n' = n + 1) as Hn'.
  { unfold n'. destruct (_ ?= _); [destruct (Z.even n)| |]; auto. }
  assert (0 <= shift) as Hsh by (unfold shift; lia).
  destruct (n' =? 2 ^ 53) eqn:E53.
  - change (2 ^ 52) with (Zpos (2 ^ 52)%positive).
    destruct (shift - 1073 <=? 971) eqn:B; [|reflexivity].
    apply Z.leb_le in B. apply valid_finite. split; [lia|]. split; [reflexivity|].
    right. reflexivity.
  - apply Z.eqb_neq in E53. destruct n' as [|m|m] eqn:En; [reflexivity| |reflexivity].
    destruct (shift - 1074 <=? 971) eqn:B; [|reflexivity].
    apply Z.leb_le in B. apply valid_finite. split; [lia|]. split; [lia|].
    destruct Cn as [->|Cn]; [now left|right; lia].
Qed.

Lemma span_digits_nonneg (s : wstring) : Forall (fun d => 0 <= d) (fst (span_digits s)).
Proof.
  induction s as [|c s IH]; cbn [span_digits]; [constructor|].
  destruct (is_digit c) eqn:D; [|constructor].
  destruct (span_digits s) as [ds r]. cbn [fst] in *. constructor; [|exact IH].
  unfold is_digit in D. apply andb_true_iff in D. destruct D as [D _].
  apply N.leb_le in D. lia.
Qed.

Lemma value_nonneg (ds : list Z) : Forall (fun d => 0 <= d) ds -> 0 <= value ds.
Proof.
  unfold value. intros F.
  assert (forall a, 0 <= a -> 0 <= fold_left (fun a d => 10 * a + d) ds a) as G.
  { induction F as [|d ds D F IH]; intros a Ha; cbn [fold_left]; [exact Ha|].
    apply IH. lia. }
  apply G. lia.
Qed.

(** A numeral is read as a binary64 value. *)
Lemma read_valid (s : wstring) (x : number) (rest : wstring) :
  read s = Some (x, rest) -> valid x = true.
Proof.
  assert (forall negative s,
             read_unsigned negative s = Some (x, rest) -> valid x = true) as U.
  { clear s. intros negative s. unfold read_unsigned.
    destruct (read_int s) as [[ints s1]|] eqn:EI; [|discriminate].
    destruct (read_fraction s1) as [[fracs s2]|] eqn:EF; [|discriminate].
    destruct (read_exponent s2) as [[ex s3]|]; [|discriminate].
    intros H. injection H as <- _. unfold of_decimal.
    apply round_ratio_valid; [|apply pow10_pos].
    apply Z.mul_nonneg_nonneg; [|pose proof (pow10_pos (ex - Z.of_nat (length fracs))); lia].
    apply value_nonneg. apply Forall_app. split.
    - unfold read_int in EI. destruct s as [|c s]; [discriminate|].
      destruct (c =? 48)%N.
      + injection EI as <- _. constructor; [lia | constructor].
      + destruct (is_digit c); [|discriminate].
        pose proof (span_digits_nonneg (c :: s)) as F. revert EI F.
        destruct (span_digits (c :: s)) as [ds r]. intros EI F.
        injection EI as <- _. exact F.
    - unfold read_fraction in EF. destruct s1 as [|c s1].
      + injection EF as <- _. constructor.
      + destruct (c =? 46)%N.
        * pose proof (span_digits_nonneg s1) as F.
          destruct (span_digits s1) as [[|d ds] r] eqn:ES; [discriminate|].
          injection EF as <- _. exact F.
        * injection EF as <- _. constructor. }
  unfold read. destruct s as [|c s]; [discriminate|].
  destruct (c =? 45)%N; apply U.
Qed.

End Numbers.

(** ** Reading back what [JSON.stringify] prints *)

Section JsonRoundTrip.
Import Js Json.
Local Open Scope N_scope.
Local Open Scope list_scope.

Lemma hex_value_digit (x : N) : x < 16 -> hex_value (hex_digit x) = Some x.
Proof.
  intros H.
  assert (x = 0 \/ x = 1 \/ x = 2 \/ x = 3 \/ x = 4 \/ x = 5 \/ x = 6 \/ x = 7 \/
          x = 8 \/ x = 9 \/ x = 10 \/ x = 11 \/ x = 12 \/ x = 13 \/ x = 14 \/ x = 15)
    as C by lia.
  repeat (destruct C as [->|C]; [reflexivity|]). subst x. reflexivity.
Qed.

Lemma unicode_unit_escape (c : N) (tail : wstring) :
  c < 65536 ->
  parse_chars (unicode_escape c ++ tail) = cons_unit c (parse_chars tail).
Proof.
  intros H. unfold unicode_escape. cbn [app parse_chars].
  change (backslash =? dquote) with false. change (backslash =? backslash) with true.
  change (117 =? dquote) with false. change (117 =? backslash) with false.
  cbn [N.eqb Pos.eqb]. unfold unicode_unit.
  rewrite !hex_value_digit;
    [| apply N.mod_lt; lia | apply N.mod_lt; lia | apply N.mod_lt; lia
     | apply N.Div0.div_lt_upper_bound; lia ].
  f_equal.
  pose proof (N.div_mod c 16 ltac:(lia)).
  pose proof (N.div_mod (c / 16) 16 ltac:(lia)).
  pose proof (N.div_mod (c / 16 / 16) 16 ltac:(lia)).
  rewrite !N.Div0.div_div in *. 
  change (16 * 16) with 256 in *. change (256 * 16) with 4096 in *.
  lia.
Qed.

Lemma parse_chars_literal (c : N) (tail : wstring) :
  c <> 34 -> c <> 92 -> 32 <= c ->
  parse_chars (c :: tail) = cons_unit c (parse_chars tail).
Proof.
  intros H1 H2 H3. cbn [parse_chars]. unfold dquote, backslash.
  apply N.eqb_neq in H1, H2. rewrite H1, H2.
  assert ((c <? 32) = false) as -> by (apply N.ltb_ge; exact H3). reflexivity.
Qed.

Lemma parse_chars_escape_unit (c : N) (tail : wstring) :
  parse_chars (escape_unit c ++ tail) = cons_unit c (parse_chars tail).
Proof.
  unfold escape_unit.
  destruct (N.eqb_spec c 8) as [->|N8]; [reflexivity|].
  destruct (N.eqb_spec c 9) as [->|N9]; [reflexivity|].
  destruct (N.eqb_spec c 10) as [->|N10]; [reflexivity|].
  destruct (N.eqb_spec c 12) as [->|N12]; [reflexivity|].
  destruct (N.eqb_spec c 13) as [->|N13]; [reflexivity|].
  destruct (N.eqb_spec c 34) as [->|N34]; [reflexivity|].
  destruct (N.eqb_spec c 92) as [->|N92]; [reflexivity|].
  destruct ((c <? 32) || is_high c || is_low c) eqn:U.
  - apply unicode_unit_escape.
    apply orb_true_iff in U. destruct U as [U|U];
      [apply orb_true_iff in U; destruct U as [U|U]|].
    + apply N.ltb_lt in U. lia.
    + unfold is_high in U. apply andb_true_iff in U. destruct U as [_ U].
      apply N.leb_le in U. lia.
    + unfold is_low in U. apply andb_true_iff in U. destruct U as [_ U].
      apply N.leb_le in U. lia.
  - apply orb_false_iff in U. destruct U as [U _].
    apply orb_false_iff in U. destruct U as [U _]. apply N.ltb_ge in U.
    cbn [app]. now apply parse_chars_literal.
Qed.

Lemma escape_cons (c : N) (rest : wstring) :
  escape (c :: rest) =
  match rest with
  | d :: rest' =>
      if is_high c && is_low d then c :: d :: escape rest'
      else escape_unit c ++ escape rest
  | [] => escape_unit c
  end.
Proof. destruct rest; reflexivity. Qed.

(** The characters of a string are read back from its literal. *)
Lemma parse_chars_escape (s rest : wstring) :
  parse_chars (escape s ++ dquote :: rest) = Some (s, rest).
Proof.
  assert (forall n s, (length s <= n)%nat ->
                      parse_chars (escape s ++ dquote :: rest) = Some (s, rest)) as G.
  { clear s. induction n as [|n IH]; intros s L.
    - destruct s; [reflexivity | cbn in L; lia].
    - destruct s as [|c s]; [reflexivity|]. rewrite escape_cons.
      destruct s as [|d s].
      + rewrite parse_chars_escape_unit. reflexivity.
      + destruct (is_high c && is_low d) eqn:P.
        * apply andb_true_iff in P. destruct P as [Pc Pd].
          unfold is_high in Pc. unfold is_low in Pd.
          apply andb_true_iff in Pc, Pd. destruct Pc as [Pc _]. destruct Pd as [Pd _].
          apply N.leb_le in Pc, Pd.
          cbn [app]. rewrite parse_chars_literal by lia.
          rewrite parse_chars_literal by lia.
          rewrite IH by (cbn [length] in L; lia). reflexivity.
        * rewrite <- List.app_assoc, parse_chars_escape_unit.
          rewrite IH by (cbn [length] in L |- *; lia). reflexivity. }
  apply (G (length s)). lia.
Qed.


Lemma key_eqb_eq (a b : wstring) : key_eqb a b = true <-> a = b.
Proof.
  revert b. induction a as [|x a IH]; intros [|y b]; cbn [key_eqb];
    try (split; [discriminate | discriminate]); [tauto|].
  rewrite andb_true_iff, N.eqb_eq, IH. split.
  - intros [-> ->]. reflexivity.
  - intros E. injection E as -> ->. auto.
Qed.

Lemma key_eqb_refl (a : wstring) : key_eqb a a = true.
Proof. now apply key_eqb_eq. Qed.

Lemma key_eqb_sym (a b : wstring) : key_eqb a b = key_eqb b a.
Proof.
  destruct (key_eqb a b) eqn:E.
  - apply key_eqb_eq in E. subst. symmetry. apply key_eqb_refl.
  - destruct (key_eqb b a) eqn:E'; [|reflexivity].
    apply key_eqb_eq in E'. subst. now rewrite key_eqb_refl in E.
Qed.

Lemma json_induction (P : json -> Prop) :
  P JNull -> (forall b, P (JBool b)) -> (forall x, P (JNum x)) -> (forall s, P (JStr s)) ->
  (forall items, Forall P items -> P (JArr items)) ->
  (forall members, Forall (fun m => P (snd m)) members -> P (JObj members)) ->
  forall v, P v.
Proof.
  intros Hn Hb Hz Hs Ha Ho. fix IH 1. intros [| b | z | s | items | members].
  - exact Hn.
  - apply Hb.
  - apply Hz.
  - apply Hs.
  - apply Ha. induction items as [|x items IHl]; constructor.
    + apply IH.
    + exact IHl.
  - apply Ho. induction members as [|[k x] members IHl]; constructor.
    + apply IH.
    + exact IHl.
Qed.

Lemma every_items (pn : Number.number -> bool) (pk : list wstring -> bool) (items : list json) :
  every pn pk (JArr items) = true <-> Forall (fun x => every pn pk x = true) items.
Proof. cbn [every]. rewrite forallb_forall, Forall_forall. tauto. Qed.

Lemma every_members (pn : Number.number -> bool) (pk : list wstring -> bool)
      (members : list (wstring * json)) :
  every pn pk (JObj members) = true <->
  pk (map fst members) = true /\ Forall (fun m => every pn pk (snd m) = true) members.
Proof. cbn [every]. rewrite andb_true_iff, forallb_forall, Forall_forall. tauto. Qed.

Lemma size_items (items : list json) : size (JArr items) = S (items_size items).
Proof. reflexivity. Qed.

Lemma size_members (members : list (wstring * json)) :
  size (JObj members) = S (members_size members).
Proof. reflexivity. Qed.

Lemma stringify_items (items : list json) :
  stringify (JArr items) = 91 :: join [44] (map stringify items) ++ [93].
Proof. reflexivity. Qed.

Lemma stringify_members (members : list (wstring * json)) :
  stringify (JObj members) = 123 :: join [44] (map member_text members) ++ [125].
Proof. reflexivity. Qed.

Lemma parse_value_S (fuel : nat) (s : wstring) :
  parse_value (S fuel) s =
  match skip_ws s with
  | [] => None
  | c :: rest =>
      if c =? 123 then
        match skip_ws rest with
        | c' :: rest' =>
            if c' =? 125 then Some (JObj [], rest')
            else option_map (fun mr => (JObj (object_of (fst mr)), snd mr))
                            (parse_members fuel rest)
        | [] => None
        end
      else if c =? 91 then
        match skip_ws rest with
        | c' :: rest' =>
            if c' =? 93 then Some (JArr [], rest')
            else option_map (fun er => (JArr (fst er), snd er))
                            (parse_elements fuel rest)
        | [] => None
        end
      else if c =? dquote then
        option_map (fun sr => (JStr (fst sr), snd sr)) (parse_chars rest)
      else if c =? 110 then
        option_map (fun r => (JNull, r)) (strip_prefix (wide "ull") rest)
      else if c =? 116 then
        option_map (fun r => (JBool true, r)) (strip_prefix (wide "rue") rest)
      else if c =? 102 then
        option_map (fun r => (JBool false, r)) (strip_prefix (wide "alse") rest)
      else
        option_map (fun xr => (JNum (fst xr), snd xr)) (Number.read (c :: rest))
  end.
Proof. reflexivity. Qed.

Lemma parse_elements_S (fuel : nat) (s : wstring) :
  parse_elements (S fuel) s =
  match parse_value fuel s with
  | Some (v, rest) =>
      match skip_ws rest with
      | c :: rest' =>
          if c =? 44 then
            option_map (fun er => (v :: fst er, snd er)) (parse_elements fuel rest')
          else if c =? 93 then Some ([v], rest')
          else None
      | [] => None
      end
  | None => None
  end.
Proof. reflexivity. Qed.

Lemma parse_members_S (fuel : nat) (s : wstring) :
  parse_members (S fuel) s =
  match skip_ws s with
  | q :: s1 =>
      if q =? dquote then
        match parse_chars s1 with
        | Some (k, s2) =>
            match skip_ws s2 with
            | colon :: s3 =>
                if colon =? 58 then
                  match parse_value fuel s3 with
                  | Some (v, rest) =>
                      match skip_ws rest with
                      | c :: rest' =>
                          if c =? 44 then
                            option_map (fun mr => ((k, v) :: fst mr, snd mr))
                                       (parse_members fuel rest')
                          else if c =? 125 then Some ([(k, v)], rest')
                          else None
                      | [] => None
                      end
                  | None => None
                  end
                else None
            | [] => None
            end
        | None => None
        end
      else None
  | [] => None
  end.
Proof. reflexivity. Qed.

Lemma closes_cases (rest : wstring) :
  closes rest = true ->
  rest = [] \/ exists r, rest = 44 :: r \/ rest = 93 :: r \/ rest = 125 :: r.
Proof.
  destruct rest as [|c r]; cbn [closes]; [now left|].
  intros H. right. exists r.
  apply orb_true_iff in H. destruct H as [H|H].
  - apply orb_true_iff in H. destruct H as [H|H]; apply N.eqb_eq in H; subst; auto.
  - apply N.eqb_eq in H; subst; auto.
Qed.

Lemma closes_ends_numeral (rest : wstring) : closes rest = true -> Number.ends_numeral rest.
Proof.
  intros H. destruct (closes_cases rest H) as [->|[r [->|[->| ->]]]]; cbn;
    repeat split; discriminate.
Qed.

(** A numeral starts with a digit or with the sign. *)
Lemma read_head (s : wstring) (r : Number.number * wstring) :
  Number.read s = Some r ->
  exists c s', s = c :: s' /\ (c = 45 \/ Number.is_digit c = true).
Proof.
  destruct s as [|c s]; [discriminate|]. intros H. exists c, s. split; [reflexivity|].
  unfold Number.read in H. destruct (N.eqb_spec c 45) as [->|N]; [now left|].
  right. unfold Number.read_unsigned, Number.read_int in H.
  destruct (N.eqb_spec c 48) as [->|N']; [reflexivity|].
  destruct (Number.is_digit c); [reflexivity | discriminate].
Qed.

Lemma prints_cases (x : Number.number) :
  prints x = true -> Number.is_finite x = true /\ x <> SpecFloat.S754_zero true.
Proof.
  unfold prints. rewrite andb_true_iff, negb_true_iff. intros [F Z]. split; [exact F|].
  intros ->. discriminate Z.
Qed.

(** The text of a value starts with a character that is not white space
    and closes nothing; the text of a number starts with a digit or the
    sign. *)
Lemma number_text_head (x : Number.number) :
  Number.valid x = true -> prints x = true ->
  exists c r, number_text x = c :: r /\ (c = 45 \/ Number.is_digit c = true).
Proof.
  intros V P. apply prints_cases in P. destruct P as [F Z].
  unfold number_text. rewrite F.
  pose proof (read_to_string x [] V F Z I) as R.
  rewrite List.app_nil_r in R. exact (read_head _ _ R).
Qed.

Lemma number_dispatch (c : N) :
  c = 45 \/ Number.is_digit c = true ->
  is_ws c = false /\ (c =? 123) = false /\ (c =? 91) = false /\
  (c =? dquote) = false /\ (c =? 110) = false /\
  (c =? 116) = false /\ (c =? 102) = false /\ (c =? 93) = false /\ (c =? 125) = false.
Proof.
  unfold Number.is_digit, is_ws, dquote. intros [->|D]; [repeat split; reflexivity|].
  apply andb_true_iff in D. destruct D as [D1 D2]. apply N.leb_le in D1, D2.
  repeat split; try (apply N.eqb_neq; lia).
  repeat (apply orb_false_iff; split); apply N.eqb_neq; lia.
Qed.

Lemma stringify_head (v : json) :
  is_value v = true -> all_print v = true ->
  exists c r, stringify v = c :: r /\
              is_ws c = false /\ (c =? 93) = false /\ (c =? 125) = false.
Proof.
  destruct v as [| [|] | x | s | items | members]; intros V P;
    try (eexists; eexists; split; [reflexivity | repeat split; reflexivity]).
  destruct (number_text_head x V P) as (c & r & E & D).
  exists c, r. split; [exact E|]. pose proof (number_dispatch c D). tauto.
Qed.

Lemma skip_ws_head (c : N) (r : wstring) : is_ws c = false -> skip_ws (c :: r) = c :: r.
Proof. intros H. cbn [skip_ws]. now rewrite H. Qed.

Lemma join_cons (sep x : wstring) (y : wstring) (l : list wstring) :
  join sep (x :: y :: l) = x ++ sep ++ join sep (y :: l).
Proof. reflexivity. Qed.

Lemma parse_elements_items (items : list json) :
  items <> [] -> Forall reads_back items ->
  Forall (fun x => is_value x = true) items -> Forall (fun x => all_print x = true) items ->
  forall fuel rest, (items_size items <= fuel)%nat ->
  parse_elements fuel (join [44] (map stringify items) ++ 93 :: rest) = Some (items, rest).
Proof.
  induction items as [|v items IH]; [congruence|].
  intros _ HP Hv Hf fuel rest Hfuel.
  inversion HP as [|? ? Pv Pl]; subst. inversion Hv as [|? ? Vv Vl]; subst.
  inversion Hf as [|? ? Fv Fl]; subst.
  unfold items_size in Hfuel. cbn [map list_sum fold_right] in Hfuel.
  destruct fuel as [|fuel]; [lia|].
  rewrite parse_elements_S.
  destruct items as [|v2 items].
  - cbn [map join].
    rewrite (Pv Vv Fv fuel (93 :: rest)) by (try reflexivity; lia).
    reflexivity.
  - cbn [map]. rewrite join_cons, <- !List.app_assoc. cbn [app].
    rewrite (Pv Vv Fv fuel) by (try reflexivity; lia).
    cbn [skip_ws is_ws N.eqb Pos.eqb orb].
    change (join [44] (stringify v2 :: map stringify items))
      with (join [44] (map stringify (v2 :: items))).
    rewrite IH; try assumption; try discriminate.
    + reflexivity.
    + unfold items_size. cbn [map list_sum fold_right] in Hfuel |- *. lia.
Qed.

Lemma member_text_app (k : wstring) (v : json) (tail : wstring) :
  member_text (k, v) ++ tail = dquote :: escape k ++ dquote :: 58 :: stringify v ++ tail.
Proof.
  unfold member_text, quote. cbn [fst snd]. change (wide ":") with [58].
  cbn [app]. rewrite <- !List.app_assoc. reflexivity.
Qed.

Lemma parse_members_members (members : list (wstring * json)) :
  members <> [] -> Forall (fun m => reads_back (snd m)) members ->
  Forall (fun m => is_value (snd m) = true) members ->
  Forall (fun m => all_print (snd m) = true) members ->
  forall fuel rest, (members_size members <= fuel)%nat ->
  parse_members fuel (join [44] (map member_text members) ++ 125 :: rest)
  = Some (members, rest).
Proof.
  induction members as [|[k v] members IH]; [congruence|].
  intros _ HP Hv Hf fuel rest Hfuel.
  inversion HP as [|? ? Pv Pl]; subst. inversion Hv as [|? ? Vv Vl]; subst.
  inversion Hf as [|? ? Fv Fl]; subst.
  cbn [snd] in Pv, Vv, Fv.
  unfold members_size in Hfuel. cbn [map list_sum fold_right snd] in Hfuel.
  destruct fuel as [|fuel]; [lia|].
  rewrite parse_members_S.
  destruct members as [|m2 members].
  - cbn [map join]. rewrite member_text_app.
    rewrite skip_ws_head by reflexivity.
    change (dquote =? dquote) with true. cbv iota.
    rewrite parse_chars_escape.
    rewrite skip_ws_head by reflexivity. change (58 =? 58) with true. cbv iota.
    rewrite (Pv Vv Fv fuel (125 :: rest)) by (try reflexivity; lia).
    reflexivity.
  - cbn [map]. rewrite join_cons, <- List.app_assoc, member_text_app.
    rewrite skip_ws_head by reflexivity.
    change (dquote =? dquote) with true. cbv iota.
    rewrite parse_chars_escape.
    rewrite skip_ws_head by reflexivity. change (58 =? 58) with true. cbv iota.
    rewrite <- List.app_assoc. cbn [app].
    rewrite (Pv Vv Fv fuel) by (try reflexivity; lia).
    cbn [skip_ws is_ws N.eqb Pos.eqb orb].
    change (join [44] (member_text m2 :: map member_text members))
      with (join [44] (map member_text (m2 :: members))).
    rewrite IH; try assumption; try discriminate.
    + reflexivity.
    + unfold members_size. cbn [map list_sum fold_right] in Hfuel |- *. lia.
Qed.


(** *** The order of the keys *)

Lemma has_key_before (k : wstring) (o : list (wstring * json)) :
  forallb (before k) (map fst o) = true -> has_key k o = false.
Proof.
  induction o as [|[k' v'] o IH]; cbn [map fst forallb has_key]; [reflexivity|].
  rewrite andb_true_iff. intros [B H]. unfold before in B.
  apply andb_true_iff in B. destruct B as [B _]. apply negb_true_iff in B.
  rewrite key_eqb_sym, B. now apply IH.
Qed.

Lemma insert_index_last (i : N) (k : wstring) (v : json) (o : list (wstring * json)) :
  array_index k = Some i -> forallb (before k) (map fst o) = true ->
  insert_index i k v o = o ++ [(k, v)].
Proof.
  intros Hk. induction o as [|[k' v'] o IH]; cbn [map fst forallb insert_index app];
    [reflexivity|].
  rewrite andb_true_iff. intros [B H]. unfold before, precedes in B. rewrite Hk in B.
  apply andb_true_iff in B. destruct B as [_ B].
  destruct (array_index k') as [j|]; [|discriminate]. rewrite B. now rewrite IH.
Qed.

(** A key that comes after all the keys of an object becomes its last
    member. *)
Lemma set_member_last (k : wstring) (v : json) (o : list (wstring * json)) :
  forallb (before k) (map fst o) = true -> set_member k v o = o ++ [(k, v)].
Proof.
  intros H. unfold set_member. rewrite (has_key_before k o H).
  destruct (array_index k) as [i|] eqn:E; [|reflexivity].
  now apply insert_index_last.
Qed.

Lemma ordered_keys_app (a b : list wstring) :
  ordered_keys (a ++ b) = true <->
  ordered_keys a = true /\ ordered_keys b = true /\
  Forall (fun k => forallb (before k) a = true) b.
Proof.
  induction a as [|x a IH]; cbn [app ordered_keys].
  - split; [|tauto]. intros H. repeat split; [exact H|].
    apply Forall_forall. reflexivity.
  - rewrite !andb_true_iff, IH, forallb_app, andb_true_iff. split.
    + intros ((H1 & H2) & H3 & H4 & H5). repeat split; try assumption.
      rewrite Forall_forall in *. intros k Hk. cbn [forallb].
      rewrite (H5 k Hk), andb_true_r. rewrite forallb_forall in H2. exact (H2 k Hk).
    + intros ((H1 & H2) & H3 & H4). repeat split; try assumption.
      * apply forallb_forall. intros k Hk. rewrite Forall_forall in H4.
        specialize (H4 k Hk). cbn [forallb] in H4. apply andb_true_iff in H4. tauto.
      * rewrite Forall_forall in *. intros k Hk. specialize (H4 k Hk).
        cbn [forallb] in H4. apply andb_true_iff in H4. tauto.
Qed.

Lemma fold_set_member (members acc : list (wstring * json)) :
  ordered_keys (map fst (acc ++ members)) = true ->
  fold_left (fun o m => set_member (fst m) (snd m) o) members acc = acc ++ members.
Proof.
  revert acc. induction members as [|[k v] members IH]; intros acc H; cbn [fold_left].
  - now rewrite List.app_nil_r.
  - cbn [fst snd]. rewrite set_member_last.
    + rewrite IH; rewrite <- List.app_assoc; [reflexivity | exact H].
    + rewrite map_app in H. apply ordered_keys_app in H. destruct H as (_ & _ & H).
      cbn [map fst] in H. now inversion H.
Qed.

(** The members of an object, defined one after the other, make the
    object. *)
Lemma object_of_ordered (members : list (wstring * json)) :
  ordered_keys (map fst members) = true -> object_of members = members.
Proof. intros H. unfold object_of. now rewrite fold_set_member. Qed.

(** A value is read back from its text, whatever closes it. *)
Lemma parse_value_stringify (v : json) : reads_back v.
Proof.
  induction v as [| b | x | s | items IH | members IH] using json_induction;
    intros Hv Hf fuel rest Hfuel Hc;
    (destruct fuel as [|fuel]; [cbn in Hfuel; lia|]); rewrite parse_value_S.
  - reflexivity.
  - destruct b; reflexivity.
  - destruct (number_text_head x Hv Hf) as (c & r & E & D).
    destruct (number_dispatch c D) as (W & E1 & E2 & E3 & E4 & E5 & E6 & _).
    apply prints_cases in Hf. destruct Hf as [F Z].
    pose proof (read_to_string x rest Hv F Z (closes_ends_numeral rest Hc)) as R.
    cbn [stringify]. unfold number_text in *. rewrite F in *. rewrite E in *.
    cbn [app] in *. rewrite skip_ws_head by exact W.
    rewrite E1, E2, E3, E4, E5, E6, R. reflexivity.
  - cbn [stringify]. unfold quote. cbn [app]. rewrite <- List.app_assoc. cbn [app].
    rewrite skip_ws_head by reflexivity. change (dquote =? 123) with false.
    change (dquote =? 91) with false. change (dquote =? dquote) with true. cbv iota.
    rewrite parse_chars_escape. reflexivity.
  - rewrite stringify_items. rewrite size_items in Hfuel.
    apply every_items in Hv. apply every_items in Hf.
    destruct items as [|v items]; [reflexivity|].
    cbn [app]. rewrite <- List.app_assoc. cbn [app].
    set (X := join [44] (map stringify (v :: items)) ++ 93 :: rest).
    assert (parse_elements fuel X = Some (v :: items, rest)) as PE.
    { apply parse_elements_items; try assumption; try discriminate. lia. }
    assert (exists c r', X = c :: r' /\ is_ws c = false /\ (c =? 93) = false) as
        (c & r' & HX & W & B).
    { inversion Hv as [|? ? Vv _]; subst. inversion Hf as [|? ? Fv _]; subst.
      destruct (stringify_head v Vv Fv) as (c & r & E & W & B & _).
      unfold X. cbn [map]. destruct items as [|v2 items].
      - cbn [join]. rewrite E. cbn [app]. now eexists; eexists.
      - cbn [map]. rewrite join_cons, E. cbn [app]. now eexists; eexists. }
    rewrite skip_ws_head by reflexivity. change (91 =? 123) with false.
    change (91 =? 91) with true. cbv iota.
    rewrite PE, HX, skip_ws_head, B by exact W. reflexivity.
  - rewrite stringify_members. rewrite size_members in Hfuel.
    apply every_members in Hv. destruct Hv as [Hk Hv].
    apply every_members in Hf. destruct Hf as [_ Hf].
    destruct members as [|[k v] members]; [reflexivity|].
    cbn [app]. rewrite <- List.app_assoc. cbn [app].
    set (X := join [44] (map member_text ((k, v) :: members)) ++ 125 :: rest).
    assert (parse_members fuel X = Some ((k, v) :: members, rest)) as PM.
    { apply parse_members_members; try assumption; try discriminate. lia. }
    assert (exists r', X = dquote :: r') as (r' & HX).
    { unfold X. cbn [map]. destruct members as [|m2 members].
      - cbn [join]. rewrite member_text_app. now eexists.
      - cbn [map]. rewrite join_cons, <- List.app_assoc, member_text_app. now eexists. }
    rewrite skip_ws_head by reflexivity. change (123 =? 123) with true. cbv iota.
    rewrite PM, HX, skip_ws_head by reflexivity.
    change (dquote =? 125) with false. cbv iota.
    cbn [option_map fst snd]. now rewrite object_of_ordered.
Qed.

Lemma length_join_ge (f : json -> wstring) (g : json -> nat) (items : list json) :
  Forall (fun x => g x <= length (f x))%nat items ->
  (list_sum (map (fun x => S (g x)) items) <= S (length (join [44%N] (map f items))))%nat.
Proof.
  induction items as [|x items IH]; intros H; [cbn; lia|].
  inversion H as [|? ? Hx Hl]; subst. specialize (IH Hl).
  destruct items as [|y items].
  - cbn. lia.
  - cbn [map]. rewrite join_cons, !length_app.
    cbn [map list_sum fold_right length] in *. lia.
Qed.

Lemma length_members_ge (members : list (wstring * json)) :
  Forall (fun m => size (snd m) <= length (stringify (snd m)))%nat members ->
  (members_size members <= S (length (join [44%N] (map member_text members))))%nat.
Proof.
  induction members as [|x members IH]; intros H; [unfold members_size; cbn; lia|].
  inversion H as [|? ? Hx Hl]; subst. specialize (IH Hl).
  assert (size (snd x) < length (member_text x))%nat as L.
  { destruct x as [k v]. unfold member_text, quote. cbn [fst snd] in *.
    rewrite !length_app. cbn [length]. lia. }
  unfold members_size in *.
  destruct members as [|y members].
  - cbn [map join list_sum fold_right]. lia.
  - cbn [map]. rewrite join_cons, !length_app.
    cbn [map list_sum fold_right length] in *. lia.
Qed.

Lemma size_le_length (v : json) :
  is_value v = true -> all_print v = true -> (size v <= length (stringify v))%nat.
Proof.
  induction v as [| b | x | s | items IH | members IH] using json_induction; intros Hv Hf.
  - cbn. lia.
  - destruct b; cbn; lia.
  - destruct (number_text_head x Hv Hf) as (c & r & E & _). cbn [stringify size].
    rewrite E. cbn. lia.
  - cbn. lia.
  - rewrite size_items, stringify_items.
    apply every_items in Hv. apply every_items in Hf.
    assert (Forall (fun x => size x <= length (stringify x))%nat items) as IH'.
    { rewrite Forall_forall in *. intros x Hx. apply IH; auto. }
    pose proof (length_join_ge stringify size items IH') as L.
    unfold items_size. cbn [length]. rewrite length_app. cbn [length]. lia.
  - rewrite size_members, stringify_members.
    apply every_members in Hv. destruct Hv as [_ Hv].
    apply every_members in Hf. destruct Hf as [_ Hf].
    assert (Forall (fun m => size (snd m) <= length (stringify (snd m)))%nat members) as IH'.
    { rewrite Forall_forall in *. intros x Hx. apply IH; auto. }
    pose proof (length_members_ge members IH') as L.
    cbn [length]. rewrite length_app. cbn [length]. lia.
Qed.

(** [JSON.parse(JSON.stringify(v))] is [v], for a value whose numbers are
    finite and not the negative zero. *)
Lemma parse_stringify (v : json) :
  is_value v = true -> all_print v = true -> parse (stringify v) = Some v.
Proof.
  intros Hv Hf. unfold parse.
  pose proof (parse_value_stringify v Hv Hf (S (length (stringify v))) []) as P.
  rewrite List.app_nil_r in P. rewrite P.
  - reflexivity.
  - pose proof (size_le_length v Hv Hf). lia.
  - reflexivity.
Qed.


(** *** What [JSON.parse] returns is a JavaScript value *)

Lemma replace_keys (k : wstring) (v : json) (o : list (wstring * json)) :
  map fst (replace k v o) = map fst o.
Proof.
  induction o as [|[k' v'] o IH]; cbn [replace map fst]; [reflexivity|].
  destruct (key_eqb k k') eqn:E; cbn [map fst].
  - apply key_eqb_eq in E. now subst.
  - now rewrite IH.
Qed.

Lemma insert_index_keys (p : wstring -> bool) (i : N) (k : wstring) (v : json)
      (o : list (wstring * json)) :
  forallb p (map fst (insert_index i k v o)) = true <->
  p k = true /\ forallb p (map fst o) = true.
Proof.
  induction o as [|[k' v'] o IH]; cbn [insert_index map fst forallb].
  - rewrite andb_true_iff. tauto.
  - destruct (array_index k') as [j|]; [destruct (j <=? i)|];
      cbn [map fst forallb]; rewrite ?andb_true_iff, ?IH; tauto.
Qed.

Lemma has_key_false (k : wstring) (o : list (wstring * json)) :
  has_key k o = false <-> forallb (fun k' => negb (key_eqb k k')) (map fst o) = true.
Proof.
  induction o as [|[k' v'] o IH]; cbn [has_key map fst forallb]; [tauto|].
  rewrite orb_false_iff, andb_true_iff, negb_true_iff, IH. tauto.
Qed.

Lemma insert_index_ordered (i : N) (k : wstring) (v : json) (o : list (wstring * json)) :
  array_index k = Some i -> has_key k o = false ->
  ordered_keys (map fst o) = true -> ordered_keys (map fst (insert_index i k v o)) = true.
Proof.
  intros Hk. induction o as [|[k' v'] o IH]; cbn [insert_index map fst has_key];
    [reflexivity|].
  rewrite orb_false_iff. intros [N H] O. cbn [ordered_keys] in O.
  apply andb_true_iff in O. destruct O as [O1 O2].
  assert (forall y, In y (map fst o) ->
                    negb (key_eqb k y) = true /\ negb (key_eqb k' y) && precedes k' y = true)
    as Each.
  { intros y Hy. apply has_key_false in H. rewrite forallb_forall in H, O1. auto. }
  assert (precedes k k' = true ->
          (forall y, In y (map fst o) -> precedes k y = true) ->
          ordered_keys (k :: k' :: map fst o) = true) as Front.
  { intros A B. cbn [ordered_keys forallb]. rewrite N, A, O1, O2. cbn [negb andb].
    rewrite andb_true_r. apply forallb_forall. intros y Hy.
    destruct (Each y Hy) as [E _]. apply andb_true_iff. split; [exact E | exact (B y Hy)]. }
  destruct (array_index k') as [j|] eqn:Ek'.
  - destruct (j <=? i) eqn:L; cbn [map fst].
    + cbn [ordered_keys]. rewrite (IH H O2), andb_true_r.
      apply insert_index_keys. split; [|exact O1].
      rewrite key_eqb_sym, N. unfold precedes. rewrite Ek', Hk. exact L.
    + apply N.leb_gt in L. apply Front.
      { unfold precedes. rewrite Hk, Ek'. apply N.leb_le. lia. }
      intros y Hy. destruct (Each y Hy) as [_ B].
      apply andb_true_iff in B. destruct B as [_ B]. unfold precedes in *.
      rewrite Hk. rewrite Ek' in B. destruct (array_index y) as [j'|]; [|reflexivity].
      apply N.leb_le in B. apply N.leb_le. lia.
  - cbn [map fst]. apply Front.
    { unfold precedes. now rewrite Hk, Ek'. }
    intros y Hy. destruct (Each y Hy) as [_ B].
    apply andb_true_iff in B. destruct B as [_ B]. unfold precedes in *.
    rewrite Hk. rewrite Ek' in B. destruct (array_index y); [discriminate B | reflexivity].
Qed.

(** Defining a property keeps the keys of an object in order. *)
Lemma set_member_ordered (k : wstring) (v : json) (o : list (wstring * json)) :
  ordered_keys (map fst o) = true -> ordered_keys (map fst (set_member k v o)) = true.
Proof.
  intros O. unfold set_member. destruct (has_key k o) eqn:H.
  - now rewrite replace_keys.
  - destruct (array_index k) as [i|] eqn:E; [now apply insert_index_ordered|].
    rewrite map_app. apply ordered_keys_app. split; [exact O|]. split; [reflexivity|].
    constructor; [|constructor]. apply has_key_false in H.
    apply forallb_forall. intros y Hy. rewrite forallb_forall in H. specialize (H y Hy).
    cbv beta in H. unfold before. cbn [fst]. rewrite key_eqb_sym, H. unfold precedes. rewrite E.
    destruct (array_index y); reflexivity.
Qed.

Lemma set_member_values (p : json -> Prop) (k : wstring) (v : json)
      (o : list (wstring * json)) :
  p v -> Forall (fun m => p (snd m)) o -> Forall (fun m => p (snd m)) (set_member k v o).
Proof.
  intros Hv Ho. unfold set_member. destruct (has_key k o).
  - induction Ho as [|[k' v'] o H Ho IH]; cbn [replace]; [constructor|].
    destruct (key_eqb k k'); constructor; auto.
  - destruct (array_index k) as [i|].
    + induction Ho as [|[k' v'] o H Ho IH]; cbn [insert_index].
      * constructor; [exact Hv | constructor].
      * destruct (array_index k') as [j|]; [destruct (j <=? i)|];
          repeat (constructor; auto).
    + apply Forall_app. split; [exact Ho|]. constructor; [exact Hv | constructor].
Qed.

Lemma object_of_is_value (members : list (wstring * json)) :
  Forall (fun m => is_value (snd m) = true) members ->
  is_value (JObj (object_of members)) = true.
Proof.
  intros H. apply every_members. unfold object_of.
  assert (forall acc,
             ordered_keys (map fst acc) = true ->
             Forall (fun m => is_value (snd m) = true) acc ->
             let o := fold_left (fun o m => set_member (fst m) (snd m) o) members acc in
             ordered_keys (map fst o) = true /\
             Forall (fun m => every Number.valid ordered_keys (snd m) = true) o) as G.
  { induction members as [|[k v] members IH]; intros acc Hn Hw; cbn [fold_left].
    - now split.
    - inversion H as [|? ? Hv Hl]; subst. apply IH; [exact Hl | |].
      + now apply set_member_ordered.
      + now apply (set_member_values (fun x => is_value x = true)). }
  apply G; [reflexivity | constructor].
Qed.

Ltac pick :=
  match goal with
  | H : context [match ?x with _ => _ end] |- _ =>
      let E := fresh "E" in destruct x eqn:E; try discriminate H
  | H : context [if ?x then _ else _] |- _ =>
      let E := fresh "E" in destruct x eqn:E; try discriminate H
  end.

Lemma parse_is_value (fuel : nat) :
  (forall s v r, parse_value fuel s = Some (v, r) -> is_value v = true) /\
  (forall s vs r, parse_elements fuel s = Some (vs, r) ->
                  Forall (fun x => is_value x = true) vs) /\
  (forall s ms r, parse_members fuel s = Some (ms, r) ->
                  Forall (fun m => is_value (snd m) = true) ms).
Proof.
  induction fuel as [|fuel (IHv & IHe & IHm)].
  - repeat split; intros; discriminate.
  - repeat split.
    + intros s v r H. rewrite parse_value_S in H.
      unfold option_map in H.
      repeat pick; injection H as <- <-;
        try match goal with p : (_ * _)%type |- _ => destruct p; cbn [fst snd] end;
        first [ reflexivity
              | apply object_of_is_value; eapply IHm; eassumption
              | apply every_items; eapply IHe; eassumption
              | eapply read_valid; eassumption ].
    + intros s vs r H. rewrite parse_elements_S in H.
      unfold option_map in H.
      repeat pick; injection H as <- <-;
        try match goal with p : (list json * wstring)%type |- _ => destruct p; cbn [fst snd] end;
        (constructor; [eapply IHv; eassumption|]);
        first [constructor | eapply IHe; eassumption].
    + intros s ms r H. rewrite parse_members_S in H.
      unfold option_map in H.
      repeat pick; injection H as <- <-;
        try match goal with
            | p : (list (wstring * json) * wstring)%type |- _ => destruct p; cbn [fst snd]
            end;
        (constructor; [cbn [snd]; eapply IHv; eassumption|]);
        first [constructor | eapply IHm; eassumption].
Qed.

(** What [JSON.parse] returns is a JavaScript value. *)
Lemma parse_gives_value (text : wstring) (v : json) :
  parse text = Some v -> is_value v = true.
Proof.
  unfold parse. intros H.
  destruct (parse_value (S (length text)) text) as [[v' r]|] eqn:E; [|discriminate].
  destruct (skip_ws r); [|discriminate]. injection H as <-.
  eapply (proj1 (parse_is_value _)). eassumption.
Qed.

(** *** [JSON.parse] never stops for want of steps *)

Section JsonSteps.
Local Open Scope nat_scope.

Lemma skip_ws_le (s : wstring) : length (skip_ws s) <= length s.
Proof.
  induction s as [|c s IH]; cbn [skip_ws]; [lia|].
  destruct (is_ws c); cbn [length]; lia.
Qed.

Lemma span_digits_le (s : wstring) : length (snd (Number.span_digits s)) <= length s.
Proof.
  induction s as [|c s IH]; cbn [Number.span_digits]; [cbn; lia|].
  destruct (Number.is_digit c); [|cbn; lia].
  destruct (Number.span_digits s) as [ds r]. cbn [snd length] in *. lia.
Qed.

Lemma read_int_lt (s : wstring) (ds : list Z) (r : wstring) :
  Number.read_int s = Some (ds, r) -> length r < length s.
Proof.
  destruct s as [|c s]; cbn [Number.read_int]; [discriminate|].
  destruct (c =? 48)%N; [intros H; injection H as <- <-; cbn; lia|].
  destruct (Number.is_digit c) eqn:D; [|discriminate].
  cbn [Number.span_digits]. rewrite D.
  generalize (span_digits_le s). destruct (Number.span_digits s) as [ds' r'].
  cbn [snd]. intros L H. injection H as <- <-. cbn [length]. lia.
Qed.

Lemma read_fraction_le (s : wstring) (ds : list Z) (r : wstring) :
  Number.read_fraction s = Some (ds, r) -> length r <= length s.
Proof.
  destruct s as [|c s]; cbn [Number.read_fraction].
  - intros H. injection H as <- <-. lia.
  - destruct (c =? 46)%N.
    + generalize (span_digits_le s). destruct (Number.span_digits s) as [[|d ds'] r'];
        [discriminate|].
      cbn [snd]. intros L H. injection H as <- <-. cbn [length]. lia.
    + intros H. injection H as <- <-. lia.
Qed.

Lemma read_exponent_le (s : wstring) (ex : Z) (r : wstring) :
  Number.read_exponent s = Some (ex, r) -> length r <= length s.
Proof.
  destruct s as [|c s]; cbn [Number.read_exponent].
  - intros H. injection H as <- <-. lia.
  - destruct ((c =? 101)%N || (c =? 69)%N).
    + assert (forall (b : bool) (t : wstring),
                 length t <= length s ->
                 match Number.span_digits t with
                 | ([], _) => None
                 | (ds, r0) =>
                     Some (if b then (- Number.value ds)%Z else Number.value ds, r0)
                 end = Some (ex, r) -> length r <= length (c :: s)) as G.
      { intros b t Lt. generalize (span_digits_le t).
        destruct (Number.span_digits t) as [[|d ds'] r']; [discriminate|].
        cbn [snd]. intros L H. injection H as _ <-. cbn [length]. lia. }
      destruct s as [|sign s']; [apply (G false); lia|].
      destruct (sign =? 45)%N; [apply (G true); cbn; lia|].
      destruct (sign =? 43)%N; apply (G false); cbn; lia.
    + intros H. injection H as <- <-. lia.
Qed.

Lemma read_lt (s : wstring) (x : Number.number) (r : wstring) :
  Number.read s = Some (x, r) -> length r < length s.
Proof.
  assert (forall (b : bool) (t : wstring),
             Number.read_unsigned b t = Some (x, r) -> length r < length t) as G.
  { intros b t. unfold Number.read_unsigned.
    destruct (Number.read_int t) as [[ints s1]|] eqn:E1; [|discriminate].
    destruct (Number.read_fraction s1) as [[fracs s2]|] eqn:E2; [|discriminate].
    destruct (Number.read_exponent s2) as [[ex s3]|] eqn:E3; [|discriminate].
    intros H. injection H as _ <-.
    apply read_int_lt in E1. apply read_fraction_le in E2. apply read_exponent_le in E3.
    lia. }
  destruct s as [|c s]; cbn [Number.read]; [discriminate|].
  destruct (c =? 45)%N; intros H; apply G in H; cbn [length] in *; lia.
Qed.

Lemma strip_prefix_le (p s r : wstring) :
  strip_prefix p s = Some r -> length r <= length s.
Proof.
  revert s. induction p as [|a p IH]; intros s; cbn [strip_prefix].
  - intros H. injection H as <-. lia.
  - destruct s as [|b s]; [discriminate|].
    destruct (a =? b)%N; [|discriminate]. intros H. apply IH in H. cbn [length]. lia.
Qed.

Lemma parse_chars_lt (n : nat) :
  forall (s str r : wstring),
    length s <= n -> parse_chars s = Some (str, r) -> length r < length s.
Proof.
  induction n as [|n IH]; intros s str r Ln H.
  - destruct s; [discriminate H | cbn in Ln; lia].
  - destruct s as [|c s]; [discriminate H|]. cbn [parse_chars] in H. cbn [length] in *.
    assert (forall (u : N) (t : wstring),
               length t <= n -> cons_unit u (parse_chars t) = Some (str, r) ->
               length r < length t) as G.
    { intros u t Lt Hc. unfold cons_unit, option_map in Hc.
      destruct (parse_chars t) as [[str' r']|] eqn:E; [|discriminate].
      injection Hc as _ <-. exact (IH t str' r' Lt E). }
    destruct (c =? dquote)%N; [injection H as _ <-; lia|].
    destruct (c =? backslash)%N.
    + destruct s as [|e s']; [discriminate|]. cbn [length] in *.
      repeat match type of H with
             | (if ?b then _ else _) = _ =>
                 destruct b; [apply G in H; [lia | lia]|]
             end.
      destruct (e =? 117)%N; [|discriminate].
      destruct s' as [|h1 [|h2 [|h3 [|h4 s'']]]]; try discriminate.
      destruct (unicode_unit h1 h2 h3 h4); [|discriminate].
      apply G in H; cbn [length] in *; lia.
    + destruct (c <? 32)%N; [discriminate|]. apply G in H; lia.
Qed.

Lemma parse_chars_shorter (s str r : wstring) :
  parse_chars s = Some (str, r) -> length r < length s.
Proof. exact (parse_chars_lt (length s) s str r (le_n _)). Qed.

Ltac lengths :=
  repeat match goal with
         | E : skip_ws ?s = _ |- _ =>
             generalize (skip_ws_le s); rewrite E; cbn [length]; intro;
             revert E
         | E : parse_chars _ = Some (_, _) |- _ =>
             generalize (parse_chars_shorter _ _ _ E); intro; revert E
         | E : strip_prefix _ _ = Some _ |- _ =>
             generalize (strip_prefix_le _ _ _ E); intro; revert E
         | E : Number.read _ = Some (_, _) |- _ =>
             generalize (read_lt _ _ _ E); cbn [length]; intro; revert E
         end;
  intros.

Ltac replay :=
  repeat match goal with
         | E : ?x = _ |- context [?x] => rewrite E
         end.

(** A text that is read with some number of steps is read, to the same
    result, with any number of steps that is at least the number of
    characters read. *)
Lemma parse_steps (fuel : nat) :
  (forall s v r, parse_value fuel s = Some (v, r) ->
     length r < length s /\
     forall fuel', length s - length r <= fuel' -> parse_value fuel' s = Some (v, r)) /\
  (forall s vs r, parse_elements fuel s = Some (vs, r) ->
     length r < length s /\
     forall fuel', length s - length r <= fuel' -> parse_elements fuel' s = Some (vs, r)) /\
  (forall s ms r, parse_members fuel s = Some (ms, r) ->
     length r < length s /\
     forall fuel', length s - length r <= fuel' -> parse_members fuel' s = Some (ms, r)).
Proof.
  induction fuel as [|fuel (IHv & IHe & IHm)].
  - repeat split; intros; discriminate.
  - split; [|split].
    + intros s v r H. rewrite parse_value_S in H. unfold option_map in H.
      repeat pick; injection H as <- <-;
        try match goal with p : (_ * _)%type |- _ => destruct p; cbn [fst snd] in * end;
        try match goal with
            | E : parse_members fuel _ = Some _ |- _ => destruct (IHm _ _ _ E) as [? ?]
            | E : parse_elements fuel _ = Some _ |- _ => destruct (IHe _ _ _ E) as [? ?]
            end;
        lengths;
        (split; [lia|]); intros [|f] Lf; try lia;
        rewrite parse_value_S; replay; unfold option_map;
        try match goal with
            | G : forall fuel', _ -> parse_members fuel' ?t = _ |- _ => rewrite (G f) by lia
            | G : forall fuel', _ -> parse_elements fuel' ?t = _ |- _ => rewrite (G f) by lia
            end;
        reflexivity.
    + intros s vs r H. rewrite parse_elements_S in H. unfold option_map in H.
      repeat pick; injection H as <- <-;
        try match goal with p : (list json * wstring)%type |- _ =>
                  destruct p; cbn [fst snd] in * end;
        match goal with
        | E : parse_value fuel _ = Some _ |- _ => destruct (IHv _ _ _ E) as [? Gv]
        end;
        try match goal with
            | E : parse_elements fuel _ = Some _ |- _ => destruct (IHe _ _ _ E) as [? Ge]
            end;
        lengths;
        (split; [lia|]); intros [|f] Lf; try lia;
        rewrite parse_elements_S; rewrite (Gv f) by lia; replay; unfold option_map;
        try rewrite (Ge f) by lia;
        reflexivity.
    + intros s ms r H. rewrite parse_members_S in H. unfold option_map in H.
      repeat pick; injection H as <- <-;
        try match goal with p : (list (wstring * json) * wstring)%type |- _ =>
                  destruct p; cbn [fst snd] in * end;
        match goal with
        | E : parse_value fuel _ = Some _ |- _ => destruct (IHv _ _ _ E) as [? Gv]
        end;
        try match goal with
            | E : parse_members fuel _ = Some _ |- _ => destruct (IHm _ _ _ E) as [? Gm]
            end;
        lengths;
        (split; [lia|]); intros [|f] Lf; try lia;
        rewrite parse_members_S; replay; rewrite (Gv f) by lia; replay; unfold option_map;
        try rewrite (Gm f) by lia;
        reflexivity.
Qed.

(** The steps [JSON.parse] allows itself are enough: a text that is a JSON
    value for some number of steps is one for [parse]. *)
Lemma parse_complete (text : wstring) (v : json) :
  parse text = Some v <->
  exists (fuel : nat) (rest : wstring),
    parse_value fuel text = Some (v, rest) /\ skip_ws rest = [].
Proof.
  unfold parse. split.
  - intros H.
    destruct (parse_value (S (length text)) text) as [[v' r]|] eqn:E; [|discriminate].
    destruct (skip_ws r) eqn:R; [|discriminate]. injection H as <-.
    exists (S (length text)), r. now split.
  - intros (fuel & rest & H & R).
    destruct (proj1 (parse_steps fuel) text v rest H) as [L G].
    rewrite (G (S (length text))) by lia. now rewrite R.
Qed.

End JsonSteps.

End JsonRoundTrip.

(** ** Stored records *)

Section Records.
Import Js Json Types.

Lemma is_value_to_json (r : Resume) :
  is_value (feedback r) = true -> is_value (to_json r) = true.
Proof.
  intros H. apply every_members. split; [reflexivity|].
  repeat (constructor; [first [exact H | reflexivity]|]). constructor.
Qed.

Lemma all_print_to_json (r : Resume) :
  all_print (feedback r) = true -> all_print (to_json r) = true.
Proof.
  intros H. apply every_members. split; [reflexivity|].
  repeat (constructor; [first [exact H | reflexivity]|]). constructor.
Qed.

Lemma of_json_to_json (r : Resume) : of_json (to_json r) = Some r.
Proof. destruct r; reflexivity. Qed.

Lemma parse_serialize (r : Resume) :
  is_value (feedback r) = true -> all_print (feedback r) = true ->
  Json.parse (serialize r) = Some (to_json r).
Proof.
  intros V P. apply parse_stringify; [now apply is_value_to_json | now apply all_print_to_json].
Qed.

Lemma deserialize_serialize (r : Resume) :
  is_value (feedback r) = true -> all_print (feedback r) = true ->
  deserialize (serialize r) = Some r.
Proof.
  intros V P. unfold deserialize. rewrite parse_serialize by assumption.
  apply of_json_to_json.
Qed.

(** C9, as amended.  Writing a record in its JSON storage form and parsing
    that text back gives a record equal to the original, field for field,
    both when its feedback is still the empty string and when it is a
    feedback object, provided every number in the feedback is finite and
    none is the negative zero.  ([is_value] holds of every JavaScript
    value: numbers are binary64 values and objects list their keys in
    their own order.) *)
Theorem record_round_trip :
  forall r : Resume,
    feedback r = JStr [] \/
    (is_value (feedback r) = true /\ all_print (feedback r) = true) ->
    Json.parse (serialize r) = Some (to_json r) /\
    deserialize (serialize r) = Some r.
Proof.
  intros r H.
  assert (is_value (feedback r) = true /\ all_print (feedback r) = true) as [V P].
  { destruct H as [->|H]; [split; reflexivity | exact H]. }
  split; [now apply parse_serialize | now apply deserialize_serialize].
Qed.

Lemma record_round_trip_witness :
  Json.parse (serialize Session.record) = Some (to_json Session.record) /\
  deserialize (serialize Session.record) = Some Session.record.
Proof.
  apply (record_round_trip Session.record).
  right. split; vm_compute; reflexivity.
Defined.

(** C9, as stated, fails.  A score beyond the greatest number is read from
    the answer of the AI as [Infinity], written as [null] and read back as
    [null]; the negative zero is written as [0] and read back as the
    positive zero. *)
Lemma unprintable_scores_are_lost :
  let r := with_feedback Scenarios.overflow_feedback Session.record in
  let z := with_feedback Scenarios.minus_zero_feedback Session.record in
  (Json.parse Scenarios.overflow_answer = Some (feedback r) /\
   deserialize (serialize r)
   = Some (with_feedback (JObj [(wide "overallScore", JNull)]) Session.record) /\
   deserialize (serialize r) <> Some r) /\
  (Json.parse Scenarios.minus_zero_answer = Some (feedback z) /\
   deserialize (serialize z)
   = Some (with_feedback
             (JObj [(wide "overallScore", JNum (SpecFloat.S754_zero false))])
             Session.record) /\
   deserialize (serialize z) <> Some z).
Proof.
  split; (split; [vm_compute; reflexivity|]);
    (split; [vm_compute; reflexivity|]); vm_compute; discriminate.
Qed.

End Records.

(** ** The converter *)

Section Converter.
Import Js Async Pdf2Img.

Ltac failed_run :=
  let HR := fresh in
  let HF := fresh in
  intros HR HF; first [discriminate HR | injection HR as <-; discriminate HF].

Ltac answer h :=
  match goal with
  | |- context [h ?Y ?c ?w] =>
      let r := fresh "r" in
      let w' := fresh "w" in
      let E := fresh "E" in
      destruct (h Y c w) as [r w'] eqn:E; destruct r; cbn; try failed_run
  end.

(** A conversion that yields a file went all the way to [toBlob]; its
    result is the one built there. *)
Lemma convert_success :
  forall (W : Type) (h : handler pdf_call W) (f : File) (s : State) (w : W),
    let out := run h (convertPdfToImage f) s w in
    forall (res : PdfConversionResult) (image : File),
      returned out = Ok res -> file res = Some image ->
      exists (blob : Blob) (url : BlobUrl),
        In (Event (URL_createObjectURL blob) (Ok url)) (trace out) /\
        res = {| imageUrl := blob_url url;
                 file := Some (new_File blob (replace_pdf_ext (file_name f) ++ ".png")
                                        "image/png");
                 error := None |}.
Proof.
  intros W h f s w out res image. subst out.
  unfold convertPdfToImage, loadPdfJs. cbn.
  destruct (decide s) as [lib|p|]; cbn.
  all: repeat first
         [ answer h
         | match goal with
           | |- context [match ?x with Some _ => _ | None => _ end] =>
               destruct x; cbn; try failed_run
           end ].
  all: intros HR HF; injection HR as <-.
  all: eexists; eexists; split; [|reflexivity].
  all: repeat first [left; reflexivity | right].
Qed.

(** C8. For an input whose name ends in ".pdf", a conversion that succeeds
    returns a file named as the input with that ".pdf" replaced by ".png",
    and an image URL that is not empty: the [blob:] URL minted for the blob
    the file is made of. *)
Theorem convert_pdf_name_and_url :
  forall (W : Type) (h : handler pdf_call W) (f : File) (s : State) (w : W)
         (base : string) (res : PdfConversionResult) (image : File),
    file_name f = base ++ ".pdf" ->
    returned (run h (convertPdfToImage f) s w) = Ok res ->
    file res = Some image ->
    file_name image = base ++ ".png" /\
    imageUrl res <> "" /\
    exists (blob : Blob) (url : BlobUrl),
      In (Event (URL_createObjectURL blob) (Ok url))
         (trace (run h (convertPdfToImage f) s w)) /\
      imageUrl res = blob_url url /\
      image = new_File blob (base ++ ".png") "image/png".
Proof.
  intros W h f s w base res image Hname HR HF.
  destruct (convert_success W h f s w res image HR HF) as (blob & url & Hin & ->).
  simpl in HF. injection HF as <-.
  rewrite Hname, (replace_pdf_ext_app base ".pdf" eq_refl).
  split; [reflexivity|]. split; [discriminate|].
  exists blob, url. repeat split. exact Hin.
Qed.

Lemma convert_pdf_name_and_url_witness :
  exists (res : PdfConversionResult) (image : File),
    returned (run Runtime.on_pdf (convertPdfToImage Session.cv) initial_state
                  (Session.browser Session.critique)) = Ok res /\
    file res = Some image /\
    file_name image = "resume.png" /\
    imageUrl res <> "".
Proof.
  pose proof (convert_pdf_name_and_url _ Runtime.on_pdf Session.cv initial_state
                (Session.browser Session.critique) "resume" _ _
                eq_refl eq_refl eq_refl) as (N & U & _).
  eexists. eexists. split; [reflexivity|]. split; [reflexivity|].
  split; [exact N | exact U].
Defined.

(** C10. For an input whose name does not end in ".pdf" in any letter
    case, a conversion that succeeds names its file with the whole input
    name followed by ".png"; and of a name that does end so, only that one
    trailing extension goes: what comes before it is kept entire. *)
Theorem convert_other_names :
  forall (W : Type) (h : handler pdf_call W) (f : File) (s : State) (w : W)
         (res : PdfConversionResult) (image : File),
    returned (run h (convertPdfToImage f) s w) = Ok res ->
    file res = Some image ->
    ((forall base ext, file_name f = base ++ ext -> is_pdf_ext ext = false) ->
     file_name image = file_name f ++ ".png") /\
    (forall base ext, file_name f = base ++ ext -> is_pdf_ext ext = true ->
     file_name image = base ++ ".png").
Proof.
  intros W h f s w res image HR HF.
  destruct (convert_success W h f s w res image HR HF) as (blob & url & _ & ->).
  simpl in HF. injection HF as <-. simpl. split.
  - intros H. now rewrite (replace_pdf_ext_none _ H).
  - intros base ext -> H. now rewrite (replace_pdf_ext_app base ext H).
Qed.

Lemma convert_other_names_witness :
  exists (res : PdfConversionResult) (image : File),
    returned (run Runtime.on_pdf (convertPdfToImage Session.scan) initial_state
                  (Session.browser Session.critique)) = Ok res /\
    file res = Some image /\
    file_name image = "scan.png".
Proof.
  pose proof (convert_other_names _ Runtime.on_pdf Session.scan initial_state
                (Session.browser Session.critique) _ _ eq_refl eq_refl) as (N & _).
  eexists. eexists. split; [reflexivity|]. split; [reflexivity|].
  apply N. intros base ext E.
  destruct base as [|a [|b [|c [|d [|e base]]]]]; simpl in E;
    inversion E; subst; reflexivity.
Defined.

Lemma imports_cases (p : Process) :
  single_load p ->
  (imports p = 0 /\ vars p = initial_state /\ in_flight p = false /\ answers p = []) \/
  (imports p = 1 /\ loadPromise (vars p) = Some (PromiseId 0)).
Proof.
  intros (Hle & H0 & H1 & _).
  destruct (imports p) as [|[|n]]; [left | right | lia].
  - destruct (H0 eq_refl) as (V & F & A). now repeat split.
  - split; [reflexivity | now apply H1].
Qed.

Lemma step_single_load (a : action) (p : Process) :
  single_load p -> single_load (step a p).
Proof.
  intros H. pose proof (imports_cases p H) as C.
  destruct H as (Hle & H0 & H1 & Hf & Ha).
  unfold single_load, from_single_load in *.
  destruct a as [|lib|]; unfold step.
  - unfold decide.
    destruct (pdfjsLib (vars p)) as [lib|] eqn:EL;
      [|destruct (loadPromise (vars p)) as [q|] eqn:EP].
    + destruct C as [(E0 & V & _)|(E1 & P)];
        [rewrite V in EL; discriminate|].
      cbn. rewrite EL, E1.
      split; [lia|]. split; [discriminate|]. split; [intros _; exact P|].
      split; [exact Hf|].
      constructor; [right; now exists lib | exact Ha].
    + destruct C as [(E0 & V & _)|(E1 & P)];
        [rewrite V in EP; discriminate|].
      cbn. rewrite EL, EP, E1.
      split; [lia|]. split; [discriminate|]. split; [intros _; exact P|].
      split; [reflexivity|].
      constructor; [left; congruence | exact Ha].
    + destruct C as [(E0 & V & F & A)|(E1 & P)]; [|congruence].
      cbn. rewrite EL, E0, A.
      split; [lia|]. split; [discriminate|]. split; [reflexivity|].
      split; [reflexivity|].
      constructor; [now left | constructor].
  - destruct (in_flight p) eqn:F;
      [|split; [|split; [|split; [|split]]]; rewrite ?F; assumption].
    destruct C as [(_ & _ & F' & _)|(E1 & P)]; [congruence|].
    cbn. rewrite E1.
    split; [lia|]. split; [discriminate|]. split; [intros _; exact P|].
    split; [discriminate|].
    specialize (Hf eq_refl).
    eapply Forall_impl; [|exact Ha].
    intros a [->|(l & _ & E)]; [now left | congruence].
  - destruct (in_flight p) eqn:F;
      [|split; [|split; [|split; [|split]]]; rewrite ?F; assumption].
    destruct C as [(_ & _ & F' & _)|(E1 & P)]; [congruence|].
    cbn. rewrite E1.
    split; [lia|]. split; [discriminate|]. split; [intros _; exact P|].
    split; [discriminate|]. exact Ha.
Qed.

Lemma exec_single_load (actions : list action) (p : Process) :
  single_load p -> single_load (exec actions p).
Proof.
  revert p. induction actions as [|a actions IH]; intros p H; simpl.
  - exact H.
  - apply IH. now apply step_single_load.
Qed.

Lemma initial_single_load : single_load initial_process.
Proof.
  repeat split; simpl; try lia; try discriminate. constructor.
Qed.

Lemma exec_calls (n : nat) :
  let p := exec (repeat CallConvert (S n)) initial_process in
  imports p = 1 /\ in_flight p = true /\
  vars p = begin_import (PromiseId 0) initial_state /\
  answers p = repeat (HandedPromise (PromiseId 0)) (S n).
Proof.
  induction n as [|n IH].
  - repeat split.
  - cbn zeta in *. 
    replace (repeat CallConvert (S (S n)))
      with (repeat CallConvert (S n) ++ [CallConvert])%list
      by (rewrite <- repeat_cons; reflexivity).
    unfold exec in *. rewrite fold_left_app. cbn [fold_left].
    destruct IH as (I & F & V & A).
    remember (fold_left (fun q a => step a q) (repeat CallConvert (S n)) initial_process)
      as p eqn:Ep. clear Ep.
    unfold step. rewrite V. cbn. rewrite ?I, ?F, ?V, ?A. repeat split.
Qed.

(** C6. The module load is started at most once, however calls to
    [convert()] and the settling of the load interleave: every call is
    handed the one load promise or the module cached from it; in
    particular any number of calls issued before the first load completes
    start one import and share its promise. *)
Theorem loads_at_most_once :
  forall actions : list action,
    let p := exec actions initial_process in
    imports p <= 1 /\
    Forall (from_single_load p) (answers p) /\
    (forall n : nat,
        let q := exec (repeat CallConvert (S (S n))) initial_process in
        imports q = 1 /\
        answers q = repeat (HandedPromise (PromiseId 0)) (S (S n))).
Proof.
  intros actions p.
  destruct (exec_single_load actions initial_process initial_single_load)
    as (Hle & _ & _ & _ & Ha).
  repeat split; try assumption; destruct (exec_calls (S n)) as (I & _ & _ & A); assumption.
Qed.

End Converter.


(** ** The Puter store *)

Section Store.
Import Js Async Puter.

(** With the runtime present, an operation whose call to the runtime is
    rejected rejects with the same error; the store is left as it was, and
    the runtime has been called once. *)
Lemma backend_rejection_propagates :
  forall (X : Type) (op : facade_op X) (W : Type) (h : handler puter_call W)
         (s : PuterStore) (w w1 w2 : W) (err : exn),
    h bool window_puter w = (Ok true, w1) ->
    rejection h w1 (backend_call op) = Some (err, w2) ->
    let out := run h (perform op) s w in
    returned out = Rejected err /\
    final out = s /\
    world out = w2 /\
    trace out = [Event window_puter (Ok true); rejected (backend_call op) err].
Proof.
  intros X op W h s w w1 w2 err H R.
  destruct op; simpl in *; rewrite H; simpl;
    match goal with
    | |- context [h ?Y ?c w1] => destruct (h Y c w1) as [[x|e] w'] eqn:E
    end; try discriminate R; injection R as -> ->; simpl; repeat split; reflexivity.
Qed.

(** C2. With the service rejecting requests, [fs.write] called from a
    signed-in store rejects with the service's error and leaves the store
    as it was: the error string stays [null], the user stays signed in.
    The runtime was asked once. *)
Theorem write_rejection_leaves_store :
  let out := run Runtime.on_puter
                 (perform (Fs_write "/resume.pdf" (DataFile Session.cv)))
                 Session.store_of_alice Session.browser_offline in
  returned out = Rejected Runtime.network_error /\
  error (final out) = None /\
  user (auth (final out)) = Some Session.alice /\
  isAuthenticated (auth (final out)) = true /\
  length (filter is_backend_call (trace out)) = 1.
Proof. repeat split. Qed.

(** C4. Whenever the runtime object is missing at the time of the call,
    every exposed operation fails at once: the error "Puter.js not
    available" is set (and the user cleared), [undefined] is returned, and
    nothing but the look for the runtime object is done.  The store's
    [puterReady] flag plays no part. *)
Theorem facade_unavailable :
  forall (X : Type) (op : facade_op X) (W : Type) (h : handler puter_call W)
         (s : PuterStore) (w w1 : W),
    h bool window_puter w = (Ok false, w1) ->
    let out := run h (perform op) s w in
    returned out = Ok (undefined op) /\
    final out = with_error "Puter.js not available" s /\
    world out = w1 /\
    trace out = [Event window_puter (Ok false)] /\
    filter is_backend_call (trace out) = [].
Proof.
  intros X op W h s w w1 H.
  destruct op; simpl; rewrite H; simpl; repeat split; reflexivity.
Qed.

Lemma facade_unavailable_witness :
  let out := run Runtime.on_puter (perform (Kv_list "resume:*" (Some true)))
                 initial_store Session.browser_without_puter in
  returned out = Ok None /\
  final out = with_error "Puter.js not available" initial_store /\
  world out = Session.browser_without_puter /\
  trace out = [Event window_puter (Ok false)] /\
  filter is_backend_call (trace out) = [].
Proof.
  apply (facade_unavailable _ (Kv_list "resume:*" (Some true)) _ Runtime.on_puter
           initial_store Session.browser_without_puter Session.browser_without_puter).
  reflexivity.
Defined.

(** C4, as stated, fails: in the store as [create] returns it readiness has
    not been established, yet with the Puter script loaded [fs.write] goes
    through to the runtime and sets no error.  The same happens in a store
    whose [init] timed out, once the script arrives late. *)
Lemma write_before_ready :
  let out := run Runtime.on_puter
                 (perform (Fs_write "/resume.pdf" (DataFile Session.cv)))
                 initial_store (Session.browser Session.critique) in
  let timed_out :=
    final (run Runtime.on_puter (init ;; init_timeout)%prog
               initial_store Session.browser_without_puter) in
  let late := run Runtime.on_puter
                  (perform (Fs_write "/resume.pdf" (DataFile Session.cv)))
                  timed_out (Session.browser Session.critique) in
  puterReady initial_store = false /\
  puterReady (final out) = false /\
  error (final out) = None /\
  returned out <> Ok (undefined (Fs_write "/resume.pdf" (DataFile Session.cv))) /\
  existsb is_backend_call (trace out) = true /\
  puterReady timed_out = false /\
  returned late <> Ok (undefined (Fs_write "/resume.pdf" (DataFile Session.cv))) /\
  existsb is_backend_call (trace late) = true.
Proof.
  repeat split; discriminate.
Qed.

(** C5. [refreshUser()] fetches the user.  When the fetch succeeds the
    fetched user is stored and the authenticated flag is set to [true],
    whatever it was; when the fetch fails the store falls back to no user,
    not authenticated, with the error set; and when the runtime object is
    missing it falls back the same way without fetching. *)
Theorem refreshUser_outcome :
  forall (W : Type) (h : handler puter_call W) (s : PuterStore) (w : W),
    let out := run h refreshUser s w in
    (forall w1 u w2,
        h bool window_puter w = (Ok true, w1) ->
        h PuterUser puter_auth_getUser w1 = (Ok u, w2) ->
        user (auth (final out)) = Some u /\
        isAuthenticated (auth (final out)) = true /\
        error (final out) = None) /\
    (forall w1 err w2,
        h bool window_puter w = (Ok true, w1) ->
        h PuterUser puter_auth_getUser w1 = (Rejected err, w2) ->
        user (auth (final out)) = None /\
        isAuthenticated (auth (final out)) = false /\
        error (final out) = Some (message_or "Failed to refresh user" err)) /\
    (forall w1,
        h bool window_puter w = (Ok false, w1) ->
        user (auth (final out)) = None /\
        isAuthenticated (auth (final out)) = false /\
        error (final out) = Some "Puter.js not available" /\
        trace out = [Event window_puter (Ok false)]).
Proof.
  intros W h s w out. subst out. unfold refreshUser. simpl.
  repeat split; intros;
    repeat match goal with H : h _ _ _ = _ |- _ => rewrite H; clear H; simpl end;
    reflexivity.
Qed.

Lemma refreshUser_outcome_witness :
  let out := run Runtime.on_puter refreshUser Session.store_of_alice
                 Session.browser_offline in
  user (auth (final out)) = None /\
  isAuthenticated (auth (final out)) = false /\
  error (final out) = Some "Network error".
Proof.
  apply (proj1 (proj2 (refreshUser_outcome _ Runtime.on_puter Session.store_of_alice
                         Session.browser_offline))
           Session.browser_offline Runtime.network_error Session.browser_offline);
    reflexivity.
Defined.

(** C5, as stated, fails: from a store that is not authenticated a
    successful refresh leaves it authenticated. *)
Lemma refreshUser_flips_flag :
  let out := run Runtime.on_puter refreshUser initial_store
                 (Session.browser Session.critique) in
  isAuthenticated (auth initial_store) = false /\
  returned out = Ok tt /\
  error (final out) = None /\
  isAuthenticated (auth (final out)) = true.
Proof. repeat split. Qed.

End Store.


(** ** The key-value service and the listing *)

Section Listing.
Import Js Puter.

Lemma set_stores (key : string) (value : wstring) (st : PuterKv.store) :
  In (key, value) (PuterKv.set key value st).
Proof.
  induction st as [|[k v] st IH]; simpl.
  - now left.
  - destruct (String.eqb key k); [now left | right; exact IH].
Qed.

Lemma list_finds (pattern key : string) (value : wstring) (st : PuterKv.store) :
  PuterKv.glob pattern key = true -> In (key, value) st ->
  In {| kv_key := key; kv_value := value |} (PuterKv.list pattern st).
Proof.
  intros G I. unfold PuterKv.list.
  apply (in_map (fun kv => {| kv_key := fst kv; kv_value := snd kv |}) _ (key, value)).
  apply filter_In. split; [exact I | exact G].
Qed.

(** Every key the pipeline writes is one the home page asks for. *)
Lemma listing_pattern_matches (uuid : string) :
  PuterKv.glob Home.listing_pattern ("resume:" ++ uuid) = true.
Proof. reflexivity. Qed.

Lemma parse_values_finds (values : list wstring) (parsed : list Json.json)
      (value : wstring) (j : Json.json) :
  Home.parse_values values = Some parsed ->
  In value values -> Json.parse value = Some j -> In j parsed.
Proof.
  revert parsed. induction values as [|v values IH]; intros parsed HP HI HJ.
  - destruct HI.
  - simpl in HP.
    destruct (Json.parse v) as [jv|] eqn:EV; [|discriminate].
    destruct (Home.parse_values values) as [js|] eqn:ER; [|discriminate].
    injection HP as <-. destruct HI as [->|HI].
    + left. congruence.
    + right. now apply IH.
Qed.

Lemma parse_values_total (values : list wstring) :
  Forall (fun v => Json.parse v <> None) values ->
  exists parsed, Home.parse_values values = Some parsed.
Proof.
  induction values as [|v values IH]; intros H.
  - now exists [].
  - inversion H as [|? ? Hv Hl]; subst. destruct (IH Hl) as (js & E).
    simpl. rewrite E. destruct (Json.parse v) as [j|]; [now eexists | congruence].
Qed.

(** The home page shows what the listing returns: an entry whose value
    parses is among the records it sets, provided no other entry of the
    listing fails to parse. *)
Lemma loadResumes_shows :
  forall (W : Type) (h : Async.handler App.app_call W) (s : Home.State) (w w1 : W)
         (items : list KVItem) (key : string) (value : wstring) (j : Json.json),
    h _ (App.facade (Kv_list Home.listing_pattern (Some true))) w
      = (Js.Ok (Some (KVItems items)), w1) ->
    In {| kv_key := key; kv_value := value |} items ->
    Json.parse value = Some j ->
    Forall (fun i => Json.parse (kv_value i) <> None) items ->
    let out := Async.run h Home.loadResumes s w in
    In j (Home.resumes (Async.final out)) /\
    Home.loadingResumes (Async.final out) = false.
Proof.
  intros W h s w w1 items key value j H HI HJ HA out. subst out.
  unfold Home.loadResumes. cbn. rewrite H. cbn.
  destruct (parse_values_total (map kv_value items)) as (parsed & E).
  { apply Forall_map. exact HA. }
  rewrite E. cbn. split; [|reflexivity].
  apply (parse_values_finds (map kv_value items) parsed value j E); [|exact HJ].
  apply (in_map kv_value _ _ HI).
Qed.

End Listing.

(** ** The analysis pipeline *)

Section Pipeline.
Import Js Async Json Puter Pdf2Img Types App Upload.

Ltac answer h :=
  match goal with
  | |- context [h ?Y ?c ?w] =>
      let r := fresh "r" in
      let w' := fresh "w" in
      let E := fresh "E" in
      destruct (h Y c w) as [r w'] eqn:E; destruct r; cbn -[stringify wide];
      try (intros; discriminate)
  end.

(** A run that ends with the status "Analysis complete, redirecting..."
    made exactly these calls, with these answers. *)
Lemma handleAnalyze_complete :
  forall (prepareInstructions : string -> string -> string)
         (W : Type) (h : handler app_call W)
         (companyName jobTitle jobDescription : string) (file : File)
         (s : State) (w : W),
    let out :=
      run h (handleAnalyze prepareInstructions companyName jobTitle jobDescription file)
          s w in
    statusText (final out) = "Analysis complete, redirecting..." ->
    exists uploadedFile imageFile image uploadedImage uuid r1 answer text parsed r2 r3,
      let data :=
        {| id := wide uuid;
           resumePath := wide (fs_path uploadedFile);
           imagePath := wide (fs_path uploadedImage);
           companyName := wide companyName;
           jobTitle := wide jobTitle;
           jobDescription := wide jobDescription;
           feedback := JStr [] |} in
      Pdf2Img.file imageFile = Some image /\
      feedbackText answer = Ok text /\
      JSON_parse text = Ok parsed /\
      trace out =
        [ Event (facade (Fs_upload (UploadFiles [file]))) (Ok (Some uploadedFile));
          Event (convert file) (Ok imageFile);
          Event (facade (Fs_upload (UploadFiles [image]))) (Ok (Some uploadedImage));
          Event generateUUID (Ok uuid);
          Event (facade (Kv_set ("resume:" ++ uuid) (serialize data))) (Ok r1);
          Event (facade (Ai_feedback (fs_path uploadedFile)
                                     (prepareInstructions jobTitle jobDescription)))
                (Ok (Some answer));
          Event (facade (Kv_set ("resume:" ++ uuid)
                                (serialize (with_feedback parsed data))))
                (Ok r2);
          Event (navigate ("/resume/" ++ uuid)) r3 ].
Proof.
  intros prepare W h cn jt jd file s w out. subst out.
  unfold handleAnalyze, serialize. cbn -[stringify wide].
  answer h. destruct x as [uploadedFile|]; cbn -[stringify wide]; try (intros; discriminate).
  answer h. destruct (Pdf2Img.file x) as [image|] eqn:EI; cbn -[stringify wide];
    try (intros; discriminate).
  answer h. destruct x0 as [uploadedImage|]; cbn -[stringify wide];
    try (intros; discriminate).
  answer h. rename x0 into uuid.
  answer h. rename x0 into r1.
  answer h. destruct x0 as [answer|]; cbn -[stringify wide]; try (intros; discriminate).
  destruct (feedbackText answer) as [text|] eqn:ET; cbn -[stringify wide];
    try (intros; discriminate).
  destruct (JSON_parse text) as [parsed|] eqn:EP; cbn -[stringify wide];
    try (intros; discriminate).
  answer h. rename x0 into r2.
  match goal with
  | |- context [h ?Y ?c ?w] => destruct (h Y c w) as [r3 w7] eqn:EN
  end.
  intros _.
  exists uploadedFile, x, image, uploadedImage, uuid, r1, answer, text, parsed, r2, r3.
  cbn -[stringify wide]. repeat split; try assumption.
  destruct r3; reflexivity.
Qed.

Lemma undefined_is_not_json : Json.parse (wide "undefined") = None.
Proof. reflexivity. Qed.

(** The text that [JSON.parse] is given and accepts: the content of the
    answer when that is a string, the text of its first part otherwise. *)
Lemma parsed_text (answer : AIResponse) (text : wstring) (parsed : json) :
  feedbackText answer = Ok text -> JSON_parse text = Ok parsed ->
  (message_content answer = AnswerString text \/
   exists part rest, message_content answer = AnswerParts (part :: rest) /\
                     part_text part = Some text) /\
  Json.parse text = Some parsed.
Proof.
  unfold feedbackText, JSON_parse. intros HT HP.
  assert (Json.parse text = Some parsed) as P.
  { destruct (Json.parse text); [now injection HP as -> | discriminate]. }
  split; [|exact P].
  destruct (message_content answer) as [s|[|part rest]]; [| discriminate |].
  - left. now injection HT as ->.
  - right. exists part, rest. split; [reflexivity|].
    destruct (part_text part) as [t|]; [now injection HT as ->|].
    injection HT as <-. change (Json.parse (wide "undefined") = Some parsed) in P.
    rewrite undefined_is_not_json in P. discriminate.
Qed.

(** C1. A run of the pipeline that succeeds issues exactly two key-value
    writes, both under the key "resume:" followed by the identifier
    generated in that run.  The first value is the text of the record (the
    identifier, the paths of the two uploads, the three texts of the form)
    with the empty string for feedback; the second is the text of the same
    record with, for feedback, the value that the text of the AI's answer
    parses to.  From the first write on the key matches the pattern the home
    page lists, the stored text reads back as the record without feedback,
    and the home page shows that record whenever the listing returns its
    entry. *)
Theorem handleAnalyze_two_writes :
  forall (prepareInstructions : string -> string -> string)
         (W : Type) (h : handler app_call W)
         (companyName jobTitle jobDescription : string) (file : File)
         (s : State) (w : W),
    let out :=
      run h (handleAnalyze prepareInstructions companyName jobTitle jobDescription file)
          s w in
    statusText (final out) = "Analysis complete, redirecting..." ->
    exists (uuid : string) (uploadedFile uploadedImage : FSItem) (image : File)
           (answer : AIResponse) (text : wstring) (parsed : json),
      let record := fun fb : json =>
        JObj [ (wide "id", JStr (wide uuid));
               (wide "resumePath", JStr (wide (fs_path uploadedFile)));
               (wide "imagePath", JStr (wide (fs_path uploadedImage)));
               (wide "companyName", JStr (wide companyName));
               (wide "jobTitle", JStr (wide jobTitle));
               (wide "jobDescription", JStr (wide jobDescription));
               (wide "feedback", fb) ] in
      let key := "resume:" ++ uuid in
      In (Event (facade (Fs_upload (UploadFiles [file]))) (Ok (Some uploadedFile)))
         (trace out) /\
      In (Event (facade (Fs_upload (UploadFiles [image]))) (Ok (Some uploadedImage)))
         (trace out) /\
      In (Event generateUUID (Ok uuid)) (trace out) /\
      In (Event (facade (Ai_feedback (fs_path uploadedFile)
                                     (prepareInstructions jobTitle jobDescription)))
                (Ok (Some answer))) (trace out) /\
      (message_content answer = AnswerString text \/
       exists part rest, message_content answer = AnswerParts (part :: rest) /\
                         part_text part = Some text) /\
      Json.parse text = Some parsed /\
      kv_writes (trace out) =
        [ (key, stringify (record (JStr []))); (key, stringify (record parsed)) ] /\
      (forall st : PuterKv.store,
          In {| kv_key := key; kv_value := stringify (record (JStr [])) |}
             (PuterKv.list Home.listing_pattern
                (PuterKv.set key (stringify (record (JStr []))) st))) /\
      Json.parse (stringify (record (JStr []))) = Some (record (JStr [])) /\
      (forall (W' : Type) (h' : handler app_call W') (s' : Home.State) (w' w1' : W')
              (items : list KVItem),
          h' _ (facade (Kv_list Home.listing_pattern (Some true))) w'
            = (Ok (Some (KVItems items)), w1') ->
          In {| kv_key := key; kv_value := stringify (record (JStr [])) |} items ->
          Forall (fun i => Json.parse (kv_value i) <> None) items ->
          In (record (JStr [])) (Home.resumes (final (run h' Home.loadResumes s' w')))).
Proof.
  intros prepare W h cn jt jd file s w out H.
  destruct (handleAnalyze_complete prepare W h cn jt jd file s w H)
    as (uploadedFile & imageFile & image & uploadedImage & uuid & r1 & answer & text
        & parsed & r2 & r3 & HI & HT & HP & HTr).
  destruct (parsed_text answer text parsed HT HP) as [HC HP'].
  exists uuid, uploadedFile, uploadedImage, image, answer, text, parsed.
  set (data := {| id := wide uuid;
                  resumePath := wide (fs_path uploadedFile);
                  imagePath := wide (fs_path uploadedImage);
                  companyName := wide cn;
                  jobTitle := wide jt;
                  jobDescription := wide jd;
                  feedback := JStr [] |}) in *.
  assert (Json.parse (serialize data) = Some (to_json data)) as RT
      by (apply parse_serialize; reflexivity).
  subst out. rewrite HTr. cbv zeta.
  split; [simpl; tauto|]. split; [simpl; tauto|]. split; [simpl; tauto|].
  split; [simpl; tauto|]. split; [exact HC|]. split; [exact HP'|].
  split; [reflexivity|].
  split; [intros st; apply list_finds; [apply listing_pattern_matches | apply set_stores]|].
  split; [exact RT|].
  intros W' h' s' w' w1' items HL HIn HAll.
  exact (proj1 (loadResumes_shows W' h' s' w' w1' items _ _ _ HL HIn RT HAll)).
Qed.

Lemma handleAnalyze_two_writes_witness :
  exists (uuid : string) (first second : wstring),
    kv_writes (trace (Session.analysis (Session.browser Session.critique))) =
      [ ("resume:" ++ uuid, first); ("resume:" ++ uuid, second) ].
Proof.
  destruct (handleAnalyze_two_writes Runtime.prepareInstructions _ Runtime.app
              "ACME" "Engineer" "Build things" Session.cv Session.form
              (Session.start (Session.browser Session.critique))
              ltac:(vm_compute; reflexivity))
    as (uuid & uploadedFile & uploadedImage & image & answer & text & parsed
        & _ & _ & _ & _ & _ & _ & HW & _).
  eexists. eexists. eexists. exact HW.
Defined.

(** C7. When the upload of the document returns no handle, the pipeline
    stops there: the upload is the only call it makes, so the converter is
    never invoked and no other operation of the store is called, and the
    status text is the upload error. *)
Theorem handleAnalyze_upload_failed :
  forall (prepareInstructions : string -> string -> string)
         (W : Type) (h : handler app_call W)
         (companyName jobTitle jobDescription : string) (file : File)
         (s : State) (w w1 : W),
    h (option FSItem) (facade (Fs_upload (UploadFiles [file]))) w = (Ok None, w1) ->
    let out :=
      run h (handleAnalyze prepareInstructions companyName jobTitle jobDescription file)
          s w in
    trace out = [Event (facade (Fs_upload (UploadFiles [file]))) (Ok None)] /\
    existsb is_convert_call (trace out) = false /\
    List.length (filter is_facade_call (trace out)) = 1 /\
    statusText (final out) = "Error: Failed to upload file" /\
    returned out = Ok tt /\
    world out = w1.
Proof.
  intros prepare W h cn jt jd file s w w1 H out. subst out.
  unfold handleAnalyze. cbn -[stringify]. rewrite H. cbn.
  repeat split.
Qed.

Lemma handleAnalyze_upload_failed_witness :
  let out := Session.analysis Session.browser_without_puter in
  trace out = [Event (facade (Fs_upload (UploadFiles [Session.cv]))) (Ok None)] /\
  existsb is_convert_call (trace out) = false /\
  List.length (filter is_facade_call (trace out)) = 1 /\
  statusText (final out) = "Error: Failed to upload file" /\
  returned out = Ok tt /\
  world out =
    {| Stack.puter_store := with_error "Puter.js not available" initial_store;
       Stack.converter := Pdf2Img.initial_state;
       Stack.location := None;
       Stack.runtime := Session.browser_without_puter |}.
Proof.
  apply (handleAnalyze_upload_failed Runtime.prepareInstructions _ Runtime.app
           "ACME" "Engineer" "Build things" Session.cv Session.form
           (Session.start Session.browser_without_puter)).
  reflexivity.
Defined.

(** C3, as amended.  The feedback stored into the record is the value the
    text of the AI's answer parses to, as it is: the value written last is
    the text of the record with that very value for feedback, whatever its
    scores are, within 0 to 100 or not.  It reads back as that record when
    the numbers of the answer are finite and none is the negative zero. *)
Theorem stored_feedback_is_the_answer :
  forall (prepareInstructions : string -> string -> string)
         (W : Type) (h : handler app_call W)
         (companyName jobTitle jobDescription : string) (file : File)
         (s : State) (w : W),
    let out :=
      run h (handleAnalyze prepareInstructions companyName jobTitle jobDescription file)
          s w in
    statusText (final out) = "Analysis complete, redirecting..." ->
    exists (uuid path image : string) (answer : AIResponse) (text : wstring)
           (parsed : json),
      let stored :=
        JObj [ (wide "id", JStr (wide uuid));
               (wide "resumePath", JStr (wide path));
               (wide "imagePath", JStr (wide image));
               (wide "companyName", JStr (wide companyName));
               (wide "jobTitle", JStr (wide jobTitle));
               (wide "jobDescription", JStr (wide jobDescription));
               (wide "feedback", parsed) ] in
      In (Event (facade (Ai_feedback path
                                     (prepareInstructions jobTitle jobDescription)))
                (Ok (Some answer))) (trace out) /\
      (message_content answer = AnswerString text \/
       exists part rest, message_content answer = AnswerParts (part :: rest) /\
                         part_text part = Some text) /\
      Json.parse text = Some parsed /\
      last (kv_writes (trace out)) ("", []) = ("resume:" ++ uuid, stringify stored) /\
      field "feedback" stored = Some parsed /\
      (all_print parsed = true ->
       exists r : Resume,
         deserialize (stringify stored) = Some r /\ to_json r = stored /\
         feedback r = parsed).
Proof.
  intros prepare W h cn jt jd file s w out H.
  destruct (handleAnalyze_complete prepare W h cn jt jd file s w H)
    as (uploadedFile & imageFile & image & uploadedImage & uuid & r1 & answer & text
        & parsed & r2 & r3 & HI & HT & HP & HTr).
  destruct (parsed_text answer text parsed HT HP) as [HC HP'].
  exists uuid, (fs_path uploadedFile), (fs_path uploadedImage), answer, text, parsed.
  subst out. rewrite HTr. cbv zeta.
  split; [simpl; tauto|]. split; [exact HC|]. split; [exact HP'|].
  split; [reflexivity|]. split; [reflexivity|].
  intros P.
  exists {| id := wide uuid;
            resumePath := wide (fs_path uploadedFile);
            imagePath := wide (fs_path uploadedImage);
            companyName := wide cn;
            jobTitle := wide jt;
            jobDescription := wide jd;
            feedback := parsed |}.
  split; [|split; reflexivity].
  apply (deserialize_serialize
           {| id := wide uuid;
              resumePath := wide (fs_path uploadedFile);
              imagePath := wide (fs_path uploadedImage);
              companyName := wide cn;
              jobTitle := wide jt;
              jobDescription := wide jd;
              feedback := parsed |}); [|exact P].
  exact (parse_gives_value text parsed HP').
Qed.

Lemma stored_feedback_is_the_answer_witness :
  exists (uuid : string) (stored : json) (parsed : json),
    last (kv_writes (trace (Session.analysis (Session.browser Session.critique))))
         ("", []) = ("resume:" ++ uuid, stringify stored) /\
    field "feedback" stored = Some parsed.
Proof.
  destruct (stored_feedback_is_the_answer Runtime.prepareInstructions _ Runtime.app
              "ACME" "Engineer" "Build things" Session.cv Session.form
              (Session.start (Session.browser Session.critique))
              ltac:(vm_compute; reflexivity))
    as (uuid & path & image & answer & text & parsed & _ & _ & _ & HL & HF & _).
  eexists. eexists. eexists. split; [exact HL | exact HF].
Defined.

(** C3, as stated, fails: when the AI answers with an overall score of 150
    and an ATS score of -5, the run completes and the record it leaves in
    the key-value store carries those scores. *)
Lemma stored_scores_out_of_range :
  let out := Session.analysis (Session.browser Session.wild_critique) in
  statusText (final out) = "Analysis complete, redirecting..." /\
  exists (value : wstring) (stored : Resume),
    Runtime.lookup_kv "resume:3e9f6a52-0c4b-4e0e-8d57-1b2a9c7d4f10"
                      (Runtime.kv (Stack.runtime (world out))) = Some value /\
    deserialize value = Some stored /\
    number_field "overallScore" (feedback stored) = Some (Number.of_Z 150) /\
    category_score "ATS" (feedback stored) = Some (Number.of_Z (-5)) /\
    ~ scores_in_range (feedback stored).
Proof.
  split; [vm_compute; reflexivity|].
  eexists. eexists. split; [vm_compute; reflexivity|].
  split; [vm_compute; reflexivity|].
  split; [vm_compute; reflexivity|]. split; [vm_compute; reflexivity|].
  intros H. inversion H as [|? ? (x & E & R) _]; subst.
  vm_compute in E. injection E as <-. vm_compute in R. discriminate R.
Qed.

End Pipeline.

(** ** State updates and invariants *)

Section Updates.
Import Js Async Traces.
Variable S : Type.
Variable E : Type -> Type.

Lemma keeps_bind (A B : Type) (P : S -> Prop) (p : prog S E A) (f : A -> prog S E B) :
  keeps P p -> (forall a, keeps P (f a)) -> keeps P (bind p f).
Proof.
  intros Hp Hf. induction p as [a|err|k IH|g k IH|X c k IH]; simpl in *.
  - apply Hf.
  - exact I.
  - intros s. apply IH. apply Hp.
  - destruct Hp as (Hg & Hk). split; [exact Hg | now apply IH].
  - intros r. apply IH. apply Hp.
Qed.

Lemma keeps_try_catch (A : Type) (P : S -> Prop) (p : prog S E A)
      (handle : exn -> prog S E A) :
  keeps P p -> (forall err, keeps P (handle err)) -> keeps P (try_catch p handle).
Proof.
  intros Hp Hh. induction p as [a|err|k IH|g k IH|X c k IH]; simpl in *.
  - exact I.
  - apply Hh.
  - intros s. apply IH. apply Hp.
  - destruct Hp as (Hg & Hk). split; [exact Hg | now apply IH].
  - intros r. apply IH. apply Hp.
Qed.

Lemma keeps_from_result (A : Type) (P : S -> Prop) (r : result A) :
  keeps P (from_result (S := S) (E := E) r).
Proof. destruct r; exact I. Qed.

(** A property every update keeps holds at the end of a run that started
    with it. *)
Lemma keeps_run (W A : Type) (P : S -> Prop) (h : handler E W) (p : prog S E A) :
  keeps P p -> forall (s : S) (w : W), P s -> P (final (run h p s w)).
Proof.
  induction p as [a|err|k IH|g k IH|X c k IH]; simpl; intros Hp s w Hs.
  - exact Hs.
  - exact Hs.
  - apply IH; [apply Hp | exact Hs].
  - destruct Hp as (Hg & Hk). apply IH; [exact Hk | now apply Hg].
  - destruct (h X c w) as [r w']. simpl. apply IH; [apply Hp | exact Hs].
Qed.

End Updates.


(** ** Sequencing *)

Section Sequencing.
Import Js Async Traces.
Variable S : Type.
Variable E : Type -> Type.

(** A run of [p] followed by [f] is the run of [p], and then, if [p]
    returned, the run of [f] from where [p] left off. *)
Lemma run_bind (W A B : Type) (h : handler E W) (p : prog S E A) (f : A -> prog S E B) :
  forall (s : S) (w : W),
    run h (bind p f) s w =
    let first := run h p s w in
    match returned first with
    | Ok a =>
        let rest := run h (f a) (final first) (world first) in
        {| returned := returned rest; final := final rest; world := world rest;
           trace := trace first ++ trace rest |}
    | Rejected err =>
        {| returned := Rejected err; final := final first; world := world first;
           trace := trace first |}
    end.
Proof.
  induction p as [a|err|k IH|g k IH|X c k IH]; intros s w; simpl.
  - now destruct (run h (f a) s w).
  - reflexivity.
  - apply IH.
  - apply IH.
  - destruct (h X c w) as [r w']. simpl. rewrite IH. simpl.
    now destruct (returned (run h (k r) s w')).
Qed.

End Sequencing.



(** ** The store: invariants and the auth operations *)

Section StoreOperations.
Import Js Async Traces Puter Store.

Lemma with_error_consistent (msg : string) (s : PuterStore) :
  auth_consistent (with_error msg s).
Proof. split; [split|]; simpl; intros H; congruence. Qed.

Lemma signed_in_consistent (u : PuterUser) (s : PuterStore) :
  auth_consistent (signed_in u s).
Proof. split; [split|]; simpl; intros H; first [reflexivity | congruence]. Qed.

Lemma signed_out_consistent (s : PuterStore) : auth_consistent (signed_out s).
Proof. split; [split|]; simpl; intros H; congruence. Qed.

Lemma same_auth_consistent (s s' : PuterStore) :
  auth s' = auth s -> auth_consistent s -> auth_consistent s'.
Proof. unfold auth_consistent, call_getUser. intros ->. tauto. Qed.

Ltac updates :=
  repeat first
    [ exact I
    | progress cbn
    | match goal with
      | |- forall _, _ => intro
      | |- _ /\ _ => split
      | r : result _ |- _ => destruct r
      | b : bool |- _ => destruct b
      | o : option _ |- _ => destruct o
      end ].

Lemma program_keeps_consistent (o : operation) : keeps auth_consistent (program o).
Proof.
  destruct o as [| | | | | | | |X op]; [..|destruct op]; updates;
    first [ apply with_error_consistent
          | apply signed_in_consistent
          | apply signed_out_consistent
          | eapply same_auth_consistent; [reflexivity | assumption] ].
Qed.

Lemma perform_all_consistent (W : Type) (h : handler puter_call W)
      (ops : list operation) :
  forall (s : PuterStore) (w : W),
    auth_consistent s -> auth_consistent (fst (perform_all h ops s w)).
Proof.
  induction ops as [|o ops IH]; intros s w H; simpl.
  - exact H.
  - apply IH. apply keeps_run; [apply program_keeps_consistent | exact H].
Qed.

(** X1. Whatever operations of the store are run, in whatever order and
    against whatever runtime, the store that [create] returned stays
    consistent: it is flagged authenticated exactly when it holds a user,
    and while it is, [auth.getUser()] returns that user.  Every single
    state update of every operation keeps this, so it also holds between
    the steps of operations that overlap. *)
Theorem store_stays_consistent :
  (forall o : operation, keeps auth_consistent (program o)) /\
  (forall (W : Type) (h : handler puter_call W) (ops : list operation) (w : W),
      auth_consistent (fst (perform_all h ops initial_store w))).
Proof.
  split; [exact program_keeps_consistent|].
  intros W h ops w. apply perform_all_consistent.
  split; [split|]; simpl; intros H; congruence.
Qed.

Lemma program_keeps_ready (o : operation) :
  keeps (fun s => puterReady s = true) (program o).
Proof.
  destruct o as [| | | | | | | |X op]; [..|destruct op]; updates;
    first [assumption | reflexivity].
Qed.

Lemma program_keeps_readiness (o : operation) (b : bool) :
  is_init_operation o = false ->
  keeps (fun s => puterReady s = b) (program o).
Proof.
  destruct o as [| | | | | | | |X op]; [..|destruct op]; intros H;
    try discriminate H; clear H; updates; assumption.
Qed.

(** X2. [puterReady] is written by [init] and by the poll it arms, and by
    nothing else; and no operation ever takes it back: once the store is
    ready it stays ready. *)
Theorem puterReady_set_by_init_only :
  forall (o : operation) (W : Type) (h : handler puter_call W)
         (s : PuterStore) (w : W),
    let out := run h (program o) s w in
    (is_init_operation o = false -> puterReady (final out) = puterReady s) /\
    (puterReady s = true -> puterReady (final out) = true).
Proof.
  intros o W h s w out. subst out. split.
  - intros H.
    apply (keeps_run _ _ _ _ (fun s' => puterReady s' = puterReady s));
      [|reflexivity].
    now apply program_keeps_readiness.
  - intros H.
    apply (keeps_run _ _ _ _ (fun s' => puterReady s' = true)); [|exact H].
    apply program_keeps_ready.
Qed.

Lemma puterReady_set_by_init_only_witness :
  puterReady (final (run Runtime.on_puter (program Auth_signIn) initial_store
                         (Session.browser Session.critique))) = false /\
  puterReady (final (run Runtime.on_puter (program Auth_signOut)
                         (ready Session.store_of_alice)
                         Session.browser_offline)) = true.
Proof.
  split.
  - apply (proj1 (puterReady_set_by_init_only Auth_signIn _ Runtime.on_puter
                    initial_store (Session.browser Session.critique))).
    reflexivity.
  - apply (proj2 (puterReady_set_by_init_only Auth_signOut _ Runtime.on_puter
                    (ready Session.store_of_alice) Session.browser_offline)).
    reflexivity.
Defined.

(** Stepping through a run: the look for the runtime object is answered,
    any other call is fulfilled or rejected. *)
Ltac look Hlook :=
  match goal with
  | |- context [?h bool window_puter ?w] =>
      let b := fresh "present" in
      let w' := fresh "w" in
      let E := fresh "E" in
      destruct (Hlook w) as (b & w' & E); rewrite E; destruct b; cbn
  end.

Ltac answer h :=
  match goal with
  | |- context [h ?Y ?c ?w] =>
      let r := fresh "r" in
      let w' := fresh "w" in
      let E := fresh "E" in
      destruct (h Y c w) as [r w'] eqn:E; destruct r; cbn
  end.

Ltac branch :=
  match goal with
  | |- context [if ?x then _ else _] => is_var x; destruct x; cbn
  | |- context [if negb ?x then _ else _] => is_var x; destruct x; cbn
  | |- context [match ?x with Some _ => _ | None => _ end] =>
      is_var x; destruct x; cbn
  end.

Ltac walk h Hlook := cbn; repeat first [look Hlook | answer h | branch].

(** X3. [checkAuthStatus()] never rejects, and what it returns is the
    authenticated flag it leaves in the store: [true] exactly when the
    runtime handed over the user, after saying that the user is signed
    in; that user is then in the store with no error.  In every other
    case the store holds no user.  The loading flag is down at the
    end. *)
Theorem checkAuthStatus_outcome :
  forall (W : Type) (h : handler puter_call W) (s : PuterStore) (w : W),
    lookup_answers h ->
    let out := run h checkAuthStatus s w in
    exists b : bool,
      returned out = Ok b /\
      isAuthenticated (auth (final out)) = b /\
      isLoading (final out) = false /\
      (b = true <->
       existsb (fun e => is_getUser_call e && fulfilled e) (trace out) = true) /\
      (b = true ->
       exists u, user (auth (final out)) = Some u /\
                 error (final out) = None /\
                 In (Event puter_auth_isSignedIn (Ok true)) (trace out) /\
                 In (Event puter_auth_getUser (Ok u)) (trace out)) /\
      (b = false -> user (auth (final out)) = None).
Proof.
  intros W h s w Hlook out. subst out. unfold checkAuthStatus.
  walk h Hlook;
    (eexists; split; [reflexivity|]); repeat split; try discriminate.
  intros _. eexists. simpl. repeat split; auto.
Qed.

Lemma checkAuthStatus_outcome_witness :
  exists b : bool,
    returned (run Runtime.on_puter checkAuthStatus initial_store
                  (Session.browser Session.critique)) = Ok b /\
    isAuthenticated
      (auth (final (run Runtime.on_puter checkAuthStatus initial_store
                        (Session.browser Session.critique)))) = b.
Proof.
  destruct (checkAuthStatus_outcome _ Runtime.on_puter initial_store
              (Session.browser Session.critique))
    as (b & R & A & _).
  - intros w. eexists. eexists. reflexivity.
  - exists b. split; assumption.
Defined.

(** X4. Every operation of the store other than those under [fs], [ai]
    and [kv] catches what the runtime throws: sign-in, sign-out, refresh,
    the auth check, [init] with its two timer callbacks and [clearError]
    all return normally, whatever the runtime answers. *)
Theorem store_operations_settle :
  forall (W : Type) (h : handler puter_call W) (o : operation)
         (s : PuterStore) (w : W),
    lookup_answers h ->
    is_facade_operation o = false ->
    returned (run h (program o) s w) = Ok tt.
Proof.
  intros W h o s w Hlook Ho.
  destruct o; try discriminate Ho; clear Ho; walk h Hlook; reflexivity.
Qed.

Lemma store_operations_settle_witness :
  returned (run Runtime.on_puter (program Auth_signIn) Session.store_of_alice
                Session.browser_offline) = Ok tt.
Proof.
  apply (store_operations_settle _ Runtime.on_puter Auth_signIn
           Session.store_of_alice Session.browser_offline).
  - intros w. eexists. eexists. reflexivity.
  - reflexivity.
Defined.

(** X5. After [signOut()] the store holds no user and is not flagged
    authenticated, on every path: when the runtime signed the user out,
    when it refused to (the store then carries the error, the session
    with the service may still be open), and when the runtime is missing.
    The error is empty exactly when the runtime signed the user out. *)
Theorem signOut_clears_auth :
  forall (W : Type) (h : handler puter_call W) (s : PuterStore) (w : W),
    lookup_answers h ->
    let out := run h signOut s w in
    returned out = Ok tt /\
    user (auth (final out)) = None /\
    isAuthenticated (auth (final out)) = false /\
    isLoading (final out) = false /\
    (error (final out) = None <->
     In (Event puter_auth_signOut (Ok tt)) (trace out)).
Proof.
  intros W h s w Hlook out. subst out. unfold signOut.
  walk h Hlook; repeat split; try discriminate.
  - destruct x. intros _. right. now left.
  - intros [H|[H|[]]]; discriminate H.
  - intros [H|[]]. discriminate H.
Qed.

Lemma signOut_clears_auth_witness :
  let out := run Runtime.on_puter signOut Session.store_of_alice
                 Session.browser_offline in
  returned out = Ok tt /\
  user (auth (final out)) = None /\
  isAuthenticated (auth (final out)) = false /\
  error (final out) = Some "Network error".
Proof.
  destruct (signOut_clears_auth _ Runtime.on_puter Session.store_of_alice
              Session.browser_offline) as (R & U & A & _).
  - intros w. eexists. eexists. reflexivity.
  - repeat split; assumption.
Defined.

Ltac trail h := cbn; repeat first [answer h | branch].

(** X6. A store that is not flagged authenticated becomes so only by
    fetching the user from the runtime: whatever operation is run, if the
    flag is up afterwards then [puter.auth.getUser()] was fulfilled during
    the run, and the user it gave is the one the store and
    [auth.getUser()] now hold. *)
Theorem authenticated_only_by_fetch :
  forall (W : Type) (h : handler puter_call W) (o : operation)
         (s : PuterStore) (w : W),
    isAuthenticated (auth s) = false ->
    let out := run h (program o) s w in
    isAuthenticated (auth (final out)) = true ->
    exists u : PuterUser,
      user (auth (final out)) = Some u /\
      call_getUser (final out) = Some u /\
      In (Event puter_auth_getUser (Ok u)) (trace out).
Proof.
  intros W h o s w Hs out. subst out.
  destruct o as [| | | | | | | |X op]; [..|destruct op]; trail h; intros Hf;
    first [ congruence
          | eexists; split; [reflexivity|]; split; [reflexivity|];
            simpl; auto 8 ].
Qed.

Lemma authenticated_only_by_fetch_witness :
  exists u : PuterUser,
    user (auth (final (run Runtime.on_puter (program Init) initial_store
                           (Session.browser Session.critique)))) = Some u /\
    In (Event puter_auth_getUser (Ok u))
       (trace (run Runtime.on_puter (program Init) initial_store
                   (Session.browser Session.critique))).
Proof.
  destruct (authenticated_only_by_fetch _ Runtime.on_puter Init initial_store
              (Session.browser Session.critique) eq_refl eq_refl)
    as (u & U & _ & T).
  exists u. split; assumption.
Defined.

(** X7. With the runtime there, an operation under [fs], [ai] or [kv]
    never touches the store: it looks for the runtime, passes its
    arguments to the one runtime function behind it, and returns or
    rejects as that call does; the loading flag, the error and the auth
    state are as they were. *)
Theorem facade_leaves_store :
  forall (X : Type) (op : facade_op X) (W : Type) (h : handler puter_call W)
         (s : PuterStore) (w w1 : W),
    h bool window_puter w = (Ok true, w1) ->
    let out := run h (perform op) s w in
    final out = s /\
    map request_of (trace out) = [Request window_puter; backend_call op] /\
    ((exists x, returned out = Ok x) <-> forallb fulfilled (trace out) = true).
Proof.
  intros X op W h s w w1 H out. subst out.
  destruct op; cbn; rewrite H; cbn; answer h; repeat split;
    first [ intros _; reflexivity
          | intros _; eexists; reflexivity
          | intros (x' & Hx); discriminate Hx
          | discriminate ].
Qed.

Lemma facade_leaves_store_witness :
  let out := run Runtime.on_puter (perform (Kv_get "resume:1"))
                 Session.store_of_alice Session.browser_offline in
  final out = Session.store_of_alice /\
  map request_of (trace out) =
    [Request window_puter; Request (puter_kv_get "resume:1")].
Proof.
  destruct (facade_leaves_store _ (Kv_get "resume:1") _ Runtime.on_puter
              Session.store_of_alice Session.browser_offline
              Session.browser_offline eq_refl) as (F & T & _).
  split; assumption.
Defined.

(** X8. When [refreshUser()] fails on a store that holds a user from an
    earlier fetch, [auth.user] is cleared and the flag goes down, but
    [auth.getUser()] still returns that earlier user: [setError] keeps
    the [getUser] function the store had. *)
Theorem refreshUser_failure_keeps_getUser :
  forall (W : Type) (h : handler puter_call W) (s : PuterStore) (w : W)
         (u : PuterUser),
    lookup_answers h ->
    getUser (auth s) = GetUserConst (Some u) ->
    let out := run h refreshUser s w in
    error (final out) <> None ->
    user (auth (final out)) = None /\
    isAuthenticated (auth (final out)) = false /\
    call_getUser (final out) = Some u.
Proof.
  intros W h s w u Hlook Hs out. subst out. unfold refreshUser, call_getUser.
  walk h Hlook; intros He; first [now elim He | rewrite Hs; repeat split].
Qed.

Lemma refreshUser_failure_keeps_getUser_witness :
  let out := run Runtime.on_puter refreshUser Session.store_of_alice
                 Session.browser_offline in
  user (auth (final out)) = None /\
  isAuthenticated (auth (final out)) = false /\
  call_getUser (final out) = Some Session.alice.
Proof.
  apply (refreshUser_failure_keeps_getUser _ Runtime.on_puter
           Session.store_of_alice Session.browser_offline Session.alice).
  - intros w. eexists. eexists. reflexivity.
  - reflexivity.
  - discriminate.
Defined.

End StoreOperations.


(** ** [init] and its timers *)

Section Booting.
Import Js Async Traces Puter Store Boot.

Ltac look Hlook :=
  match goal with
  | |- context [?h bool window_puter ?w] =>
      let b := fresh "present" in
      let w' := fresh "w" in
      let E := fresh "E" in
      destruct (Hlook w) as (b & w' & E); rewrite E; destruct b; cbn
  end.

Ltac answer h :=
  match goal with
  | |- context [h ?Y ?c ?w] =>
      let r := fresh "r" in
      let w' := fresh "w" in
      let E := fresh "E" in
      destruct (h Y c w) as [r w'] eqn:E; destruct r; cbn
  end.

Ltac branch :=
  match goal with
  | |- context [if ?x then _ else _] => is_var x; destruct x; cbn
  | |- context [if negb ?x then _ else _] => is_var x; destruct x; cbn
  end.

Ltac walk h Hlook := cbn; repeat first [look Hlook | answer h | branch].

(** The auth checks started so far, counted by their question to the
    runtime. *)
Lemma poll_outcome (W : Type) (h : handler puter_call W) (s : PuterStore) (w : W) :
  lookup_answers h ->
  let out := run h init_poll s w in
  (returned out = Ok true /\
   length (filter is_isSignedIn_call (trace out)) <= 1) \/
  (returned out = Ok false /\
   filter is_isSignedIn_call (trace out) = [] /\ final out = s).
Proof.
  intros Hlook out. subst out. unfold init_poll.
  walk h Hlook; first [left; split; [reflexivity | simpl; lia] | right; now repeat split].
Qed.

Lemma init_outcome (W : Type) (h : handler puter_call W) (s : PuterStore) (w : W) :
  lookup_answers h ->
  let out := run h init s w in
  (returned out = Ok true /\
   length (filter is_isSignedIn_call (trace out)) <= 1) \/
  (returned out = Ok false /\
   filter is_isSignedIn_call (trace out) = [] /\ final out = s).
Proof. exact (poll_outcome W h s w). Qed.

Lemma timeout_outcome (W : Type) (h : handler puter_call W) (s : PuterStore) (w : W) :
  lookup_answers h ->
  let out := run h init_timeout s w in
  filter is_isSignedIn_call (trace out) = [] /\
  puterReady (final out) = puterReady s.
Proof.
  intros Hlook out. subst out. unfold init_timeout.
  walk h Hlook; now split.
Qed.

Lemma boot_polling (W : Type) (h : handler puter_call W) (s : PuterStore) (w : W) :
  lookup_answers h -> polling s (boot h s w).
Proof.
  intros Hlook. unfold polling, boot. cbv zeta.
  cbn [store timers outside calls].
  destruct (init_outcome W h s w Hlook) as [(R & L)|(R & F & S)]; rewrite R;
    cbn [interval timeout].
  - split; [exact L | discriminate].
  - rewrite F, S. split; [simpl; lia | now repeat split].
Qed.

Lemma fire_polling (W : Type) (h : handler puter_call W) (s : PuterStore)
      (p : Page W) (t : timer_event) :
  lookup_answers h -> polling s p -> polling s (fire h p t).
Proof.
  intros Hlook (L & I). unfold polling, fire. destruct t.
  - destruct (interval (timers p)) eqn:EI; [|split; [exact L | rewrite EI; discriminate]].
    destruct (I eq_refl) as (F & R & T).
    cbv zeta. cbn [store timers outside calls interval timeout].
    destruct (poll_outcome W h (store p) (outside p) Hlook) as [(Ro & Lo)|(Ro & Fo & So)];
      rewrite Ro, filter_app, F; cbn [app].
    + split; [exact Lo | discriminate].
    + rewrite Fo, So. split; [simpl; lia | now repeat split].
  - destruct (timeout (timers p)) eqn:ET; [|split; [exact L | rewrite ET; exact I]].
    destruct (timeout_outcome W h (store p) (outside p) Hlook) as (Fo & Ro).
    cbv zeta. cbn [store timers outside calls interval timeout].
    rewrite filter_app, Fo, List.app_nil_r.
    split; [exact L | discriminate].
Qed.

Lemma after_polling (W : Type) (h : handler puter_call W) (s : PuterStore)
      (events : list timer_event) :
  lookup_answers h ->
  forall p : Page W, polling s p -> polling s (after h events p).
Proof.
  intros Hlook. induction events as [|t events IH]; intros p H; simpl.
  - exact H.
  - apply IH. now apply fire_polling.
Qed.

(** X9. [init()] starts the auth check at most once, however its interval
    and its timeout come due afterwards: the check is started either at
    once or by the first poll that finds the runtime, which clears the
    interval.  While the poll is still armed no check has started and
    [puterReady] is as [init] found it. *)
Theorem init_checks_auth_once :
  forall (W : Type) (h : handler puter_call W) (s : PuterStore) (w : W)
         (events : list timer_event),
    lookup_answers h ->
    let p := after h events (boot h s w) in
    length (filter is_isSignedIn_call (calls p)) <= 1 /\
    (interval (timers p) = true ->
     filter is_isSignedIn_call (calls p) = [] /\
     puterReady (store p) = puterReady s /\
     timeout (timers p) = true).
Proof.
  intros W h s w events Hlook p. subst p.
  apply (after_polling W h s events Hlook). now apply boot_polling.
Qed.

Lemma init_checks_auth_once_witness :
  let p := after Runtime.on_puter [IntervalFires; IntervalFires; TimeoutFires; IntervalFires]
                 (boot Runtime.on_puter initial_store Session.browser_without_puter) in
  length (filter is_isSignedIn_call (calls p)) <= 1.
Proof.
  apply (init_checks_auth_once _ Runtime.on_puter initial_store
           Session.browser_without_puter
           [IntervalFires; IntervalFires; TimeoutFires; IntervalFires]).
  intros w. eexists. eexists. reflexivity.
Defined.

End Booting.


(** ** The converter: results, failures and the cached module *)

Section Conversions.
Import Js Async Traces Pdf2Img Converter.

Ltac answer h :=
  match goal with
  | |- context [h ?Y ?c ?w] =>
      let r := fresh "r" in
      let w' := fresh "w" in
      let E := fresh "E" in
      destruct (h Y c w) as [r w'] eqn:E; destruct r; cbn
  end.

Ltac branch :=
  match goal with
  | |- context [match ?x with Some _ => _ | None => _ end] =>
      is_var x; destruct x; cbn
  end.

(** Every path through a conversion, from the three ways [loadPdfJs] can
    start. *)
Ltac paths h s D :=
  unfold convertPdfToImage, loadPdfJs; cbn;
  destruct (decide s) as [cached|shared|] eqn:D; cbn;
  repeat first [answer h | branch].

Lemma decide_cached (s : State) (lib : PdfJs) :
  decide s = UseCached lib -> pdfjsLib s = Some lib.
Proof.
  unfold decide. destruct (pdfjsLib s); [congruence|].
  destruct (loadPromise s); discriminate.
Qed.


(** X10. A conversion that returns has one of two shapes: a PNG file
    together with a [blob:] URL and no error, or no file, an empty URL and
    an error text, which is either "Failed to create image blob" or
    "Failed to convert PDF: " followed by what was thrown. *)
Theorem convert_result_shape :
  forall (W : Type) (h : handler pdf_call W) (f : File) (s : State) (w : W)
         (res : PdfConversionResult),
    returned (run h (convertPdfToImage f) s w) = Ok res ->
    (exists (image : File) (url : BlobUrl),
        file res = Some image /\ file_type image = "image/png" /\
        imageUrl res = blob_url url /\ error res = None) \/
    (file res = None /\ imageUrl res = "" /\
     (error res = Some "Failed to create image blob" \/
      exists err : exn, res = failure err)).
Proof.
  intros W h f s w res. paths h s D; intros HR;
    try discriminate HR; injection HR as <-;
    first [ solve [left; eexists; eexists; repeat split; reflexivity]
          | solve [right; split; [reflexivity|]; split; [reflexivity|];
                   first [left; reflexivity | right; eexists; reflexivity]] ].
Qed.

Lemma convert_result_shape_witness :
  exists res : PdfConversionResult,
    returned (run Runtime.on_pdf
                  (convertPdfToImage Scenarios.notes)
                  initial_state (Session.browser Session.critique)) = Ok res /\
    file res = None /\ imageUrl res = "".
Proof.
  eexists. split; [reflexivity|].
  destruct (convert_result_shape _ Runtime.on_pdf Scenarios.notes
              initial_state (Session.browser Session.critique) _ eq_refl)
    as [(image & url & F & _)|(F & U & _)].
  - discriminate F.
  - split; assumption.
Defined.

Ltac failing_call :=
  match goal with
  | E : _ _ ?c _ = (Rejected ?err, _) |- _ => exists (Request c), err
  end.

(** X11. A conversion that does not get as far as [canvas.toBlob] stopped
    at the one call that was rejected (loading PDF.js, reading the file,
    opening the document, getting or rendering the page): that call is the
    only rejected one of the run and its last, and the result carries no
    file and the
    message "Failed to convert PDF: " followed by the error of that
    call.  Nothing is thrown. *)
Theorem convert_reports_failed_step :
  forall (W : Type) (h : handler pdf_call W) (f : File) (s : State) (w : W),
    let out := run h (convertPdfToImage f) s w in
    existsb is_toBlob (trace out) = false ->
    exists (q : request pdf_call) (err : exn),
      filter (fun e => negb (fulfilled e)) (trace out) = [rejected q err] /\
      last (trace out) (rejected q err) = rejected q err /\
      returned out = Ok (failure err).
Proof.
  intros W h f s w out. subst out. paths h s D; intros HT;
    try discriminate HT; failing_call; repeat split; reflexivity.
Qed.

Lemma convert_reports_failed_step_witness :
  let out := run Runtime.on_pdf
                 (convertPdfToImage Scenarios.notes)
                 initial_state (Session.browser Session.critique) in
  exists (q : request pdf_call) (err : exn),
    filter (fun e => negb (fulfilled e)) (trace out) = [rejected q err] /\
    last (trace out) (rejected q err) = rejected q err /\
    returned out = Ok (failure err).
Proof.
  apply (convert_reports_failed_step _ Runtime.on_pdf Scenarios.notes
           initial_state (Session.browser Session.critique)).
  reflexivity.
Defined.



Lemma convert_cached (W : Type) (h : handler pdf_call W) (f : File) (s : State)
      (w : W) (lib : PdfJs) :
  pdfjsLib s = Some lib ->
  let out := run h (convertPdfToImage f) s w in
  filter is_import (trace out) = [] /\
  filter is_settle (trace out) = [] /\
  final out = s /\
  (forall e lib', In e (trace out) -> opened_with e = Some lib' -> lib' = lib).
Proof.
  intros H out. subst out.
  assert (decide s = UseCached lib) as D' by (unfold decide; now rewrite H).
  paths h s D; try discriminate D'; injection D' as ->;
    (split; [reflexivity|]); (split; [reflexivity|]); (split; [reflexivity|]);
    intros e lib' HI HO; simpl in HI;
    repeat (destruct HI as [<-|HI]; [simpl in HO; congruence|]); destruct HI.
Qed.

(** X13. A conversion that produced a file leaves the PDF.js module
    cached, so every later conversion, of whatever file, loads nothing: it
    neither imports nor awaits a load promise, it opens its document with
    the cached module, and it leaves the module's variables alone. *)
Theorem later_conversions_reuse_module :
  forall (W : Type) (h : handler pdf_call W) (f : File) (s : State) (w : W)
         (res : PdfConversionResult) (image : File),
    returned (run h (convertPdfToImage f) s w) = Ok res ->
    file res = Some image ->
    exists lib : PdfJs,
      pdfjsLib (final (run h (convertPdfToImage f) s w)) = Some lib /\
      forall (W' : Type) (h' : handler pdf_call W') (f' : File) (w' : W'),
        let later := run h' (convertPdfToImage f')
                         (final (run h (convertPdfToImage f) s w)) w' in
        filter is_import (trace later) = [] /\
        filter is_settle (trace later) = [] /\
        final later = final (run h (convertPdfToImage f) s w) /\
        (forall e lib', In e (trace later) -> opened_with e = Some lib' -> lib' = lib).
Proof.
  intros W h f s w res image HR HF.
  assert (exists lib, pdfjsLib (final (run h (convertPdfToImage f) s w)) = Some lib)
    as (lib & HL).
  { revert HR HF. paths h s D; intros HR HF;
      try discriminate HR; injection HR as <-; try discriminate HF;
      first [ exists cached; now apply decide_cached
            | eexists; reflexivity ]. }
  exists lib. split; [exact HL|].
  intros W' h' f' w'. now apply convert_cached.
Qed.

Lemma later_conversions_reuse_module_witness :
  let first := run Runtime.on_pdf (convertPdfToImage Session.cv) initial_state
                   (Session.browser Session.critique) in
  let later := run Runtime.on_pdf (convertPdfToImage Session.scan) (final first)
                   (world first) in
  filter is_import (trace first) <> [] /\
  filter is_import (trace later) = [] /\
  filter is_settle (trace later) = [].
Proof.
  destruct (later_conversions_reuse_module _ Runtime.on_pdf Session.cv
              initial_state (Session.browser Session.critique) _ _
              eq_refl eq_refl) as (lib & _ & H).
  destruct (H _ Runtime.on_pdf Session.scan
              (world (run Runtime.on_pdf (convertPdfToImage Session.cv)
                          initial_state (Session.browser Session.critique))))
    as (I & S & _).
  split; [discriminate|]. split; assumption.
Defined.

(** X14. If the cached module, when there is one, has its worker file
    set, then so it is after a conversion, and every document the
    conversion opens is opened with a module whose worker file is
    "/pdf.worker.min.mjs": a module loaded by this conversion gets it
    before it is used. *)
Theorem documents_open_with_worker :
  forall (W : Type) (h : handler pdf_call W) (f : File) (s : State) (w : W),
    configured s ->
    let out := run h (convertPdfToImage f) s w in
    configured (final out) /\
    (forall e lib, In e (trace out) -> opened_with e = Some lib -> worker_set lib).
Proof.
  intros W h f s w HC out. subst out. unfold configured in *.
  paths h s D;
    (split;
     [ first [ exact HC
             | intros l Hl; simpl in Hl; first [now apply HC | now injection Hl as <-] ]
     | intros e l HI HO; simpl in HI;
       repeat (destruct HI as [<-|HI];
               [simpl in HO; first [discriminate HO | injection HO as <-]|]);
       try destruct HI;
       first [reflexivity | apply HC; now apply decide_cached] ]).
Qed.

Lemma documents_open_with_worker_witness :
  Forall (fun e => forall lib, opened_with e = Some lib -> worker_set lib)
         (trace (run Runtime.on_pdf (convertPdfToImage Session.cv) initial_state
                     (Session.browser Session.critique))).
Proof.
  assert (configured initial_state) as C by (intros lib H; discriminate H).
  apply Forall_forall. intros e HI lib HO.
  exact (proj2 (documents_open_with_worker _ Runtime.on_pdf Session.cv initial_state
                  (Session.browser Session.critique) C) e lib HI HO).
Defined.

End Conversions.


(** ** The upload route: every way the pipeline can end *)

Section Analysis.
Import Js Async Traces Json Puter Types App Upload UploadForm.

Ltac answer h :=
  match goal with
  | |- context [h ?Y ?c ?w] =>
      let r := fresh "r" in
      let w' := fresh "w" in
      let E := fresh "E" in
      destruct (h Y c w) as [r w'] eqn:E; destruct r; cbn -[stringify]
  end.

Ltac branch :=
  match goal with
  | |- context [match ?x with Some _ => _ | None => _ end] =>
      is_var x; destruct x; cbn -[stringify]
  | |- context [match Pdf2Img.file ?x with Some _ => _ | None => _ end] =>
      destruct (Pdf2Img.file x) eqn:?; cbn -[stringify]
  | |- context [from_result (feedbackText ?a)] =>
      destruct (feedbackText a) eqn:?; cbn -[stringify]
  | |- context [from_result (JSON_parse ?t)] =>
      destruct (JSON_parse t) eqn:?; cbn -[stringify]
  end.

(** Every path through [handleAnalyze]. *)
Ltac paths h :=
  unfold handleAnalyze; cbn -[stringify]; repeat first [answer h | branch].

(** X15. However a run of the pipeline ends (completed, stopped at a
    failed step, or rejected), the processing flag it raised at the start
    is still up: nothing in [handleAnalyze] lowers it again, so after a
    failure the page keeps showing the status text in place of the
    form.  The selected file is not touched. *)
Theorem handleAnalyze_stays_processing :
  forall (prepareInstructions : string -> string -> string)
         (W : Type) (h : handler app_call W)
         (companyName jobTitle jobDescription : string) (file : File)
         (s : State) (w : W),
    let out :=
      run h (handleAnalyze prepareInstructions companyName jobTitle jobDescription file)
          s w in
    isProcessing (final out) = true /\ selected (final out) = selected s.
Proof.
  intros prepare W h cn jt jd file s w out. subst out.
  paths h; split; reflexivity.
Qed.

(** X16. When the conversion returns no image file, the pipeline stops
    with the status "Error: Failed to convert PDF to image", whatever
    error text the converter gave: the document has been uploaded by then
    and stays uploaded, nothing is written to the key-value store, and no
    further call is made. *)
Theorem handleAnalyze_convert_failed :
  forall (prepareInstructions : string -> string -> string)
         (W : Type) (h : handler app_call W)
         (companyName jobTitle jobDescription : string) (file : File)
         (s : State) (w w1 w2 : W) (uploadedFile : FSItem)
         (res : Pdf2Img.PdfConversionResult),
    h _ (facade (Fs_upload (UploadFiles [file]))) w = (Ok (Some uploadedFile), w1) ->
    h _ (convert file) w1 = (Ok res, w2) ->
    Pdf2Img.file res = None ->
    let out :=
      run h (handleAnalyze prepareInstructions companyName jobTitle jobDescription file)
          s w in
    trace out = [ Event (facade (Fs_upload (UploadFiles [file]))) (Ok (Some uploadedFile));
                  Event (convert file) (Ok res) ] /\
    statusText (final out) = "Error: Failed to convert PDF to image" /\
    kv_writes (trace out) = [] /\
    returned out = Ok tt /\
    world out = w2.
Proof.
  intros prepare W h cn jt jd file s w w1 w2 uploadedFile res H1 H2 HF out. subst out.
  unfold handleAnalyze. cbn -[stringify]. rewrite H1. cbn -[stringify].
  rewrite H2. cbn -[stringify]. rewrite HF. cbn. repeat split.
Qed.

Lemma handleAnalyze_convert_failed_witness :
  let out := run Runtime.app
                 (handleAnalyze Runtime.prepareInstructions "ACME" "Engineer"
                                "Build things" Scenarios.notes)
                 Session.form (Session.start (Session.browser Session.critique)) in
  statusText (final out) = "Error: Failed to convert PDF to image" /\
  kv_writes (trace out) = [] /\
  Runtime.kv (Stack.runtime (world out)) = [].
Proof.
  destruct (handleAnalyze_convert_failed Runtime.prepareInstructions _ Runtime.app
              "ACME" "Engineer" "Build things" Scenarios.notes Session.form
              (Session.start (Session.browser Session.critique)) _ _ _ _
              eq_refl eq_refl eq_refl) as (_ & S & K & _ & Wd).
  split; [exact S|]. split; [exact K|]. cbv zeta. rewrite Wd. reflexivity.
Defined.

(** X17. When the AI call returns nothing, the pipeline stops with the
    status "Error: Failed to analyze resume" and does not redirect; the
    record it stored before asking, with the empty string for feedback, is
    its only write and stays in the key-value store under its key. *)
Theorem handleAnalyze_no_answer :
  forall (prepareInstructions : string -> string -> string)
         (W : Type) (h : handler app_call W)
         (companyName jobTitle jobDescription : string) (file : File)
         (s : State) (w : W),
    let out :=
      run h (handleAnalyze prepareInstructions companyName jobTitle jobDescription file)
          s w in
    ai_answers (trace out) = [Ok None] ->
    returned out = Ok tt /\
    statusText (final out) = "Error: Failed to analyze resume" /\
    existsb is_navigation (trace out) = false /\
    exists (uuid : string) (data : Resume),
      kv_writes (trace out) = [("resume:" ++ uuid, serialize data)] /\
      uuids (trace out) = [uuid] /\
      id data = wide uuid /\
      feedback data = JStr [] /\
      deserialize (serialize data) = Some data.
Proof.
  intros prepare W h cn jt jd file s w out. subst out.
  paths h; intros HA; try discriminate HA.
  repeat split.
  eexists. eexists {| id := _; feedback := JStr [] |}. unfold serialize.
  split; [reflexivity|]. split; [reflexivity|]. split; [reflexivity|].
  split; [reflexivity|].
  apply deserialize_serialize; reflexivity.
Qed.

Lemma handleAnalyze_no_answer_witness :
  let out := run Scenarios.silent_ai
                 (handleAnalyze Runtime.prepareInstructions "ACME" "Engineer"
                                "Build things" Session.cv)
                 Session.form (Session.start (Session.browser Session.critique)) in
  statusText (final out) = "Error: Failed to analyze resume" /\
  Runtime.lookup_kv "resume:3e9f6a52-0c4b-4e0e-8d57-1b2a9c7d4f10"
                    (Runtime.kv (Stack.runtime (world out)))
  = Some (serialize Scenarios.pending).
Proof.
  destruct (handleAnalyze_no_answer Runtime.prepareInstructions _ Scenarios.silent_ai
              "ACME" "Engineer" "Build things" Session.cv Session.form
              (Session.start (Session.browser Session.critique)) eq_refl)
    as (_ & S & _).
  split; [exact S|]. vm_compute. reflexivity.
Defined.

Lemma bad_answer (answer : AIResponse) :
  match message_content answer with
  | AnswerString text => Json.parse text = None
  | AnswerParts [] => True
  | AnswerParts (part :: _) =>
      match part_text part with
      | Some text => Json.parse text = None
      | None => True
      end
  end ->
  match message_content answer with
  | AnswerParts [] =>
      exists message, feedbackText answer = Rejected (JsError "TypeError" message)
  | _ =>
      exists text,
        feedbackText answer = Ok text /\
        JSON_parse text = Rejected (JsError "SyntaxError" "Unexpected token in JSON")
  end.
Proof.
  unfold feedbackText, JSON_parse.
  destruct (message_content answer) as [text|[|part rest]].
  - intros H. exists text. now rewrite H.
  - intros _. eexists. reflexivity.
  - destruct (part_text part) as [text|].
    + intros H. exists text. now rewrite H.
    + intros _. exists (wide "undefined"). split; reflexivity.
Qed.

(** X18. When the AI answers but what [JSON.parse] is given is not JSON
    (the content of the answer when that is a string, the text of the
    first part when the content is an array, the word [undefined] when
    that part has no text), [handleAnalyze] rejects with the [SyntaxError];
    when the content is an empty array it rejects with the [TypeError] of
    reading [text] off [undefined].  In both cases the status text stays
    at "Analyzing...", there is no redirect, and the record stored before
    asking is the only write. *)
Theorem handleAnalyze_bad_answer :
  forall (prepareInstructions : string -> string -> string)
         (W : Type) (h : handler app_call W)
         (companyName jobTitle jobDescription : string) (file : File)
         (s : State) (w : W) (answer : AIResponse),
    let out :=
      run h (handleAnalyze prepareInstructions companyName jobTitle jobDescription file)
          s w in
    ai_answers (trace out) = [Ok (Some answer)] ->
    match message_content answer with
    | AnswerString text => Json.parse text = None
    | AnswerParts [] => True
    | AnswerParts (part :: _) =>
        match part_text part with
        | Some text => Json.parse text = None
        | None => True
        end
    end ->
    (exists message,
        returned out =
        Rejected (JsError match message_content answer with
                          | AnswerParts [] => "TypeError"
                          | _ => "SyntaxError"
                          end message)) /\
    statusText (final out) = "Analyzing..." /\
    existsb is_navigation (trace out) = false /\
    length (kv_writes (trace out)) = 1.
Proof.
  intros prepare W h cn jt jd file s w answer out. subst out.
  paths h; intros HA HT; try discriminate HA; injection HA as ->;
    apply bad_answer in HT;
    destruct (message_content answer) as [content|[|part rest]];
    first [ destruct HT as (text & HT1 & HT2) | destruct HT as (message & HT1) ];
    repeat match goal with
           | HF : feedbackText _ = _ |- _ =>
               rewrite HT1 in HF;
               first [discriminate HF | injection HF as <- | injection HF as ->]
           | HP : JSON_parse _ = _ |- _ =>
               rewrite HT2 in HP; first [discriminate HP | injection HP as <-]
           end;
    (split; [eexists; reflexivity | repeat split]).
Qed.

Lemma handleAnalyze_bad_answer_witness :
  let out := run Runtime.app
                 (handleAnalyze Runtime.prepareInstructions "ACME" "Engineer"
                                "Build things" Session.cv)
                 Session.form (Session.start Scenarios.browser_chatty) in
  (exists message, returned out = Rejected (JsError "SyntaxError" message)) /\
  statusText (final out) = "Analyzing..." /\
  existsb is_navigation (trace out) = false /\
  length (kv_writes (trace out)) = 1.
Proof.
  apply (handleAnalyze_bad_answer Runtime.prepareInstructions _ Runtime.app
           "ACME" "Engineer" "Build things" Session.cv Session.form
           (Session.start Scenarios.browser_chatty)
           {| message_content :=
                AnswerString (wide "Sorry, I cannot rate this resume.") |}).
  - vm_compute. reflexivity.
  - vm_compute. reflexivity.
Defined.

(** X19. Whatever the runtime answers, a run of the pipeline writes at
    most twice to the key-value store, and only under the key "resume:"
    followed by the one identifier it generated; and it redirects only
    after both writes, with the status "Analysis complete,
    redirecting...". *)
Theorem handleAnalyze_writes_own_key :
  forall (prepareInstructions : string -> string -> string)
         (W : Type) (h : handler app_call W)
         (companyName jobTitle jobDescription : string) (file : File)
         (s : State) (w : W),
    let out :=
      run h (handleAnalyze prepareInstructions companyName jobTitle jobDescription file)
          s w in
    length (kv_writes (trace out)) <= 2 /\
    (forall key value,
        In (key, value) (kv_writes (trace out)) ->
        exists u, uuids (trace out) = [u] /\ key = "resume:" ++ u) /\
    (existsb is_navigation (trace out) = true ->
     length (kv_writes (trace out)) = 2 /\
     statusText (final out) = "Analysis complete, redirecting...").
Proof.
  intros prepare W h cn jt jd file s w out. subst out.
  paths h;
    (split; [simpl; lia|]);
    (split;
     [ intros key value HI; simpl in HI;
       repeat (destruct HI as [HI|HI]; [injection HI as <- <-; eexists; split; reflexivity|]);
       destruct HI
     | intros HN; first [discriminate HN | split; reflexivity] ]).
Qed.

Lemma handleAnalyze_writes_own_key_witness :
  let out := Session.analysis (Session.browser Session.critique) in
  length (kv_writes (trace out)) = 2 /\
  statusText (final out) = "Analysis complete, redirecting...".
Proof.
  apply (proj2 (proj2 (handleAnalyze_writes_own_key Runtime.prepareInstructions _
                         Runtime.app "ACME" "Engineer" "Build things" Session.cv
                         Session.form (Session.start (Session.browser Session.critique))))).
  vm_compute. reflexivity.
Defined.

Lemma last_cons (A : Type) (l : list A) (x d : A) : last (x :: l) d = last l x.
Proof.
  revert x d. induction l as [|y l IH]; intros x d; [reflexivity|].
  change (last (x :: y :: l) d) with (last (y :: l) d). now rewrite !IH.
Qed.

Lemma uploads_run (W : Type) (h : handler app_call W) (events : list uploader_event) :
  forall (s : State) (w : W),
    let out := run h (uploads events) s w in
    returned out = Ok tt /\ world out = w /\ trace out = [] /\
    isProcessing (final out) = isProcessing s /\
    statusText (final out) = statusText s /\
    selected (final out) = last (map chosen events) (selected s).
Proof.
  induction events as [|e events IH]; intros s w.
  - now repeat split.
  - assert (run h (uploads (e :: events)) s w
            = run h (uploads events) (setFile (chosen e) s) w) as ->
      by (destruct e; reflexivity).
    destruct (IH (setFile (chosen e) s) w) as (R & Wd & T & P & S & L).
    repeat split; try assumption.
    rewrite L. cbn [map]. now rewrite last_cons.
Qed.

(** X20. What the uploader did last decides what a submit does.  After
    any session of drops and removals, a submit runs the pipeline on the
    first file of the last drop if the last event was a drop of at least
    one file, and on no other file; if the last event was a removal or a
    drop of nothing, or there was no event and nothing was selected, the
    submit makes no call and changes nothing.  The uploader itself makes
    no call and touches neither the processing flag nor the status
    text. *)
Theorem submit_follows_the_uploader :
  forall (prepareInstructions : string -> string -> string)
         (W : Type) (h : handler app_call W)
         (companyName jobTitle jobDescription : string)
         (events : list uploader_event) (s : State) (w : W),
    let submit := handleSubmit prepareInstructions companyName jobTitle jobDescription in
    let session := run h (uploads events) s w in
    let s' := final session in
    trace session = [] /\
    isProcessing s' = isProcessing s /\
    statusText s' = statusText s /\
    run h submit s' w =
      match last (map chosen events) (selected s) with
      | Some file =>
          run h (handleAnalyze prepareInstructions companyName jobTitle jobDescription
                               file) s' w
      | None => {| returned := Ok tt; final := s'; world := w; trace := [] |}
      end.
Proof.
  intros prepare W h cn jt jd events s w submit session s'.
  subst submit session s'.
  destruct (uploads_run W h events s w) as (_ & _ & T & P & S & L).
  split; [exact T|]. split; [exact P|]. split; [exact S|].
  unfold handleSubmit. cbn [bind get run]. rewrite L.
  destruct (last (map chosen events) (selected s)); reflexivity.
Qed.

End Analysis.


(** ** The home page and the review page *)

Section Pages.
Import Js Async Traces Json Puter App.

Lemma parse_values_all (values : list wstring) (parsed : list json) :
  Home.parse_values values = Some parsed ->
  Forall2 (fun value j => Json.parse value = Some j) values parsed.
Proof.
  revert parsed. induction values as [|v values IH]; intros parsed H; simpl in H.
  - injection H as <-. constructor.
  - destruct (Json.parse v) as [j|] eqn:EV; [|discriminate].
    destruct (Home.parse_values values) as [js|]; [|discriminate].
    injection H as <-. constructor; [exact EV | now apply IH].
Qed.

Lemma parse_values_fails (values : list wstring) :
  Home.parse_values values = None ->
  Exists (fun value => Json.parse value = None) values.
Proof.
  induction values as [|v values IH]; intros H; simpl in H.
  - discriminate.
  - destruct (Json.parse v) as [j|] eqn:EV; [|now left].
    destruct (Home.parse_values values) as [js|]; [discriminate|].
    right. now apply IH.
Qed.

(** X21. The home page shows the stored records all or none.  When
    [loadResumes] returns, the loading flag is down and the records shown
    are the stored values parsed, one for each entry of the listing and in
    its order (none when the listing is [undefined]).  When the listing is
    rejected, or a single stored value is not JSON, [loadResumes] rejects:
    the records shown are left as they were and the loading flag stays
    up. *)
Theorem loadResumes_outcome :
  forall (W : Type) (h : handler app_call W) (s : Home.State) (w : W),
    let out := run h Home.loadResumes s w in
    let listing := facade (Kv_list Home.listing_pattern (Some true)) in
    (returned out = Ok tt ->
     Home.loadingResumes (final out) = false /\
     exists answer,
       trace out = [Event listing (Ok answer)] /\
       match answer with
       | None => Home.resumes (final out) = []
       | Some l =>
           Forall2 (fun value j => Json.parse value = Some j)
                   (Home.values_of l) (Home.resumes (final out))
       end) /\
    (forall err, returned out = Rejected err ->
     Home.loadingResumes (final out) = true /\
     Home.resumes (final out) = Home.resumes s /\
     (trace out = [Event listing (Rejected err)] \/
      exists l, trace out = [Event listing (Ok (Some l))] /\
                Exists (fun value => Json.parse value = None) (Home.values_of l))).
Proof.
  intros W h s w out listing. subst out listing. unfold Home.loadResumes. cbn.
  destruct (h _ (facade (Kv_list Home.listing_pattern (Some true))) w)
    as [[[l|]|err] w1]; cbn.
  - destruct (Home.parse_values (Home.values_of l)) as [parsed|] eqn:EP; cbn.
    + split; [|discriminate]. intros _. split; [reflexivity|].
      eexists. split; [reflexivity|]. now apply parse_values_all.
    + split; [discriminate|]. intros err H. injection H as <-.
      split; [reflexivity|]. split; [reflexivity|]. right.
      eexists. split; [reflexivity|]. now apply parse_values_fails.
  - split; [|discriminate]. intros _. split; [reflexivity|].
    eexists. split; reflexivity.
  - split; [discriminate|]. intros err' H. injection H as <-.
    split; [reflexivity|]. split; [reflexivity|]. now left.
Qed.

Lemma loadResumes_outcome_witness :
  let out := run Runtime.app Home.loadResumes
                 {| Home.resumes := []; Home.loadingResumes := false |}
                 (Session.start Scenarios.browser_corrupt) in
  Home.loadingResumes (final out) = true /\
  Home.resumes (final out) = [].
Proof.
  intros out.
  destruct (proj2 (loadResumes_outcome _ Runtime.app
                     {| Home.resumes := []; Home.loadingResumes := false |}
                     (Session.start Scenarios.browser_corrupt))
                  (JsError "SyntaxError" "Unexpected token in JSON"))
    as (L & R & _).
  - vm_compute. reflexivity.
  - split; assumption.
Defined.

End Pages.


(** ** The review page *)

Section Reviewing.
Import Js Async Traces Json Review.

Ltac answer h :=
  match goal with
  | |- context [h ?Y ?c ?w] =>
      let r := fresh "r" in
      let w' := fresh "w" in
      let E := fresh "E" in
      destruct (h Y c w) as [r w'] eqn:E; destruct r; cbn
  end.

Ltac branch :=
  match goal with
  | |- context [match ?x with Some _ => _ | None => _ end] =>
      is_var x; destruct x; cbn
  | |- context [match ?x with [] => _ | _ :: _ => _ end] =>
      is_var x; destruct x; cbn
  | |- context [from_result (App.JSON_parse ?t)] =>
      destruct (App.JSON_parse t) eqn:?; cbn
  | |- context [from_result (property ?k ?d)] =>
      destruct (property k d) eqn:?; cbn
  end.

Ltac paths h :=
  unfold loadResume, showRecord; cbn; repeat first [answer h | branch].

Lemma serialize_not_empty (r : Types.Resume) :
  exists c rest, Types.serialize r = c :: rest.
Proof. unfold Types.serialize. cbn [Json.stringify app wide]. eexists. eexists. reflexivity. Qed.

(** X24. The review page reads back what the pipeline stored.  Given the
    stored text of a record under "resume:" followed by the id, it asks
    the filesystem for the record's [resumePath] and then for its
    [imagePath], and once both blobs have arrived it holds the two object
    URLs and, for feedback, exactly the record's feedback, provided every
    number in that feedback is finite and none is the negative zero (those
    are not stored as they are). *)
Theorem loadResume_reads_record :
  forall (W : Type) (h : handler review_call W) (id : string) (r : Types.Resume)
         (s : State) (w w1 w2 w3 w4 w5 : W) (pdf image : Blob)
         (pdfUrl imgUrl : Pdf2Img.BlobUrl),
    Json.is_value (Types.feedback r) = true ->
    Json.all_print (Types.feedback r) = true ->
    h _ (kv_get ("resume:" ++ id)) w = (Ok (Some (Some (Types.serialize r))), w1) ->
    h _ (fs_read (Some (JStr (Types.resumePath r)))) w1 = (Ok (Some pdf), w2) ->
    h _ (URL_createObjectURL (new_Blob pdf "application/pdf")) w2 = (Ok pdfUrl, w3) ->
    h _ (fs_read (Some (JStr (Types.imagePath r)))) w3 = (Ok (Some image), w4) ->
    h _ (URL_createObjectURL image) w4 = (Ok imgUrl, w5) ->
    let out := run h (loadResume id) s w in
    returned out = Ok tt /\
    final out = {| imageUrl := Pdf2Img.blob_url imgUrl;
                   resumeUrl := Pdf2Img.blob_url pdfUrl;
                   feedback := Some (Types.feedback r) |} /\
    world out = w5 /\
    trace out =
      [ Event (kv_get ("resume:" ++ id)) (Ok (Some (Some (Types.serialize r))));
        Event (fs_read (Some (JStr (Types.resumePath r)))) (Ok (Some pdf));
        Event (URL_createObjectURL (new_Blob pdf "application/pdf")) (Ok pdfUrl);
        Event (fs_read (Some (JStr (Types.imagePath r)))) (Ok (Some image));
        Event (URL_createObjectURL image) (Ok imgUrl) ].
Proof.
  intros W h id r s w w1 w2 w3 w4 w5 pdf image pdfUrl imgUrl Hv Hp H1 H2 H3 H4 H5 out.
  subst out. unfold loadResume, wstring in *. cbn -[Types.serialize] in H1 |- *. rewrite H1.
  cbn -[Types.serialize].
  destruct (serialize_not_empty r) as (c & rest & E).
  rewrite E. cbv iota beta. rewrite <- E.
  unfold showRecord, App.JSON_parse.
  rewrite (parse_serialize r Hv Hp).
  cbn. rewrite H2. cbn. rewrite H3. cbn. rewrite H4. cbn. rewrite H5. cbn.
  repeat split.
Qed.

Lemma loadResume_reads_record_witness :
  let stored := world (Session.analysis (Session.browser Session.critique)) in
  let out := run ReviewRuntime.review
                 (loadResume "3e9f6a52-0c4b-4e0e-8d57-1b2a9c7d4f10")
                 initial_state stored in
  returned out = Ok tt /\
  feedback (final out) = Some (Types.feedback_json Session.critique).
Proof.
  intros stored out.
  assert (ReviewRuntime.review (kv_get ("resume:" ++ "3e9f6a52-0c4b-4e0e-8d57-1b2a9c7d4f10"))
                               stored
          = (Ok (Some (Some (Types.serialize Session.record))), stored)) as H1
    by (vm_compute; reflexivity).
  assert (ReviewRuntime.review (fs_read (Some (JStr (Types.resumePath Session.record))))
                               stored
          = (Ok (Some {| blob_type := ""; blob_bytes := "" |}), stored)) as H2
    by (vm_compute; reflexivity).
  assert (ReviewRuntime.review (fs_read (Some (JStr (Types.imagePath Session.record))))
                               stored
          = (Ok (Some {| blob_type := ""; blob_bytes := "" |}), stored)) as H4
    by (vm_compute; reflexivity).
  destruct (loadResume_reads_record _ ReviewRuntime.review
              "3e9f6a52-0c4b-4e0e-8d57-1b2a9c7d4f10" Session.record initial_state
              stored stored stored stored stored stored _ _ _ _
              ltac:(vm_compute; reflexivity) ltac:(vm_compute; reflexivity)
              H1 H2 eq_refl H4 eq_refl)
    as (R & F & _).
  split; [exact R|]. subst out. rewrite F. reflexivity.
Defined.

(** X25. The review page sets the feedback last: whenever a run of
    [loadResume] changes the feedback it holds, both files were read and
    both object URLs are in place.  So a record whose PDF or preview
    cannot be read never shows its feedback; and when nothing is stored
    under the key (the value is [undefined], [null] or empty), the run
    makes no further call and changes nothing. *)
Theorem loadResume_sets_feedback_last :
  forall (W : Type) (h : handler review_call W) (id : string) (s : State) (w : W),
    let out := run h (loadResume id) s w in
    (feedback (final out) <> feedback s ->
     returned out = Ok tt /\
     length (filter is_url_call (trace out)) = 2 /\
     exists pdfUrl imgUrl,
       resumeUrl (final out) = Pdf2Img.blob_url pdfUrl /\
       imageUrl (final out) = Pdf2Img.blob_url imgUrl) /\
    (forall answer w1,
        h _ (kv_get ("resume:" ++ id)) w = (Ok answer, w1) ->
        answer = None \/ answer = Some None \/ answer = Some (Some []) ->
        final out = s /\ trace out = [Event (kv_get ("resume:" ++ id)) (Ok answer)]).
Proof.
  intros W h id s w out. subst out. split.
  - paths h; intros H; try (now elim H).
    split; [reflexivity|]. split; [reflexivity|]. eexists. eexists. split; reflexivity.
  - intros answer w1 H HA. unfold loadResume, wstring in *. cbn in H |- *. rewrite H.
    destruct HA as [->|[->| ->]]; cbn; split; reflexivity.
Qed.

Lemma loadResume_sets_feedback_last_witness :
  let out := run ReviewRuntime.review (loadResume "no-such-id") initial_state
                 (world (Session.analysis (Session.browser Session.critique))) in
  final out = initial_state.
Proof.
  intros out.
  apply (proj2 (loadResume_sets_feedback_last _ ReviewRuntime.review "no-such-id"
                  initial_state
                  (world (Session.analysis (Session.browser Session.critique))))
               (Some None)
               (world (Session.analysis (Session.browser Session.critique)))).
  - vm_compute. reflexivity.
  - right. left. reflexivity.
Defined.

End Reviewing.


(** ** The wipe page *)

Section Wiping.
Import Js Async Traces Puter App Wipe.

(** The deletions run in the order of the list and stop at the first one
    that is rejected. *)
Lemma delete_each_run (W : Type) (h : handler app_call W) (l : list FSItem) :
  forall (s : State) (w : W),
    let out := run h (delete_each l) s w in
    final out = s /\
    (exists n, n <= length l /\
               map request_of (trace out)
               = firstn n (map (fun file => Request (facade (Fs_delete (fs_path file)))) l)) /\
    forallb fulfilled (removelast (trace out)) = true /\
    (returned out = Ok tt ->
     map request_of (trace out)
     = map (fun file => Request (facade (Fs_delete (fs_path file)))) l /\
     forallb fulfilled (trace out) = true) /\
    (forall err, returned out = Rejected err -> trace out <> []).
Proof.
  induction l as [|file l IH]; intros s w; simpl.
  - repeat split; try reflexivity; try discriminate. exists 0. now split.
  - destruct (h unit (facade (Fs_delete (fs_path file))) w) as [[[]|err] w1] eqn:E; simpl.
    + destruct (IH s w1) as (F & (n & Hn & P) & A & R & J).
      split; [exact F|].
      split; [exists (S n); split; [lia | simpl; now rewrite P]|].
      split.
      * destruct (trace (run h (delete_each l) s w1)) as [|e t] eqn:T; [reflexivity|].
        simpl in A |- *. exact A.
      * split.
        -- intros H. destruct (R H) as (R1 & R2). split; [now rewrite R1 | exact R2].
        -- intros err H. discriminate.
    + repeat split; try discriminate. exists 1. split; [lia | reflexivity].
Qed.

(** X22. A wipe deletes the listed files in the order of the list, then
    flushes the key-value store, then reads the directory again, and it
    stops at the first call that is rejected: the calls made are always a
    prefix of that sequence and every call but the last was fulfilled, so
    the store is flushed only after every listed file has been deleted.
    A wipe that returns made all the calls; one that is rejected leaves
    the list on the page as it was. *)
Theorem handleDelete_order :
  forall (W : Type) (h : handler app_call W) (s : State) (w : W),
    let out := run h handleDelete s w in
    (exists n, map request_of (trace out) = firstn n (wipe_requests (files s))) /\
    forallb fulfilled (removelast (trace out)) = true /\
    (returned out = Ok tt -> map request_of (trace out) = wipe_requests (files s)) /\
    (forall err, returned out = Rejected err -> files (final out) = files s).
Proof.
  intros W h s w out. subst out. unfold handleDelete, wipe_requests. simpl.
  rewrite run_bind. cbv zeta.
  destruct (delete_each_run W h (files s) s w) as (F & (n & Hn & P) & A & R & J).
  set (dels := map (fun file => Request (facade (Fs_delete (fs_path file)))) (files s)) in *.
  assert (length dels = length (files s)) as HL by apply length_map.
  destruct (returned (run h (delete_each (files s)) s w)) as [[]|err] eqn:ER.
  - destruct (R eq_refl) as (R1 & R2). rewrite F. cbn [returned final world trace].
    remember (world (run h (delete_each (files s)) s w)) as w1 eqn:Ew1. clear Ew1.
    unfold loadFiles. cbn.
    destruct (h (option bool) (facade Kv_flush) w1) as [[b|err] w2]; cbn;
      [destruct (h (option (list FSItem)) (facade (Fs_readDir "./")) w2)
         as [[listed|err] w3]; cbn|].
    all: rewrite map_app, R1; cbn [map request_of].
    all: split; [|split; [|split]].
    all: try (intros H; first [discriminate H | reflexivity]).
    all: try (intros err' H; first [discriminate H | reflexivity]).
    all: try (rewrite removelast_app by discriminate; rewrite forallb_app, R2;
              reflexivity).
    + exists (length dels + 2). now rewrite firstn_app_2.
    + exists (length dels + 2). now rewrite firstn_app_2.
    + exists (length dels + 1). now rewrite firstn_app_2.
  - cbn [returned final world trace]. split; [|split; [|split]].
    + exists n. rewrite P, firstn_app.
      replace (n - length dels) with 0 by lia. simpl. now rewrite List.app_nil_r.
    + exact A.
    + discriminate.
    + intros _ _. now rewrite F.
Qed.

Lemma handleDelete_order_witness :
  let listed := {| files := [ {| fs_id := "1"; fs_name := "resume.pdf";
                                 fs_path := "/uploads/resume.pdf" |};
                              {| fs_id := "2"; fs_name := "resume.png";
                                 fs_path := "/uploads/resume.png" |} ] |} in
  map request_of
      (trace (run Runtime.app handleDelete listed
                  (Session.start (Session.browser Session.critique))))
  = wipe_requests (files listed).
Proof.
  intros listed.
  apply (proj1 (proj2 (proj2 (handleDelete_order _ Runtime.app listed
                                (Session.start (Session.browser Session.critique)))))).
  reflexivity.
Defined.

Section WithoutRuntime.
Variable B : Type.
Variable on_puter : handler puter_call B.
Variable on_pdf : handler Pdf2Img.pdf_call B.
Variable randomUUID : B -> string * B.
Variable b0 : B.
Hypothesis missing : on_puter bool window_puter b0 = (Ok false, b0).

Lemma delete_each_without_runtime (l : list FSItem) :
  forall (s : State) (w0 : Stack.World B),
    Stack.runtime w0 = b0 ->
    let out := run (Stack.app_handler on_puter on_pdf randomUUID) (delete_each l) s w0 in
    returned out = Ok tt /\
    final out = s /\
    map request_of (trace out)
    = map (fun file => Request (facade (Fs_delete (fs_path file)))) l /\
    Stack.runtime (world out) = b0.
Proof.
  induction l as [|file l IH]; intros s w0 H0.
  - now repeat split.
  - cbn. rewrite H0, missing. cbn.
    match goal with
    | |- context [run _ (delete_each l) s ?w1] =>
        destruct (IH s w1 eq_refl) as (R & F & T & Wd)
    end.
    rewrite R, F, T, Wd. now repeat split.
Qed.

Lemma handleDelete_missing :
  forall (s : State) (w0 : Stack.World B),
    Stack.runtime w0 = b0 ->
    let out := run (Stack.app_handler on_puter on_pdf randomUUID) handleDelete s w0 in
    returned out = Ok tt /\
    files (final out) = [] /\
    map request_of (trace out) = wipe_requests (files s) /\
    Stack.runtime (world out) = b0 /\
    error (Stack.puter_store (world out)) = Some "Puter.js not available" /\
    isLoading (Stack.puter_store (world out)) = false.
Proof.
  intros s w0 H0 out. subst out. unfold handleDelete, wipe_requests. simpl.
  rewrite run_bind. cbv zeta.
  destruct (delete_each_without_runtime (files s) s w0 H0) as (R & F & T & Wd).
  rewrite R, F. cbn [returned final world trace].
  unfold loadFiles. cbn. rewrite Wd, missing. cbn. rewrite missing. cbn.
  rewrite map_app, T. now repeat split.
Qed.

End WithoutRuntime.

(** X23. With the Puter script missing, a wipe runs to its end without
    an error being thrown although nothing was deleted: every operation
    returned [undefined] after setting the store's error, and the runtime,
    which is as it was, was never asked to delete or flush anything.  The
    list of files the page keeps is then empty, but the page does not show
    it: with the store's error set and its loading flag down, what the
    page renders is the error, "Puter.js not available". *)
Theorem handleDelete_without_runtime :
  forall (B : Type) (on_puter : handler puter_call B)
         (on_pdf : handler Pdf2Img.pdf_call B) (randomUUID : B -> string * B)
         (s : State) (w0 : Stack.World B),
    on_puter bool window_puter (Stack.runtime w0) = (Ok false, Stack.runtime w0) ->
    let out := run (Stack.app_handler on_puter on_pdf randomUUID) handleDelete s w0 in
    returned out = Ok tt /\
    files (final out) = [] /\
    map request_of (trace out) = wipe_requests (files s) /\
    Stack.runtime (world out) = Stack.runtime w0 /\
    error (Stack.puter_store (world out)) = Some "Puter.js not available" /\
    render (Stack.puter_store (world out)) (final out)
    = ErrorView "Puter.js not available".
Proof.
  intros B on_puter on_pdf randomUUID s w0 H.
  destruct (handleDelete_missing B on_puter on_pdf randomUUID (Stack.runtime w0) H
              s w0 eq_refl) as (R & F & T & Wd & E & L).
  cbv zeta. repeat (split; [assumption|]).
  unfold render. rewrite L, E. reflexivity.
Qed.

Lemma handleDelete_without_runtime_witness :
  let listed := {| files := [ {| fs_id := "1"; fs_name := "resume.pdf";
                                 fs_path := "/uploads/resume.pdf" |};
                              {| fs_id := "2"; fs_name := "resume.png";
                                 fs_path := "/uploads/resume.png" |} ] |} in
  let out := run Runtime.app handleDelete listed
                 (Session.start Session.browser_without_puter) in
  returned out = Ok tt /\
  files (final out) = [] /\
  Stack.runtime (world out) = Session.browser_without_puter /\
  render (Stack.puter_store (world out)) (final out)
  = ErrorView "Puter.js not available".
Proof.
  intros listed out.
  destruct (handleDelete_without_runtime _ Runtime.on_puter Runtime.on_pdf
              Runtime.randomUUID listed
              (Session.start Session.browser_without_puter) eq_refl)
    as (R & F & _ & Wd & _ & V).
  repeat split; assumption.
Defined.

End Wiping.


(** ** The redirects *)

Section Redirects.
Import Js Puter AuthRoute.

Lemma strip_prefix_app (p rest : string) : strip_prefix p (p ++ rest) = Some rest.
Proof.
  induction p as [|c p IH]; simpl; [reflexivity|]. now rewrite Ascii.eqb_refl.
Qed.

Lemma strip_prefix_some (p s rest : string) :
  strip_prefix p s = Some rest -> s = p ++ rest.
Proof.
  revert s. induction p as [|c p IH]; intros s H; simpl in H.
  - now injection H as ->.
  - destruct s as [|d s]; [discriminate|].
    destruct (Ascii.eqb c d) eqn:E; [|discriminate].
    apply Ascii.eqb_eq in E. subst d. simpl. f_equal. now apply IH.
Qed.

Lemma cut_some (sep s a b : string) :
  cut sep s = Some (a, b) -> s = a ++ sep ++ b.
Proof.
  revert a. induction s as [|c s IH]; intros a H; simpl in H.
  - destruct (strip_prefix sep "") as [rest|] eqn:E; [|discriminate].
    injection H as <- <-. exact (strip_prefix_some _ _ _ E).
  - destruct (strip_prefix sep (String c s)) as [rest|] eqn:E.
    + injection H as <- <-. exact (strip_prefix_some _ _ _ E).
    + destruct (cut sep s) as [[a' b']|]; [|discriminate].
      injection H as <- <-. simpl. f_equal. now apply IH.
Qed.

Lemma cut_unfold (sep s : string) :
  cut sep s =
  match strip_prefix sep s with
  | Some rest => Some (EmptyString, rest)
  | None =>
      match s with
      | EmptyString => None
      | String c s' => option_map (fun p => (String c (fst p), snd p)) (cut sep s')
      end
  end.
Proof. destruct s; reflexivity. Qed.

Lemma cut_occurs (sep a b : string) : cut sep (a ++ sep ++ b) <> None.
Proof.
  induction a as [|c a IH]; simpl.
  - rewrite cut_unfold, strip_prefix_app. discriminate.
  - destruct (strip_prefix sep (String c (a ++ sep ++ b))); [discriminate|].
    destruct (cut sep (a ++ sep ++ b)); [discriminate | now elim IH].
Qed.

Lemma cut_none (sep s : string) : cut sep s = None <-> ~ occurs sep s.
Proof.
  split.
  - intros H (a & b & ->). now apply (cut_occurs sep a b).
  - intros H. destruct (cut sep s) as [[a b]|] eqn:E; [|reflexivity].
    elim H. exists a, b. now apply cut_some.
Qed.

(** The text after the first "next=" is cut at the next "next=", if
    there is one. *)
Lemma next_of_query (target : string) :
  next ("?next=" ++ target)
  = Some match cut "next=" target with
         | Some (segment, _) => segment
         | None => target
         end.
Proof. reflexivity. Qed.

Lemma next_keeps_target (target : string) :
  ~ occurs "next=" target -> next ("?next=" ++ target) = Some target.
Proof. intros H. rewrite next_of_query. apply cut_none in H. now rewrite H. Qed.

(** X26. The auth page finds the way back exactly when the target holds
    no "next=" of its own: from the query "?next=" followed by a target,
    [location.search.split("next=")[1]] is the whole target if and only if
    "next=" does not occur in the target (otherwise it is the part of the
    target before that occurrence); and it is [undefined], so that the
    auth page of a signed-in visitor calls [navigate(undefined)], exactly
    for a query in which "next=" does not occur. *)
Theorem next_round_trip :
  forall (target search : string) (signed : PuterStore),
    (next ("?next=" ++ target) = Some target <-> ~ occurs "next=" target) /\
    (next search = None <-> ~ occurs "next=" search) /\
    (isAuthenticated (auth signed) = true ->
     (auth_redirect search signed = Some None <-> ~ occurs "next=" search)).
Proof.
  intros target search signed.
  assert (next search = None <-> ~ occurs "next=" search) as HN.
  { unfold next, split_1. rewrite <- cut_none.
    destruct (cut "next=" search) as [[a b]|]; split; intros H;
      first [discriminate H | reflexivity]. }
  split; [|split; [exact HN|]].
  - rewrite next_of_query. split.
    + intros H. apply cut_none.
      destruct (cut "next=" target) as [[a b]|] eqn:E; [|reflexivity].
      injection H as ->. apply cut_some in E.
      apply (f_equal String.length) in E.
      rewrite !length_append in E. simpl in E. lia.
    + intros H. rewrite <- next_of_query. now apply next_keeps_target.
  - intros HS. unfold auth_redirect. rewrite HS. rewrite <- HN.
    split; intros H; congruence.
Qed.

Lemma next_round_trip_witness :
  next "?next=/resume/3e9f6a52-0c4b-4e0e-8d57-1b2a9c7d4f10"
  = Some "/resume/3e9f6a52-0c4b-4e0e-8d57-1b2a9c7d4f10".
Proof.
  apply (proj1 (next_round_trip "/resume/3e9f6a52-0c4b-4e0e-8d57-1b2a9c7d4f10" ""
                  Session.store_of_alice)).
  apply cut_none. reflexivity.
Defined.

Lemma all_unreserved_app (a b : string) :
  all_unreserved (a ++ b) = all_unreserved a && all_unreserved b.
Proof.
  induction a as [|c a IH]; simpl; [reflexivity|].
  now rewrite IH, andb_assoc.
Qed.

Lemma unreserved_no_hash (id : string) :
  all_unreserved id = true -> ~ occurs "#" id.
Proof.
  intros H (a & b & ->). rewrite all_unreserved_app in H.
  apply andb_true_iff in H. destruct H as [_ H]. discriminate H.
Qed.

Lemma unreserved_no_next (id : string) :
  all_unreserved id = true -> ~ occurs "next=" id.
Proof.
  intros H (a & b & ->). rewrite all_unreserved_app in H.
  apply andb_true_iff in H. destruct H as [_ H]. discriminate H.
Qed.

Lemma search_of_review (id : string) :
  ~ occurs "#" id ->
  location_search ("/auth?next=/resume/" ++ id) = "?next=/resume/" ++ id.
Proof.
  intros H. apply cut_none in H. unfold location_search, before.
  replace (cut "#" ("/auth?next=/resume/" ++ id)) with (@None (string * string))
    by (simpl; now rewrite H).
  reflexivity.
Qed.

(** X27. Each guarded page sends a visitor who is not signed in to the
    auth page with a target from whose search part the auth page, once
    the visitor is signed in, navigates back to that page: to "/" from the
    home page, to "/wipe" from the wipe page, and to "/resume/" followed
    by the id from the review page, provided the id is made of unreserved
    URL characters (letters, digits, "-", ".", "_", "~"), as the generated
    ids are: such an id holds no "#", which would end the search part, and
    no "next=", at which the auth page would cut it.  The home page does
    so whether or not the store is still loading; the other two wait for
    the loading flag to go down. *)
Theorem guards_lead_back :
  forall (visitor signed : PuterStore) (id : string),
    isAuthenticated (auth visitor) = false ->
    isAuthenticated (auth signed) = true ->
    (exists to,
        home_guard visitor = Some to /\
        auth_redirect (location_search to) signed = Some (Some "/")) /\
    (isLoading visitor = false ->
     exists to,
       wipe_guard visitor = Some to /\
       auth_redirect (location_search to) signed = Some (Some "/wipe")) /\
    (isLoading visitor = false -> all_unreserved id = true ->
     exists to,
       resume_guard id visitor = Some to /\
       to = ("/auth?next=/resume/" ++ id) /\
       location_search to = ("?next=/resume/" ++ id) /\
       auth_redirect (location_search to) signed = Some (Some ("/resume/" ++ id))) /\
    (isLoading visitor = true ->
     wipe_guard visitor = None /\ resume_guard id visitor = None).
Proof.
  intros visitor signed id HV HS.
  unfold home_guard, wipe_guard, resume_guard, auth_redirect. rewrite HV, HS.
  split; [|split; [|split]].
  - exists "/auth?next=/". split; reflexivity.
  - intros ->. exists "/auth?next=/wipe". split; reflexivity.
  - intros -> H. exists ("/auth?next=/resume/" ++ id).
    split; [reflexivity|]. split; [reflexivity|].
    rewrite (search_of_review id (unreserved_no_hash id H)).
    split; [reflexivity|].
    f_equal. apply (next_keeps_target ("/resume/" ++ id)).
    apply cut_none. generalize (unreserved_no_next id H). intros N.
    apply cut_none in N. simpl. now rewrite N.
  - intros ->. split; reflexivity.
Qed.

Lemma guards_lead_back_witness :
  exists to,
    resume_guard "3e9f6a52-0c4b-4e0e-8d57-1b2a9c7d4f10"
                 (with_error "Puter.js not available" initial_store)
    = Some to /\
    auth_redirect (location_search to) Session.store_of_alice
    = Some (Some "/resume/3e9f6a52-0c4b-4e0e-8d57-1b2a9c7d4f10").
Proof.
  destruct (guards_lead_back (with_error "Puter.js not available" initial_store)
              Session.store_of_alice "3e9f6a52-0c4b-4e0e-8d57-1b2a9c7d4f10"
              eq_refl eq_refl) as (_ & _ & H & _).
  destruct (H eq_refl eq_refl) as (to & G & _ & _ & A).
  exists to. split; assumption.
Defined.

End Redirects.

(** ** The accordion *)

Section Accordions.
Import Accordion.

Lemma includes_app (id : string) (a b : list string) :
  includes id (a ++ b) = includes id a || includes id b.
Proof. unfold includes. apply existsb_app. Qed.

Lemma includes_filter (id other : string) (items : list string) :
  includes id (filter (fun item => negb (String.eqb item other)) items)
  = includes id items && negb (String.eqb id other).
Proof.
  unfold includes. induction items as [|x items IH]; simpl; [reflexivity|].
  destruct (String.eqb x other) eqn:EX; simpl; rewrite IH.
  - apply String.eqb_eq in EX. subst x.
    destruct (String.eqb id other); simpl; [|reflexivity].
    now rewrite andb_false_r.
  - destruct (String.eqb id x) eqn:EI; simpl; [|reflexivity].
    apply String.eqb_eq in EI. subst x. now rewrite EX.
Qed.

(** X28. A click on a header flips that item, in both modes: it is open
    afterwards exactly when it was closed before.  In the mode that
    allows several open items every other item stays as it was; in the
    default mode every other item is closed. *)
Theorem toggleItem_flips :
  forall (allowMultiple : bool) (id other : string) (prev : list string),
    isItemActive (toggleItem allowMultiple id prev) id
    = negb (isItemActive prev id) /\
    (other <> id ->
     isItemActive (toggleItem allowMultiple id prev) other
     = if allowMultiple then isItemActive prev other else false).
Proof.
  intros allowMultiple id other prev. unfold isItemActive, toggleItem.
  destruct allowMultiple; destruct (includes id prev) eqn:E; split;
    try intros H;
    rewrite ?includes_filter, ?includes_app, ?E; simpl;
    rewrite ?String.eqb_refl, ?andb_false_r, ?orb_false_r; try reflexivity.
  - apply String.eqb_neq in H. now rewrite H, andb_true_r.
  - apply String.eqb_neq in H. now rewrite H, orb_false_r.
  - apply String.eqb_neq in H. now rewrite H.
Qed.

Lemma toggleItem_flips_witness :
  isItemActive (toggleItem false "content" (initial (Some "tone-style"))) "tone-style"
  = false.
Proof.
  apply (proj2 (toggleItem_flips false "content" "tone-style"
                  (initial (Some "tone-style")))).
  discriminate.
Defined.

Lemma toggle_single (id : string) (prev : list string) :
  length (toggleItem false id prev) <= 1.
Proof. unfold toggleItem. destruct (includes id prev); simpl; lia. Qed.

Lemma toggle_nodup (id : string) (prev : list string) :
  NoDup prev -> NoDup (toggleItem true id prev).
Proof.
  intros H. unfold toggleItem. destruct (includes id prev) eqn:E.
  - now apply NoDup_filter.
  - apply NoDup_app; [exact H | repeat constructor; intros [] |].
    intros a Ha [<-|[]]. unfold includes in E.
    assert (existsb (String.eqb id) prev = true) as C.
    { apply existsb_exists. exists id. split; [exact Ha | apply String.eqb_refl]. }
    congruence.
Qed.

Lemma clicks_single (ids : list string) :
  forall start, length start <= 1 -> length (clicks false ids start) <= 1.
Proof.
  unfold clicks. induction ids as [|id ids IH]; intros start H; simpl.
  - exact H.
  - apply IH. apply toggle_single.
Qed.

Lemma clicks_nodup (ids : list string) :
  forall start, NoDup start -> NoDup (clicks true ids start).
Proof.
  unfold clicks. induction ids as [|id ids IH]; intros start H; simpl.
  - exact H.
  - apply IH. now apply toggle_nodup.
Qed.

(** X29. However the headers are clicked, an accordion in the default
    mode never has more than one item open, and one that allows several
    never lists an item twice among the open ones; this holds from the
    initial state, in which the item named by [defaultOpen] is open if
    that name is not empty. *)
Theorem accordion_invariants :
  forall (defaultOpen : option string) (ids : list string),
    length (clicks false ids (initial defaultOpen)) <= 1 /\
    NoDup (clicks true ids (initial defaultOpen)).
Proof.
  intros defaultOpen ids.
  assert (length (initial defaultOpen) <= 1 /\ NoDup (initial defaultOpen)) as (L & N).
  { destruct defaultOpen as [[|c d]|]; simpl; split; try lia;
      repeat constructor; intros []. }
  split; [now apply clicks_single | now apply clicks_nodup].
Qed.

End Accordions.


(** ** The score badges *)

Section Badges.
Import Scores.
Local Open Scope Z_scope.

(** X30. For a whole-number score the pill of the summary and the pill
    of the details show the same band (green, yellow or red) except at 70
    and from 40 to 49: at 70 the details show green and the summary
    yellow, from 40 to 49 the details show yellow and the summary red.
    Within the summary the colour of the number always matches the pill,
    and within the details the check icon goes with green. *)
Theorem badges_agree_except :
  forall score : Z,
    (band_of_class (badgeColor (ScoreBadge score))
     = band_of_class (background (DetailsBadge score))
     <-> ~ (score = 70 \/ 40 <= score <= 49)) /\
    (score = 70 ->
     band_of_class (background (DetailsBadge score)) = Some Green /\
     badgeText (ScoreBadge score) = "Good Start") /\
    (40 <= score <= 49 ->
     band_of_class (background (DetailsBadge score)) = Some Yellow /\
     badgeText (ScoreBadge score) = "Needs Work") /\
    (textColor score = "text-green-600" <-> badgeText (ScoreBadge score) = "Strong") /\
    (textColor score = "text-red-600" <-> badgeText (ScoreBadge score) = "Needs Work") /\
    (icon (DetailsBadge score) = "/icons/check.svg"
     <-> band_of_class (background (DetailsBadge score)) = Some Green).
Proof.
  intros score. unfold ScoreBadge, DetailsBadge, textColor. cbn [background icon].
  destruct (Z.gtb_spec score 70), (Z.gtb_spec score 49),
           (Z.gtb_spec score 69), (Z.gtb_spec score 39);
    try lia; cbn; repeat split; intros; try discriminate; try reflexivity; try lia.
Qed.

Lemma badges_agree_except_witness :
  band_of_class (background (DetailsBadge 70)) = Some Green /\
  badgeText (ScoreBadge 70) = "Good Start".
Proof.
  apply (proj1 (proj2 (badges_agree_except 70))). reflexivity.
Defined.

End Badges.

